(** * skyblock-api: leaderboards, single-flight resource caches and the
      ended-auctions history loop

    A shallow embedding of

    - stats.ts     ([categorizeStat], [getStatUnit]; in this tree the text
                    follows cleaners/skyblock/profile.ts),
    - database.ts  (member leaderboards; in this tree the text follows
                    test-data-generator/index.ts),
    - hypixel.ts   ([fetchElection], [fetchItemList],
                    [periodicallyFetchRecentlyEndedAuctions]),

    followed by the properties established about them.

    Conventions.  JavaScript numbers that the code compares (statistic values,
    epoch milliseconds) are integers of [Z]; an absent value is [None];
    a JavaScript object used as a dictionary is a [gmap string _]; an array
    is a [list].  Module-level [let] variables become fields of an explicit
    state record that every operation threads.  An [async] function runs
    from one [await] to the next without interruption; the leaderboard
    functions are followed from call to return, the single-flight fetch is
    followed [await] by [await], several invocations at a time. *)

From Stdlib Require Import ZArith Ascii String.
From stdpp Require Import base option list gmap strings pretty sorting.

Local Open Scope string_scope.
Local Open Scope Z_scope.

(* ===================================================================== *)
(** * Part I.  Definitions                                                *)
(* ===================================================================== *)

(** ** String primitives of the host language *)

Module JsString.

(** [name.startsWith(m)] *)
Fixpoint startsWith (name m : string) {struct m} : bool :=
  match m with
  | EmptyString => true
  | String c m' =>
      match name with
      | EmptyString => false
      | String d name' => Ascii.eqb d c && startsWith name' m'
      end
  end.

(** [name.endsWith(m)]: the last [m.length] code units of [name] are [m]. *)
Definition endsWith (name m : string) : bool :=
  let ln := String.length name in
  let lm := String.length m in
  (lm <=? ln)%nat && String.eqb (substring (ln - lm) lm name) m.

(** [s.slice(from)] for [0 <= from]. *)
Definition sliceFrom (from : nat) (s : string) : string :=
  substring from (String.length s - from) s.

(** [s.slice(0, to)] for [0 <= to]. *)
Definition sliceTo (to : nat) (s : string) : string :=
  substring 0 to s.

(** [s[0] === c]; [s[0]] is [undefined] on the empty string. *)
Definition firstCharIs (c : ascii) (s : string) : bool :=
  match s with
  | EmptyString => false
  | String d _ => Ascii.eqb d c
  end.

(** [s.slice(-1) === c] (also [s.substr(-1) === c]). *)
Fixpoint lastCharIs (c : ascii) (s : string) : bool :=
  match s with
  | EmptyString => false
  | String d EmptyString => Ascii.eqb d c
  | String _ s' => lastCharIs c s'
  end.

End JsString.

(** ** stats.ts *)

Module Stats.
Import JsString.

(** [let trailingEnd = categoryMatch[0] === '_'] *)
Definition trailingEnd (matcher : string) : bool := firstCharIs "_"%char matcher.

(** [let trailingStart = categoryMatch.slice(-1) === '_'] *)
Definition trailingStart (matcher : string) : bool := lastCharIs "_"%char matcher.

(** The test that [categorizeStat], [getStatUnit], [isLeaderboardReversed]
    and [getLeaderboardUnit] all apply to one matcher and one name:
<<
   (trailingStart && name.startsWith(m))
   || (trailingEnd && name.endsWith(m))
   || (name == m)
>> *)
Definition matcherMatches (matcher name : string) : bool :=
  (trailingStart matcher && startsWith name matcher)
  || (trailingEnd matcher && endsWith name matcher)
  || String.eqb name matcher.

(** sorted in order of importance; [None] is the [null] of ['misc'] *)
Definition statCategories : list (string * option (list string)) :=
  [ ("deaths", Some ["deaths_"; "deaths"]);
    ("kills", Some ["kills_"; "kills"]);
    ("fishing", Some ["items_fished_"; "items_fished"; "shredder_"]);
    ("auctions", Some ["auctions_"]);
    ("races", Some ["_best_time"; "_best_time_2"]);
    ("mythos", Some ["mythos_burrows_"; "mythos_kills"]);
    ("farming_contests", Some ["farming_contests_"]);
    ("collection", Some ["collection_"]);
    ("skills", Some ["skill_"]);
    ("slayer", Some ["slayer_"]);
    ("harp", Some ["harp_"]);
    ("misc", None) ].

Record StatCategory := mkStatCategory {
  category : option string;
  name : option string
}.

(** The inner loop of [categorizeStat] over the matchers of one category;
    [None] when the loop ends without returning. *)
Fixpoint categorizeWith (statCategory : string) (matchers : list string)
    (statNameRaw : string) : option StatCategory :=
  match matchers with
  | [] => None
  | categoryMatch :: rest =>
      if trailingStart categoryMatch && startsWith statNameRaw categoryMatch then
        Some (mkStatCategory (Some statCategory)
                (Some (sliceFrom (String.length categoryMatch) statNameRaw)))
      else if trailingEnd categoryMatch && endsWith statNameRaw categoryMatch then
        Some (mkStatCategory (Some statCategory)
                (Some (sliceTo (String.length statNameRaw - String.length categoryMatch)
                         statNameRaw)))
      else if String.eqb statNameRaw categoryMatch then
        Some (mkStatCategory (Some statCategory) None)
      else categorizeWith statCategory rest statNameRaw
  end.

(** The outer loop of [categorizeStat] over the table. *)
Fixpoint categorizeIn (table : list (string * option (list string)))
    (statNameRaw : string) : StatCategory :=
  match table with
  | [] => mkStatCategory None (Some statNameRaw)
  | (statCategory, None) :: _ =>
      mkStatCategory (Some statCategory) (Some statNameRaw)
  | (statCategory, Some matchers) :: rest =>
      match categorizeWith statCategory matchers statNameRaw with
      | Some r => r
      | None => categorizeIn rest statNameRaw
      end
  end.

Definition categorizeStat (statNameRaw : string) : StatCategory :=
  categorizeIn statCategories statNameRaw.

Definition statUnits : list (string * list string) :=
  [ ("time", ["_best_time"; "_best_time_2"; "fastest_coop_join"; "slowest_coop_join"]);
    ("date", ["first_join"; "last_save"]);
    ("coins", ["purse"]);
    ("leaderboards", ["leaderboards_count"; "top_1_leaderboards_count"]) ].

(** The two nested loops of [getStatUnit] (and of [getLeaderboardUnit]). *)
Fixpoint unitIn (table : list (string * list string)) (name : string)
    : option string :=
  match table with
  | [] => None
  | (unitName, matchers) :: rest =>
      if existsb (fun m => matcherMatches m name) matchers then Some unitName
      else unitIn rest name
  end.

Definition getStatUnit (name : string) : option string := unitIn statUnits name.

End Stats.

(** ** Arrays of the host language *)

Module JsArray.

(** Insertion of [x] in front of the first element it does not come after;
    [cmp x y <= 0] reads "[x] may stay before [y]". *)
Fixpoint insertBy {A} (cmp : A -> A -> Z) (x : A) (l : list A) : list A :=
  match l with
  | [] => [x]
  | y :: l' => if cmp x y <=? 0 then x :: y :: l' else y :: insertBy cmp x l'
  end.

(** [l.sort(cmp)]: the sort of the language is stable, which an insertion
    sort from the right is. *)
Definition sortBy {A} (cmp : A -> A -> Z) (l : list A) : list A :=
  foldr (insertBy cmp) [] l.

(** Where a stable sort leaves [e] when it is appended to an array already
    in order: behind every element that may stay before it. *)
Fixpoint placeLast {A} (cmp : A -> A -> Z) (e : A) (l : list A) : list A :=
  match l with
  | [] => [e]
  | y :: l' => if cmp y e <=? 0 then y :: placeLast cmp e l' else e :: y :: l'
  end.

(** [l.slice(0, n)] *)
Definition sliceHead {A} (n : nat) (l : list A) : list A := take n l.

(** [l.slice(-n)]: the last [n] elements. *)
Definition sliceLast {A} (n : nat) (l : list A) : list A :=
  drop (length l - n) l.

End JsArray.

(** ** database.ts: member leaderboards *)

Module Database.
Import JsString JsArray.

(** A value that is a number, [null] or [undefined]. *)
Inductive JsNumber :=
| JsNull
| JsUndefined
| JsNum (z : Z).

(** [!x] *)
Definition jsNot (x : JsNumber) : bool :=
  match x with
  | JsNum z => z =? 0
  | _ => true
  end.

(** [v < x]: [null] converts to [0], [undefined] to [NaN]. *)
Definition jsLt (v : Z) (x : JsNumber) : bool :=
  match x with
  | JsNull => v <? 0
  | JsUndefined => false
  | JsNum z => v <? z
  end.

(** [v > x] *)
Definition jsGt (v : Z) (x : JsNumber) : bool :=
  match x with
  | JsNull => 0 <? v
  | JsUndefined => false
  | JsNum z => z <? v
  end.

(** A document of the [member-leaderboards] collection and an entry of a
    cached leaderboard.  Stored documents carry the [profile] they were
    upserted under; the entries that [updateDatabaseMember] appends to a
    cached leaderboard have no such field. *)
Record DatabaseLeaderboardItem := mkItem {
  uuid : string;
  profile : option string;
  stats : gmap string Z;
  last_updated : Z
}.

(** The fields of [CleanMember] that the leaderboards read. *)
Record CleanMember := mkMember {
  m_uuid : string;
  rawHypixelStats : gmap string Z;
  collections : list (string * Z);     (* name, xp *)
  skills : list (string * Z);          (* name, xp *)
  fairy_souls_total : Z;
  first_join : Z;
  purse : Z;
  visited_zones : list string
}.

(** The field of [CleanFullProfile] that the leaderboards read. *)
Record CleanFullProfile := mkProfile { p_uuid : string }.

(** Module-level state of database.ts together with the collection behind
    [memberLeaderboardsCollection].

    [recentlyUpdated] is the NodeCache with [stdTTL: 60 * 3]: a key maps to
    the instant (epoch ms) at which it expires.

    [ioBudget] is the number of awaited external calls (store queries and
    writes, the calls into constants.ts) that will still succeed; [None]
    when none of them is going to fail. *)
Record State := mkState {
  client : bool;
  recentlyUpdated : gmap string Z;
  memberLeaderboardsCollection : list DatabaseLeaderboardItem;
  cachedRawLeaderboards : gmap string (list DatabaseLeaderboardItem);
  ioBudget : option nat
}.

Definition leaderboardMax : nat := 100.

Definition reversedLeaderboards : list string :=
  [ "first_join"; "_best_time"; "_best_time_2" ].

Definition leaderboardUnits : list (string * list string) :=
  [ ("time", ["_best_time"; "_best_time_2"]);
    ("date", ["first_join"]);
    ("coins", ["purse"]) ].

(** A promise settles with a value or is rejected. *)
Inductive Outcome (A : Type) :=
| Returned (a : A)
| Threw.
Arguments Returned {A} a.
Arguments Threw {A}.

(** Computations over the module state that may throw.  The state survives
    a throw: what was assigned before it stays assigned. *)
Definition M (A : Type) : Type := State -> Outcome A * State.

Definition ret {A} (a : A) : M A := fun s => (Returned a, s).

Definition bind {A B} (c : M A) (k : A -> M B) : M B :=
  fun s =>
    match c s with
    | (Returned a, s') => k a s'
    | (Threw, s') => (Threw, s')
    end.

Notation "'let!' x ':=' c 'in' k" := (bind c (fun x => k))
  (at level 10, x pattern, c at level 100, k at level 200).

(** [for (const x of l) await body(x)] *)
Fixpoint forEach {A} (l : list A) (body : A -> M unit) : M unit :=
  match l with
  | [] => ret tt
  | x :: l' => let! _ := body x in forEach l' body
  end.

(** One awaited external call. *)
Definition externalCall : M unit :=
  fun s =>
    match ioBudget s with
    | None => (Returned tt, s)
    | Some (S k) =>
        (Returned tt,
         mkState (client s) (recentlyUpdated s) (memberLeaderboardsCollection s)
           (cachedRawLeaderboards s) (Some k))
    | Some O => (Threw, s)
    end.

(** [cachedRawLeaderboards.set(name, leaderboard)] *)
Definition setCachedRawLeaderboard (name : string)
    (leaderboard : list DatabaseLeaderboardItem) : M unit :=
  fun s =>
    (Returned tt,
     mkState (client s) (recentlyUpdated s) (memberLeaderboardsCollection s)
       (<[name := leaderboard]> (cachedRawLeaderboards s)) (ioBudget s)).

Definition getMemberCollectionAttributes (member : CleanMember) : gmap string Z :=
  foldl (fun acc c => <["collection_" +:+ c.1 := c.2]> acc) ∅ (collections member).

Definition getMemberSkillAttributes (member : CleanMember) : gmap string Z :=
  foldl (fun acc c => <["skill_" +:+ c.1 := c.2]> acc) ∅ (skills member).

(** Later spreads and keys override earlier ones. *)
Definition getMemberLeaderboardAttributes (member : CleanMember) : gmap string Z :=
  <["visited_zones" := Z.of_nat (length (visited_zones member))]>
    (<["purse" := purse member]>
       (<["first_join" := first_join member]>
          (<["fairy_souls" := fairy_souls_total member]>
             (getMemberSkillAttributes member
                ∪ (getMemberCollectionAttributes member
                     ∪ rawHypixelStats member))))).

Definition isLeaderboardReversed (name : string) : bool :=
  existsb (fun leaderboardMatch => Stats.matcherMatches leaderboardMatch name)
    reversedLeaderboards.

Definition getLeaderboardUnit (name : string) : option string :=
  Stats.unitIn leaderboardUnits name.

(** The comparator handed to [sort] in [updateDatabaseMember]; a difference
    with an absent statistic is [NaN], which [sort] reads as [+0]. *)
Definition compareItems (leaderboardReverse : bool) (attributeName : string)
    (a b : DatabaseLeaderboardItem) : Z :=
  match stats a !! attributeName, stats b !! attributeName with
  | Some x, Some y => if leaderboardReverse then x - y else y - x
  | _, _ => 0
  end.

(** The store's answer to
    [find({ 'stats.name': { $exists: true, $ne: NaN } }).sort({ 'stats.name': dir }).limit(100)]
    with [dir = 1] (ascending) for a reversed leaderboard and [-1] otherwise.
    Values are integers here, so the [$ne: NaN] part filters nothing;
    documents with equal values keep their collection order. *)
Definition findSortLimit (coll : list DatabaseLeaderboardItem) (name : string)
    : list DatabaseLeaderboardItem :=
  take leaderboardMax
    (sortBy (compareItems (isLeaderboardReversed name) name)
       (filter (fun d => is_Some (stats d !! name)) coll)).

(** The store's [updateOne({ uuid, profile }, { $set: { stats, last_updated } }, { upsert: true })]:
    the first matching document gets the two fields set; without a match a
    document made of the filter and the set fields is inserted. *)
Fixpoint upsertMember (coll : list DatabaseLeaderboardItem) (u p : string)
    (st : gmap string Z) (now : Z) : list DatabaseLeaderboardItem :=
  match coll with
  | [] => [mkItem u (Some p) st now]
  | d :: coll' =>
      if bool_decide (uuid d = u /\ profile d = Some p)
      then mkItem (uuid d) (profile d) st now :: coll'
      else d :: upsertMember coll' u p st now
  end.

Definition updateOne (u p : string) (st : gmap string Z) (now : Z) : M unit :=
  let! _ := externalCall in
  fun s =>
    (Returned tt,
     mkState (client s) (recentlyUpdated s)
       (upsertMember (memberLeaderboardsCollection s) u p st now)
       (cachedRawLeaderboards s) (ioBudget s)).

Definition fetchMemberLeaderboardRaw (name : string)
    : M (list DatabaseLeaderboardItem) :=
  fun s =>
    match cachedRawLeaderboards s !! name with
    | Some leaderboard => (Returned leaderboard, s)
    | None =>
        (let! _ := externalCall in
         fun s' =>
           let leaderboardRaw := findSortLimit (memberLeaderboardsCollection s') name in
           (let! _ := setCachedRawLeaderboard name leaderboardRaw in
            ret leaderboardRaw) s') s
    end.

(** [leaderboard[leaderboardMax - 1].stats[name]] when the leaderboard has
    at least [leaderboardMax] items, [null] otherwise. *)
Definition requirementOf (name : string) (leaderboard : list DatabaseLeaderboardItem)
    : JsNumber :=
  if (leaderboardMax <=? length leaderboard)%nat then
    match leaderboard !! (leaderboardMax - 1)%nat with
    | Some item =>
        match stats item !! name with
        | Some v => JsNum v
        | None => JsUndefined
        end
    | None => JsUndefined
    end
  else JsNull.

Definition getMemberLeaderboardRequirement (name : string) : M JsNumber :=
  let! leaderboard := fetchMemberLeaderboardRaw name in
  ret (requirementOf name leaderboard).

(** The condition of the [if] in [getApplicableAttributes],
<<
   !requirement || leaderboardReversed ? attributeValue < requirement
                                       : attributeValue > requirement
>>
    in which [||] binds tighter than [? :]. *)
Definition isApplicable (requirement : JsNumber) (leaderboardReversed : bool)
    (attributeValue : Z) : bool :=
  if jsNot requirement || leaderboardReversed
  then jsLt attributeValue requirement
  else jsGt attributeValue requirement.

(** The loop of [getApplicableAttributes] over the entries of the
    attributes, [applicableAttributes] being the object it fills. *)
Fixpoint applicableLoop (entries : list (string * Z))
    (applicableAttributes : gmap string Z) : M (gmap string Z) :=
  match entries with
  | [] => ret applicableAttributes
  | (leaderboard, attributeValue) :: rest =>
      let! requirement := getMemberLeaderboardRequirement leaderboard in
      let leaderboardReversed := isLeaderboardReversed leaderboard in
      applicableLoop rest
        (if isApplicable requirement leaderboardReversed attributeValue
         then <[leaderboard := attributeValue]> applicableAttributes
         else applicableAttributes)
  end.

(** The entries are visited in the order of [map_to_list]; what is kept does
    not depend on the order, each leaderboard having one entry. *)
Definition getApplicableAttributes (member : CleanMember) : M (gmap string Z) :=
  applicableLoop (map_to_list (getMemberLeaderboardAttributes member)) ∅.

(** The new value of one cached leaderboard in [updateDatabaseMember]:
    filter, concat, sort, slice. *)
Definition patchRawLeaderboard (attributeName : string) (memberUuid : string)
    (leaderboardAttributes : gmap string Z) (now : Z)
    (existingRawLeaderboard : list DatabaseLeaderboardItem)
    : list DatabaseLeaderboardItem :=
  sliceHead 100
    (sortBy (compareItems (isLeaderboardReversed attributeName) attributeName)
       (filter (fun value => uuid value <> memberUuid) existingRawLeaderboard
          ++ [mkItem memberUuid None leaderboardAttributes now])).

(** The second half of [updateDatabaseMember]: the upsert of the member's
    document and the patch of every cached leaderboard it now appears on.
    Each [new Date()] is a reading of its own: [upsertedAt] is the one of the
    upsert, [patchedAt attributeName] the one of the entry pushed on the
    leaderboard [attributeName]. *)
Definition commitMember (memberUuid profileUuid : string)
    (leaderboardAttributes : gmap string Z) (upsertedAt : Z)
    (patchedAt : string -> Z) : M unit :=
  let! _ := updateOne memberUuid profileUuid leaderboardAttributes upsertedAt in
  forEach (map_to_list leaderboardAttributes)
    (fun entry =>
       let attributeName := entry.1 in
       let! existingRawLeaderboard := fetchMemberLeaderboardRaw attributeName in
       setCachedRawLeaderboard attributeName
         (patchRawLeaderboard attributeName memberUuid leaderboardAttributes
            (patchedAt attributeName) existingRawLeaderboard)).

(** TTL of [recentlyUpdated], in milliseconds. *)
Definition recentlyUpdatedTTL : Z := 60 * 3 * 1000.

(** [recentlyUpdated.get(key)]: the stored [true] until the key expires. *)
Definition recentlyUpdatedGet (key : string) (now : Z) (s : State) : bool :=
  match recentlyUpdated s !! key with
  | Some expires => now <=? expires
  | None => false
  end.

(** [recentlyUpdated.set(key, true)] *)
Definition recentlyUpdatedSet (key : string) (now : Z) : M unit :=
  fun s =>
    (Returned tt,
     mkState (client s)
       (<[key := now + recentlyUpdatedTTL]> (recentlyUpdated s))
       (memberLeaderboardsCollection s) (cachedRawLeaderboards s) (ioBudget s)).

(** constants.ts is not among the sources: [addStats], [addCollections],
    [addSkills] and [addZones] are awaited external calls that touch nothing
    of the state above. *)
Definition constantsAdd : M unit := externalCall.

(** [updateDatabaseMember], from call to return.  [now] is the reading of
    the clock at the call, the one the recently updated keys are tested and
    set with; it stands for the later readings as well, the [new Date()] of
    the upsert and of each patch, which [commitMember] tells apart. *)
Definition updateDatabaseMember (member : CleanMember) (profile : CleanFullProfile)
    (now : Z) : M unit :=
  fun s =>
    if negb (client s) then (Returned tt, s)
    else if recentlyUpdatedGet (p_uuid profile +:+ m_uuid member) now s
    then (Returned tt, s)
    else
      (let! _ := recentlyUpdatedSet (p_uuid profile +:+ m_uuid member) now in
       let! _ := constantsAdd in
       let! _ := constantsAdd in
       let! _ := constantsAdd in
       let! _ := constantsAdd in
       let! leaderboardAttributes := getApplicableAttributes member in
       commitMember (m_uuid member) (p_uuid profile) leaderboardAttributes now
         (fun _ => now)) s.

(** *** Vocabulary of the properties *)

Definition hasStatistic (name : string) (e : DatabaseLeaderboardItem) : Prop :=
  is_Some (stats e !! name).

(** [a] ranks no worse than [b] on leaderboard [name]: its value is at least
    that of [b], at most that of [b] on a reversed leaderboard. *)
Definition ranksBefore (name : string) (a b : DatabaseLeaderboardItem) : Prop :=
  match stats a !! name, stats b !! name with
  | Some x, Some y => if isLeaderboardReversed name then x <= y else y <= x
  | _, _ => False
  end.

(** Every entry carries the statistic and the entries are in ranking order. *)
Definition servedInOrder (name : string) (l : list DatabaseLeaderboardItem) : Prop :=
  Forall (hasStatistic name) l /\ StronglySorted (ranksBefore name) l.

Definition mirrorWellFormed (s : State) : Prop :=
  forall name l,
    cachedRawLeaderboards s !! name = Some l ->
    (length l <= 100)%nat /\ servedInOrder name l.

(** What can happen to the module state.  A leaderboard is fetched or a
    member is updated, from call to return.  A fetch or an update that was
    suspended at an [await] while others ran resumes: it caches the answer
    to the query it had sent, computed from the collection as it was then,
    or the patch of a leaderboard it had been served earlier -- any list
    whose entries carry the statistic, as those of every served leaderboard
    do.  Or something outside these functions changes the connection, the
    collection, the availability of the store or the recently updated keys;
    the cached leaderboards have no other writer. *)
Inductive step : State -> State -> Prop :=
| step_fetch name s :
    step s (fetchMemberLeaderboardRaw name s).2
| step_update member profile now s :
    step s (updateDatabaseMember member profile now s).2
| step_late_query name coll s :
    step s (setCachedRawLeaderboard name (findSortLimit coll name) s).2
| step_late_patch name memberUuid leaderboardAttributes now existing s :
    is_Some (leaderboardAttributes !! name) ->
    Forall (hasStatistic name) existing ->
    step s (setCachedRawLeaderboard name
              (patchRawLeaderboard name memberUuid leaderboardAttributes now existing)
              s).2
| step_outside s s' :
    cachedRawLeaderboards s' = cachedRawLeaderboards s -> step s s'.

(** The states the module can be in, from a load with no leaderboard cached. *)
Inductive reachable : State -> Prop :=
| reachable_start s : cachedRawLeaderboards s = ∅ -> reachable s
| reachable_step s s' : reachable s -> step s s' -> reachable s'.

(** The position of an entry on leaderboard [name] as a number that grows
    down the leaderboard. *)
Definition rankOf (name : string) (e : DatabaseLeaderboardItem) : Z :=
  match stats e !! name with
  | Some v => if isLeaderboardReversed name then v else - v
  | None => 0
  end.

(** From a state in [P], the computation [c] returns a value and a state in
    [Q], or throws in a state in [E]. *)
Definition hoare {A} (P : State -> Prop) (c : M A) (Q : A -> State -> Prop)
    (E : State -> Prop) : Prop :=
  forall s, P s ->
    match c s with
    | (Returned a, s') => Q a s'
    | (Threw, s') => E s'
    end.

(** The computation [c] leaves the connection flag and the recently updated
    keys as they are, whether it returns or throws. *)
Definition quiet {A} (c : M A) : Prop :=
  forall s, client (c s).2 = client s /\ recentlyUpdated (c s).2 = recentlyUpdated s.

(** An entry or document without the instant it was written at. *)
Definition untimed (e : DatabaseLeaderboardItem) : DatabaseLeaderboardItem :=
  mkItem (uuid e) (profile e) (stats e) 0.

(** An entry with [last_updated] set to [t] if it is an entry of [memberUuid],
    as it is otherwise. *)
Definition restamped (memberUuid : string) (t : Z) (e : DatabaseLeaderboardItem)
    : DatabaseLeaderboardItem :=
  if decide (uuid e = memberUuid) then mkItem (uuid e) (profile e) (stats e) t else e.

(** The leaderboard a fetch of [name] serves in state [s]. *)
Definition servedView (s : State) (name : string) : list DatabaseLeaderboardItem :=
  match cachedRawLeaderboards s !! name with
  | Some l => l
  | None => findSortLimit (memberLeaderboardsCollection s) name
  end.

End Database.

(** ** hypixel.ts: single-flight resource caches *)

Module SingleFlight.

(** What [sendCleanApiRequest] resolves with for a singleton resource
    ([ElectionData], [ItemListData]); [lastUpdated] is in epoch seconds, as
    the computation of the next update shows. *)
Record Resource := mkResource {
  lastUpdated : Z;
  body : string
}.

(** The three module-level variables of one resource, e.g.
    [isFetchingElection], [cachedElectionData], [nextElectionUpdate]. *)
Record Cache := mkCache {
  isFetching : bool;
  cachedData : option Resource;
  nextUpdate : Z
}.

(** Where one invocation of the fetch function stands. *)
Inductive Call :=
| Polling                      (* inside the promise around [setInterval] *)
| Requesting                   (* at [await sendCleanApiRequest(...)] *)
| Resolved (data : Resource)   (* returned *)
| Rejected.                    (* threw *)

(** The cache, the number of [sendCleanApiRequest] invocations made so far
    for the resource, and every invocation of the fetch function in the
    order they were made. *)
Record World := mkWorld {
  cache : Cache;
  requests : nat;
  calls : list Call
}.

(** What the event loop can run next: a new invocation of the fetch
    function at some instant, the interval callback of a polling invocation,
    or the settling of an invocation's request ([None]: it threw). *)
Inductive Event :=
| Invoke (now : Z)
| PollTick (i : nat)
| Response (i : nat) (result : option Resource).

(** [isFetching = true; sendCleanApiRequest(...)] up to the [await]. *)
Definition startRequest (w : World) : Cache * nat :=
  (mkCache true (cachedData (cache w)) (nextUpdate (cache w)), S (requests w)).

(** The synchronous part of an invocation, up to its first suspension. *)
Definition invoke (now : Z) (w : World) : World :=
  let c := cache w in
  match cachedData c with
  | Some data =>
      if now <? nextUpdate c
      then mkWorld c (requests w) (calls w ++ [Resolved data])
      else
        let '(c', n) := startRequest w in
        mkWorld c' n (calls w ++ [Requesting])
  | None =>
      if isFetching c
      then mkWorld c (requests w) (calls w ++ [Polling])
      else
        let '(c', n) := startRequest w in
        mkWorld c' n (calls w ++ [Requesting])
  end.

(** The interval callback of invocation [i]: once data is cached the
    promise resolves and the function carries on below the [if], into the
    request. *)
Definition pollTick (i : nat) (w : World) : World :=
  match calls w !! i with
  | Some Polling =>
      match cachedData (cache w) with
      | Some _ =>
          let '(c', n) := startRequest w in
          mkWorld c' n (<[i := Requesting]> (calls w))
      | None => w
      end
  | _ => w
  end.

(** The request of invocation [i] settles.  On success the three
    assignments below the [await] run; on failure the function is left at
    the [await] by the exception.  [nextUpdate] is the time value of the
    date, [(lastUpdated + ttl) * 1000] taken to be one a [Date] can hold. *)
Definition response (ttlSeconds : Z) (i : nat) (result : option Resource)
    (w : World) : World :=
  match calls w !! i with
  | Some Requesting =>
      match result with
      | Some data =>
          mkWorld
            (mkCache false (Some data) ((lastUpdated data + ttlSeconds) * 1000))
            (requests w)
            (<[i := Resolved data]> (calls w))
      | None => mkWorld (cache w) (requests w) (<[i := Rejected]> (calls w))
      end
  | _ => w
  end.

Definition step (ttlSeconds : Z) (w : World) (ev : Event) : World :=
  match ev with
  | Invoke now => invoke now w
  | PollTick i => pollTick i w
  | Response i result => response ttlSeconds i result w
  end.

Definition run (ttlSeconds : Z) (w : World) (evs : list Event) : World :=
  foldl (step ttlSeconds) w evs.

(** [fetchElection]: updates every 10 minutes *)
Definition fetchElection : World -> list Event -> World := run (10 * 60).

(** [fetchItemList]: updates every 60 minutes *)
Definition fetchItemList : World -> list Event -> World := run (60 * 60).

(** The module as loaded: [false], [null], [new Date(0)], nothing called. *)
Definition cold : World := mkWorld (mkCache false None 0) 0 [].

(** A resource whose refresh is flagged as running with nothing cached and
    no invocation at its request: every invocation so far threw or polls. *)
Definition stuck (w : World) : Prop :=
  isFetching (cache w) = true
  /\ cachedData (cache w) = None
  /\ Forall (fun c => c = Rejected \/ c = Polling) (calls w).

End SingleFlight.

(** ** hypixel.ts: the ended-auctions loop *)

Module Auctions.
Import JsArray.

(** An element of [endedAuctions.auctions]; [item] is [auction.item.id]. *)
Record EndedAuction := mkEnded {
  auction_id : string;
  item : string;
  auction_coins : Z;
  timestamp : Z;
  auction_bin : bool
}.

Record EndedAuctions := mkSnapshot {
  auctions : list EndedAuction;
  lastUpdated : Z
}.

Record SimpleAuctionSchema := mkSimple {
  s : bool;
  coins : Z;
  id : string;
  ts : Z;
  bin : bool
}.

(** What one turn of the [while (true)] loop starts from: the local
    [previousAuctionIds] and the item-auctions collection of the store, one
    [auctions] array per item id. *)
Record LoopState := mkLoop {
  previousAuctionIds : gset string;
  itemAuctions : gmap string (list SimpleAuctionSchema)
}.

(** First [for] loop: the ids of the auctions not seen in the previous turn. *)
Definition newAuctionUuids (previous : gset string) (ended : list EndedAuction)
    : gset string :=
  foldl (fun acc auction =>
           if bool_decide (auction_id auction ∈ previous) then acc
           else {[ auction_id auction ]} ∪ acc) ∅ ended.

Definition newAuctionItemIds (previous : gset string) (ended : list EndedAuction)
    : gset string :=
  foldl (fun acc auction =>
           if bool_decide (auction_id auction ∈ previous) then acc
           else {[ item auction ]} ∪ acc) ∅ ended.

(** Modelled from the spec: [fetchItemsAuctions] of database.ts, which loads
    the stored history of each of the given items; items without one are
    not in the answer. *)
Definition fetchItemsAuctions (ids : list string)
    (store : gmap string (list SimpleAuctionSchema))
    : list (string * list SimpleAuctionSchema) :=
  omap (fun i => (fun h => (i, h)) <$> store !! i) ids.

(** Modelled from the spec: [updateItemAuction] of database.ts, the upsert
    of one item's history. *)
Definition updateItemAuction (t : string * list SimpleAuctionSchema)
    (store : gmap string (list SimpleAuctionSchema))
    : gmap string (list SimpleAuctionSchema) :=
  <[t.1 := t.2]> store.

Definition simplify (auction : EndedAuction) : SimpleAuctionSchema :=
  mkSimple true (auction_coins auction) (auction_id auction)
    (timestamp auction / 1000) (auction_bin auction).

(** The body of the second [for] loop for one auction. *)
Definition mergeAuction (previous : gset string)
    (updatedDatabaseAuctionItems : gmap string (list SimpleAuctionSchema))
    (auction : EndedAuction) : gmap string (list SimpleAuctionSchema) :=
  if bool_decide (auction_id auction ∈ previous) then updatedDatabaseAuctionItems
  else
    let auctions0 :=
      match updatedDatabaseAuctionItems !! item auction with
      | None => []
      | Some stored => stored
      end in
    let simpleAuction := simplify auction in
    let auctions1 :=
      if existsb (fun a => String.eqb (id a) (id simpleAuction)) auctions0
      then auctions0
      else
        let pushed := (auctions0 ++ [simpleAuction])%list in
        if (100 <? length pushed)%nat then sliceLast 100 pushed else pushed in
    <[item auction := auctions1]> updatedDatabaseAuctionItems.

(** [60 * 1000 - endedAgo + 10000] with [endedAgo = Date.now() - lastUpdated],
    the value handed to [setTimeout]. *)
Definition refetchIn (now snapshotLastUpdated : Z) : Z :=
  let endedAgo := now - snapshotLastUpdated in
  60 * 1000 - endedAgo + 10000.

(** The longest delay of a timer, [2 ** 31 - 1] milliseconds. *)
Definition TIMEOUT_MAX : Z := 2147483647.

(** The delay [setTimeout(callback, after)] runs the timer with: a number
    below 1 or above [TIMEOUT_MAX] is run as 1. *)
Definition setTimeout (after : Z) : Z :=
  if (1 <=? after) && (after <=? TIMEOUT_MAX) then after else 1.

(** [updatedDatabaseAuctionItems] as the loop over [itemsAuctions] fills it. *)
Definition indexById (itemsAuctions : list (string * list SimpleAuctionSchema))
    : gmap string (list SimpleAuctionSchema) :=
  foldl (fun acc itemAuctions => <[itemAuctions.1 := itemAuctions.2]> acc)
    ∅ itemsAuctions.

(** The histories touched by one turn, as they are persisted. *)
Definition mergeEnded (st : LoopState) (endedAuctions : EndedAuctions)
    : gmap string (list SimpleAuctionSchema) :=
  let previous := previousAuctionIds st in
  let itemsAuctions :=
    fetchItemsAuctions (elements (newAuctionItemIds previous (auctions endedAuctions)))
      (itemAuctions st) in
  foldl (mergeAuction previous) (indexById itemsAuctions) (auctions endedAuctions).

(** One turn of the loop of [periodicallyFetchRecentlyEndedAuctions] on the
    snapshot [endedAuctions] received at [now]: the state the next turn
    starts from, and the delay of the timer the loop waits on before it,
    [await new Promise(resolve => setTimeout(resolve, refetchIn))]. *)
Definition iteration (st : LoopState) (endedAuctions : EndedAuctions) (now : Z)
    : LoopState * Z :=
  let updatedDatabaseAuctionItems := mergeEnded st endedAuctions in
  let store' :=
    foldr updateItemAuction (itemAuctions st)
      (map_to_list updatedDatabaseAuctionItems) in
  (mkLoop (newAuctionUuids (previousAuctionIds st) (auctions endedAuctions)) store',
   setTimeout (refetchIn now (lastUpdated endedAuctions))).

(** The loop as started: [previousAuctionIds = new Set()]. *)
Definition start (store : gmap string (list SimpleAuctionSchema)) : LoopState :=
  mkLoop ∅ store.

(** Consecutive turns, one per snapshot with the instant it arrived at. *)
Definition turns (st : LoopState) (snapshots : list (EndedAuctions * Z)) : LoopState :=
  foldl (fun st sn => (iteration st sn.1 sn.2).1) st snapshots.

(** No stored history is longer than 100 records. *)
Definition capped (store : gmap string (list SimpleAuctionSchema)) : Prop :=
  forall itemId history, store !! itemId = Some history -> (length history <= 100)%nat.

End Auctions.

(** ** Sample data *)

Module Samples.
Import Database.

Definition zombieSlayer : CleanMember :=
  mkMember "6536bfed" {[ "kills_zombie" := 50 ]} [("wheat", 1200)] [("farming", 300)]
    3 1600000000000 1000 ["hub"].

Definition profile1 : CleanFullProfile := mkProfile "p1".

(** Connected, nothing stored, nothing cached, the store available. *)
Definition emptyStore : State := mkState true ∅ [] ∅ None.

Definition docA : DatabaseLeaderboardItem :=
  mkItem "a" (Some "p1") {[ "kills_zombie" := 5 ]} 10.
Definition docB1 : DatabaseLeaderboardItem :=
  mkItem "b" (Some "p1") {[ "kills_zombie" := 7 ]} 10.
Definition docB2 : DatabaseLeaderboardItem :=
  mkItem "b" (Some "p2") {[ "kills_zombie" := 9 ]} 10.

(** Three stored documents, two of them of member ["b"] under two profiles. *)
Definition smallStore : State := mkState true ∅ [docA; docB1; docB2] ∅ None.

(** The store of [smallStore] failing from the sixth external call on. *)
Definition flakyStore : State := mkState true ∅ [docA; docB1; docB2] ∅ (Some 5%nat).

(** The [k]-th of a run of auctions of one item, ended one second apart. *)
Definition numbered (k : nat) : Auctions.EndedAuction :=
  Auctions.mkEnded ("auction-" +:+ pretty k) "ASPECT_OF_THE_END"
    (1000 + Z.of_nat k) (1650000000000 + 1000 * Z.of_nat k) true.

Definition burst (n : nat) : list Auctions.EndedAuction := numbered <$> seq 0 n.

(** One auction that the feed keeps listing. *)
Definition lingering : Auctions.EndedAuctions :=
  Auctions.mkSnapshot [numbered 0] 1650000000000.

End Samples.

(** ** database.ts: the leaderboards served and listed *)

Module Leaderboards.
Import JsString JsArray Database.

(** [fetchAllMemberLeaderboardAttributes], given what [constants.fetchStats],
    [fetchCollections] and [fetchSkills] resolve with (constants.ts is not
    among the sources). *)
Definition fetchAllMemberLeaderboardAttributes
    (fetchedStats fetchedCollections fetchedSkills : list string)
    : list string :=
  (fetchedStats
     ++ ((fun value => "collection_" +:+ value) <$> fetchedCollections)
     ++ ((fun value => "skill_" +:+ value) <$> fetchedSkills)
     ++ [ "fairy_souls"; "first_join"; "purse"; "visited_zones" ])%list.

(** [if (!obj[category]) obj[category] = []; obj[category].push(leaderboard)]
    on an object whose keys are kept in the order they were added. *)
Fixpoint pushLeaderboard (category leaderboard : string)
    (obj : list (string * list string)) : list (string * list string) :=
  match obj with
  | [] => [(category, [leaderboard])]
  | (c, l) :: rest =>
      if String.eqb c category then (c, (l ++ [leaderboard])%list) :: rest
      else (c, l) :: pushLeaderboard category leaderboard rest
  end.

(** The key [categorizeStat] gives an object: a [null] category would be the
    key ["null"]. *)
Definition categoryKey (leaderboard : string) : string :=
  default "null" (Stats.category (Stats.categorizeStat leaderboard)).

(** [obj.misc], [undefined] when the key is absent. *)
Fixpoint lookupKey (key : string) (obj : list (string * list string))
    : option (list string) :=
  match obj with
  | [] => None
  | (c, l) :: rest => if String.eqb c key then Some l else lookupKey key rest
  end.

(** [fetchAllLeaderboardsCategorized] on the names it awaited: the loop, then
    [misc] removed and added again, with whatever [obj.misc] was. *)
Definition fetchAllLeaderboardsCategorized (memberLeaderboardAttributes : list string)
    : list (string * option (list string)) :=
  let categorizedLeaderboards :=
    foldl (fun obj leaderboard => pushLeaderboard (categoryKey leaderboard) leaderboard obj)
      [] memberLeaderboardAttributes in
  let misc := lookupKey "misc" categorizedLeaderboards in
  (((fun entry => (entry.1, Some entry.2))
      <$> filter (fun entry => entry.1 <> "misc") categorizedLeaderboards)
     ++ [("misc", misc)])%list.

(** An element of the [list] that [fetchMemberLeaderboard] returns. *)
Record LeaderboardItem (Player : Type) := mkLeaderboardItem {
  player : Player;
  value : option Z
}.
Arguments mkLeaderboardItem {Player} player value.
Arguments player {Player} l.
Arguments value {Player} l.

(** What [fetchMemberLeaderboard] returns: [name], [unit] and [list]. *)
Record Leaderboard (Player : Type) := mkLeaderboard {
  lb_name : string;
  lb_unit : option string;
  lb_list : list (LeaderboardItem Player)
}.
Arguments mkLeaderboard {Player} lb_name lb_unit lb_list.
Arguments lb_name {Player} l.
Arguments lb_unit {Player} l.
Arguments lb_list {Player} l.

(** [await Promise.all(promises)] over computations of the module state, the
    promises made in the order of the array. *)
Fixpoint promiseAll {A B} (f : A -> M B) (l : list A) : M (list B) :=
  match l with
  | [] => ret []
  | x :: l' =>
      let! y := f x in
      let! ys := promiseAll f l' in
      ret (y :: ys)
  end.

(** [fetchMemberLeaderboard]; [fetchBasicPlayer] stands for
    [cached.fetchBasicPlayer] of hypixelCached.ts, which is not among the
    sources. *)
Definition fetchMemberLeaderboard {Player} (fetchBasicPlayer : string -> M Player)
    (name : string) : M (Leaderboard Player) :=
  let! leaderboardRaw := fetchMemberLeaderboardRaw name in
  let! leaderboard :=
    promiseAll
      (fun item =>
         let! p := fetchBasicPlayer (uuid item) in
         ret (mkLeaderboardItem p (stats item !! name)))
      leaderboardRaw in
  ret (mkLeaderboard name (getLeaderboardUnit name) leaderboard).

(** [fetchAllLeaderboards] over the names in the order [shuffle] put them. *)
Definition fetchAllLeaderboards {Player} (fetchBasicPlayer : string -> M Player)
    (shuffled : list string) : M unit :=
  forEach shuffled
    (fun leaderboard =>
       let! _ := fetchMemberLeaderboard fetchBasicPlayer leaderboard in
       ret tt).

End Leaderboards.

(** ** More sample data *)

Module MoreSamples.
Import Database Samples.

(** The [k]-th of a hundred stored members, with [40 + k] zombie kills. *)
Definition ranked (k : nat) : DatabaseLeaderboardItem :=
  mkItem ("player-" +:+ pretty k) (Some "p1") {[ "kills_zombie" := 40 + Z.of_nat k ]} 10.

(** A store whose ["kills_zombie"] leaderboard is full, 100th place at 40. *)
Definition fullStore : State := mkState true ∅ (ranked <$> seq 0 100) ∅ None.

(** The same store, unavailable. *)
Definition downStore : State := mkState true ∅ (ranked <$> seq 0 100) ∅ (Some 0%nat).

(** The hundred players and a second profile of ["player-50"]: 101 stored
    documents, two of them of one member. *)
Definition crowdedStore : State :=
  mkState true ∅
    ((ranked <$> seq 0 100)
       ++ [mkItem "player-50" (Some "p2") {[ "kills_zombie" := 45 ]} 10])%list
    ∅ None.

End MoreSamples.

(** ** Vocabulary of the properties of the single-flight caches and of the
    ended-auctions loop *)

Module Schedules.
Import SingleFlight.

Definition isInvoke (ev : Event) : bool :=
  match ev with Invoke _ => true | _ => false end.

Definition isResponse (ev : Event) : bool :=
  match ev with Response _ _ => true | _ => false end.

Definition isPolling (c : Call) : bool :=
  match c with Polling => true | _ => false end.


(** The number of invocations of the fetch function among the events. *)
Definition invocations (evs : list Event) : nat :=
  length (filter (fun ev => isInvoke ev = true) evs).

End Schedules.

Module Histories.
Import Auctions.

(** No stored history holds two records of one auction. *)
Definition distinct (store : gmap string (list SimpleAuctionSchema)) : Prop :=
  forall itemId history, store !! itemId = Some history -> NoDup (id <$> history).

End Histories.

(** ** hypixel.ts: [fetchUser] *)

Module Users.

(** [60 * 3 * 1000] *)
Definition saveInterval : Z := 60 * 3 * 1000.

(** [{ user, uuid, username }], each of them a string or left out. *)
Record UserAny := mkUserAny {
  user : option string;
  uuid : option string;
  username : option string
}.

(** What [fetchUser] reads of a member and of a profile. *)
Record CleanBasicMember := mkBasicMember {
  member_uuid : string;
  lastSave : option Z
}.

Record CleanProfile := mkCleanProfile {
  profile_uuid : string;
  members : option (list CleanBasicMember)
}.

(** A string used as a condition: neither left out nor empty. *)
Definition truthy (s : option string) : bool :=
  match s with
  | Some (String _ _) => true
  | _ => false
  end.

Section FetchUser.

(** The player without its [profiles] field, and the customization of a
    website account (player.ts and database.ts are not among the sources). *)
Variables (PlayerData AccountCustomization : Type).

Record CleanPlayer := mkCleanPlayer {
  playerData : PlayerData;
  player_profiles : option (list CleanProfile)
}.

Record AccountSchema := mkAccount {
  account_customization : option AccountCustomization
}.

Record CleanUser := mkCleanUser {
  player : option PlayerData;
  profiles : option (list CleanProfile);
  activeProfile : option string;
  online : option bool;
  customization : option AccountCustomization
}.

(** What the awaited calls of [fetchUser] resolve with: [cached.uuidFromUser],
    [cached.fetchPlayer], [cached.fetchSkyblockProfiles], [fetchAccount]. *)
Record Awaited := mkAwaited {
  uuidFromUser : string -> option string;
  fetchPlayer : string -> option CleanPlayer;
  fetchSkyblockProfiles : string -> option (list CleanProfile);
  fetchAccount : string -> option AccountSchema
}.

(** The body of the loop over [profilesData], on [activeProfile] and
    [lastOnline]. *)
Definition activeStep (uuid : string) (acc : option CleanProfile * Z)
    (profile : CleanProfile) : option CleanProfile * Z :=
  let member :=
    match members profile with
    | Some ms => List.find (fun member => String.eqb (member_uuid member) uuid) ms
    | None => None
    end in
  match member with
  | Some member =>
      match lastSave member with
      | Some memberLastSave =>
          if negb (memberLastSave =? 0) && (acc.2 <? memberLastSave)
          then (Some profile, memberLastSave)
          else acc
      | None => acc
      end
  | None => acc
  end.

(** [fetchUser] at the instant [now], the awaited calls resolving as [aw]
    says.  The removal of deleted profiles from the leaderboards, started
    and not awaited, is left out. *)
Definition fetchUser (aw : Awaited) (args : UserAny) (included : list string)
    (wantCustomization : bool) (now : Z) : option CleanUser :=
  let resolved :=
    if truthy (uuid args) then uuid args
    else if negb (truthy (username args)) && negb (truthy (user args)) then None
    else uuidFromUser aw
           (match user args with
            | Some u => u
            | None => default "" (username args)
            end) in
  match resolved with
  | Some (String _ _ as uuid) =>
      let websiteAccount := if wantCustomization then fetchAccount aw uuid else None in
      let includePlayers := bool_decide ("player" ∈ included) in
      let includeProfiles := bool_decide ("profiles" ∈ included) in
      let fetchedPlayer := if includePlayers then fetchPlayer aw uuid else None in
      let basicProfilesData :=
        if includePlayers && negb includeProfiles
        then fetchedPlayer ≫= player_profiles
        else None in
      let profilesData :=
        if includeProfiles then Some (default [] (fetchSkyblockProfiles aw uuid))
        else None in
      let '(active, lastOnline) :=
        match profilesData with
        | Some fetched => if includeProfiles then foldl (activeStep uuid) (None, 0) fetched
                          else (None, 0)
        | None => (None, 0)
        end in
      Some (mkCleanUser
              (playerData <$> fetchedPlayer)
              (match profilesData with
               | Some fetched => Some fetched
               | None => basicProfilesData
               end)
              (if includeProfiles then profile_uuid <$> active else None)
              (if includeProfiles then Some (now - saveInterval <? lastOnline) else None)
              (websiteAccount ≫= account_customization))
  | _ => None
  end.

End FetchUser.

Arguments mkCleanPlayer {_} _ _.
Arguments playerData {_} _.
Arguments player_profiles {_} _.
Arguments mkAccount {_} _.
Arguments account_customization {_} _.
Arguments mkCleanUser {_ _} _ _ _ _ _.
Arguments player {_ _} _.
Arguments profiles {_ _} _.
Arguments activeProfile {_ _} _.
Arguments online {_ _} _.
Arguments customization {_ _} _.
Arguments mkAwaited {_ _} _ _ _ _.
Arguments uuidFromUser {_ _} _ _.
Arguments fetchPlayer {_ _} _ _.
Arguments fetchSkyblockProfiles {_ _} _ _.
Arguments fetchAccount {_ _} _ _.
Arguments fetchUser {_ _} _ _ _ _ _.

(** The [lastSave] of the member [uuid] of a profile, as the search of the
    loop finds it. *)
Definition lastSaveIn (uuid : string) (profile : CleanProfile) : option Z :=
  match members profile with
  | Some ms =>
      match List.find (fun member => String.eqb (member_uuid member) uuid) ms with
      | Some member => lastSave member
      | None => None
      end
  | None => None
  end.

(** The latest save of the member [uuid] in the given profiles, 0 when it
    has none later than 0. *)
Definition latestSave (uuid : string) (fetched : list CleanProfile) : Z :=
  foldr Z.max 0 (omap (lastSaveIn uuid) fetched).

(** The uuid [fetchUser] goes on with: the one given if there is one,
    otherwise the one the user or username resolves to. *)
Definition givenOrResolved {PlayerData AccountCustomization : Type}
    (aw : Awaited PlayerData AccountCustomization) (args : UserAny) : option string :=
  if truthy (uuid args) then uuid args
  else uuidFromUser aw
         (match user args with
          | Some u => u
          | None => default "" (username args)
          end).

End Users.

(** ** hypixel.ts: the names of the auctioned items *)

Module AuctionItems.
Import Database.

(** What [fetchAuctionItemsUncached] reads of an [ItemListItem]:
    [item.id] and [item.display.name]. *)
Record ItemListItem := mkItemListItem {
  item_id : string;
  display_name : string
}.

Fixpoint mapChars (f : ascii -> ascii) (s : string) : string :=
  match s with
  | EmptyString => EmptyString
  | String c rest => String (f c) (mapChars f rest)
  end.

(** [toLowerCase] and [toUpperCase] of a character; the letters of item
    ids are ASCII letters, other characters are left as they are. *)
Definition toLowerCase (c : ascii) : ascii :=
  let n := nat_of_ascii c in
  if (65 <=? n)%nat && (n <=? 90)%nat then ascii_of_nat (n + 32) else c.

Definition toUpperCase (c : ascii) : ascii :=
  let n := nat_of_ascii c in
  if (97 <=? n)%nat && (n <=? 122)%nat then ascii_of_nat (n - 32) else c.

(** [item.toLowerCase().replace(/^./, item[0].toUpperCase()).replace(/_/g, ' ')];
    on the empty string [item[0]] is [undefined] and the call of
    [toUpperCase] throws. *)
Definition fallbackName (item : string) : option string :=
  match item with
  | EmptyString => None
  | String c rest =>
      Some (mapChars (fun c => if Ascii.eqb c "_" then " "%char else c)
              (String (toUpperCase c) (mapChars toLowerCase rest)))
  end.

(** The first loop: the display names of the listed items that are
    auctioned. *)
Definition displayNames (auctionItemIds : list string) (itemList : list ItemListItem)
    : gmap string string :=
  foldl (fun idsToNames item =>
           if bool_decide (item_id item ∈ auctionItemIds)
           then <[item_id item := display_name item]> idsToNames
           else idsToNames) ∅ itemList.

(** The second loop: a name made from the id for every auctioned item
    without one. *)
Fixpoint nameMissing (auctionItemIds : list string) (idsToNames : gmap string string)
    : Outcome (gmap string string) :=
  match auctionItemIds with
  | [] => Returned idsToNames
  | item :: rest =>
      match idsToNames !! item with
      | Some _ => nameMissing rest idsToNames
      | None =>
          match fallbackName item with
          | Some name => nameMissing rest (<[item := name]> idsToNames)
          | None => Threw
          end
      end
  end.

(** What becomes of a promise: it is fulfilled with a value, it is
    rejected, or it stays pending for ever -- as the promise of
    [fetchItemList] does once a request of it has failed. *)
Inductive Promise (A : Type) :=
| Fulfilled (a : A)
| Rejected
| Pending.
Arguments Fulfilled {A} a.
Arguments Rejected {A}.
Arguments Pending {A}.

(** [fetchAuctionItemsUncached], given what becomes of the two promises it
    awaits, that of [fetchItemsAuctionsIds()] and -- called only when there
    are ids -- that of [fetchItemList()], whose [list] is all that is read;
    [Fulfilled None] is [undefined]. *)
Definition fetchAuctionItemsUncached
    (fetchItemsAuctionsIds : Promise (option (list string)))
    (fetchItemList : Promise (list ItemListItem))
    : Promise (option (gmap string string)) :=
  match fetchItemsAuctionsIds with
  | Pending => Pending
  | Rejected => Rejected
  | Fulfilled None => Fulfilled None
  | Fulfilled (Some auctionItemIds) =>
      match fetchItemList with
      | Pending => Pending
      | Rejected => Rejected
      | Fulfilled itemList =>
          match nameMissing auctionItemIds (displayNames auctionItemIds itemList) with
          | Returned idsToNames => Fulfilled (Some idsToNames)
          | Threw => Rejected
          end
      end
  end.

(** The display name of the last item of the list with the given id. *)
Definition listedName (itemId : string) (itemList : list ItemListItem) : option string :=
  display_name <$> last (filter (fun item => item_id item = itemId) itemList).

End AuctionItems.

(* ===================================================================== *)
(** * Part II.  Properties                                                *)
(* ===================================================================== *)

(** ** Matchers of stat names *)

Module StatsFacts.
Import JsString Stats.

Lemma append_nil_l (s : string) : EmptyString +:+ s = s.
Proof. reflexivity. Qed.

Lemma append_cons (c : ascii) (a b : string) :
  String c a +:+ b = String c (a +:+ b).
Proof. reflexivity. Qed.

Lemma startsWith_spec (name m : string) :
  startsWith name m = true <-> exists rest, name = m +:+ rest.
Proof.
  revert name. induction m as [|c m IH]; intros name; simpl.
  - split; [intros _; by exists name | done].
  - destruct name as [|d name].
    + split; [done | intros [rest H]; discriminate].
    + rewrite andb_true_iff, IH, Ascii.eqb_eq. split.
      * intros [-> [rest ->]]. by exists rest.
      * intros [rest H]. rewrite append_cons in H. injection H as -> ->. eauto.
Qed.

Lemma substring_all (s : string) : substring 0 (String.length s) s = s.
Proof. induction s; simpl; congruence. Qed.

Lemma substring_skip (pre s : string) (n : nat) :
  substring (String.length pre) n (pre +:+ s) = substring 0 n s.
Proof.
  induction pre; [done |].
  rewrite append_cons. simpl. by rewrite IHpre.
Qed.

Lemma substring_split (k : nat) (s : string) :
  (k <= String.length s)%nat ->
  s = substring 0 k s +:+ substring k (String.length s - k) s.
Proof.
  revert k. induction s as [|c s IH]; intros [|k] Hk; simpl in *; try lia; try done.
  - by rewrite substring_all.
  - rewrite append_cons. f_equal. apply IH. lia.
Qed.

Lemma length_append (a b : string) :
  String.length (a +:+ b) = (String.length a + String.length b)%nat.
Proof.
  induction a; [done |]. rewrite append_cons. simpl. congruence.
Qed.

Lemma endsWith_spec (name m : string) :
  endsWith name m = true <-> exists pre, name = pre +:+ m.
Proof.
  unfold endsWith. rewrite andb_true_iff, Nat.leb_le, String.eqb_eq. split.
  - intros [Hle Hsub].
    exists (substring 0 (String.length name - String.length m) name).
    pose proof (substring_split (String.length name - String.length m) name) as H.
    replace (String.length name - (String.length name - String.length m))%nat
      with (String.length m) in H by lia.
    rewrite Hsub in H. apply H. lia.
  - intros [pre ->]. rewrite length_append. split; [lia |].
    replace (String.length pre + String.length m - String.length m)%nat
      with (String.length pre) by lia.
    rewrite substring_skip. apply substring_all.
Qed.

Lemma firstCharIs_spec (c : ascii) (s : string) :
  firstCharIs c s = true <-> exists q, s = String c q.
Proof.
  destruct s as [|d s]; simpl.
  - split; [done | intros [q H]; discriminate].
  - rewrite Ascii.eqb_eq. split; [intros ->; eauto | intros [q H]; congruence].
Qed.

Lemma lastCharIs_spec (c : ascii) (s : string) :
  lastCharIs c s = true <-> exists p, s = p +:+ String c EmptyString.
Proof.
  induction s as [|d s IH].
  - simpl. split; [done | intros [[|? ?] H]; discriminate].
  - destruct s as [|e s].
    + simpl. rewrite Ascii.eqb_eq. split.
      * intros ->. by exists EmptyString.
      * intros [[|x [|y p]] H]; repeat rewrite ?append_cons, ?append_nil_l in H;
          congruence.
    + change (lastCharIs c (String d (String e s))) with (lastCharIs c (String e s)).
      rewrite IH. split.
      * intros [p ->]. by exists (String d p).
      * intros [[|x p] H]; [rewrite append_nil_l in H; discriminate |].
        rewrite append_cons in H. injection H as _ ->. eauto.
Qed.

Lemma existsb_matcher (matchers : list string) (name : string) :
  existsb (fun m => matcherMatches m name) matchers = true <->
  exists m, m ∈ matchers /\ matcherMatches m name = true.
Proof.
  rewrite existsb_exists. split; intros [m [Hin Hm]]; exists m; split; try done;
    by apply list_elem_of_In.
Qed.

Lemma categorizeWith_matches (statCategory : string) (matchers : list string)
    (statNameRaw : string) :
  is_Some (categorizeWith statCategory matchers statNameRaw) <->
  exists m, m ∈ matchers /\ matcherMatches m statNameRaw = true.
Proof.
  induction matchers as [|m ms IH]; simpl.
  - split; [intros [? ?]; done | intros [m [Hin _]]; by apply elem_of_nil in Hin].
  - unfold matcherMatches at 1.
    destruct (trailingStart m && startsWith statNameRaw m) eqn:E1.
    { split; [intros _; exists m; split; [left | unfold matcherMatches; by rewrite E1] | eauto]. }
    destruct (trailingEnd m && endsWith statNameRaw m) eqn:E2.
    { split; [intros _; exists m; split; [left | unfold matcherMatches; by rewrite E1, E2] | eauto]. }
    destruct (String.eqb statNameRaw m) eqn:E3.
    { split; [intros _; exists m; split; [left | unfold matcherMatches; by rewrite E1, E2, E3] | eauto]. }
    rewrite IH. split.
    + intros [m' [Hin Hm]]. exists m'. split; [by right | done].
    + intros [m' [Hin Hm]]. apply elem_of_cons in Hin as [-> | Hin].
      * unfold matcherMatches in Hm. by rewrite E1, E2, E3 in Hm.
      * eauto.
Qed.

Lemma unitIn_matches (table : list (string * list string)) (name unitName : string) :
  unitIn table name = Some unitName ->
  exists matchers m,
    (unitName, matchers) ∈ table /\ m ∈ matchers /\ matcherMatches m name = true.
Proof.
  induction table as [|[u ms] table IH]; simpl; [done |].
  destruct (existsb _ ms) eqn:E.
  - intros [= <-]. apply existsb_matcher in E as [m [Hin Hm]].
    exists ms, m. split; [left | done].
  - intros H. destruct (IH H) as (ms' & m & Hin & Hm). exists ms', m.
    split; [by right | done].
Qed.

(** C7 (as amended).  The test shared by [categorizeStat], [getStatUnit] and
    [isLeaderboardReversed] accepts a name for a matcher in exactly three
    ways: the matcher ENDS in an underscore and the name starts with the
    matcher; the matcher BEGINS with an underscore and the name ends with
    the matcher; or the name is the matcher.  The three functions match a
    name through this test and nothing else. *)
Theorem matcher_semantics (matcher name : string) :
  (matcherMatches matcher name = true <->
     ((exists p, matcher = p +:+ "_") /\ (exists rest, name = matcher +:+ rest))
     \/ ((exists q, matcher = "_" +:+ q) /\ (exists pre, name = pre +:+ matcher))
     \/ name = matcher)
  /\ (Database.isLeaderboardReversed name = true <->
        exists m, m ∈ Database.reversedLeaderboards /\ matcherMatches m name = true)
  /\ (forall unitName, getStatUnit name = Some unitName ->
        exists matchers m, (unitName, matchers) ∈ statUnits /\ m ∈ matchers
                           /\ matcherMatches m name = true)
  /\ (forall statCategory matchers,
        is_Some (categorizeWith statCategory matchers name) <->
        exists m, m ∈ matchers /\ matcherMatches m name = true).
Proof.
  split; [| split; [| split]].
  - unfold matcherMatches, trailingStart, trailingEnd.
    rewrite !orb_true_iff, !andb_true_iff, lastCharIs_spec, firstCharIs_spec,
      startsWith_spec, endsWith_spec, String.eqb_eq.
    tauto.
  - apply existsb_matcher.
  - intros unitName. apply unitIn_matches.
  - intros. apply categorizeWith_matches.
Qed.

(** C7 as the specification words it fails: ["_best_time"] begins with an
    underscore, yet it matches a name that does not start with it and
    rejects a name that does; ["deaths_"] ends in an underscore, yet it
    matches a name that does not end with it. *)
Lemma matcher_leading_underscore_is_not_prefix_match :
  trailingEnd "_best_time" = true
  /\ matcherMatches "_best_time" "dungeon_best_time" = true
  /\ ~ (exists rest, "dungeon_best_time" = "_best_time" +:+ rest)
  /\ matcherMatches "_best_time" "_best_time_x" = false
  /\ (exists rest, "_best_time_x" = "_best_time" +:+ rest)
  /\ trailingStart "deaths_" = true
  /\ matcherMatches "deaths_" "deaths_void" = true
  /\ ~ (exists pre, "deaths_void" = pre +:+ "deaths_").
Proof.
  repeat split; try reflexivity.
  - intros H. apply startsWith_spec in H. discriminate.
  - by exists "_x".
  - intros H. apply endsWith_spec in H. discriminate.
Qed.

Lemma matcher_semantics_sample :
  exists matchers m,
    ("coins", matchers) ∈ statUnits /\ m ∈ matchers /\ matcherMatches m "purse" = true.
Proof.
  apply (proj1 (proj2 (proj2 (matcher_semantics "purse" "purse")))). reflexivity.
Defined.

Example categorizeStat_deaths_void :
  categorizeStat "deaths_void" = mkStatCategory (Some "deaths") (Some "void").
Proof. reflexivity. Qed.

Example categorizeStat_collection_wheat :
  categorizeStat "collection_wheat" = mkStatCategory (Some "collection") (Some "wheat").
Proof. reflexivity. Qed.

Example categorizeStat_unknown :
  categorizeStat "totally_unknown_stat"
  = mkStatCategory (Some "misc") (Some "totally_unknown_stat").
Proof. reflexivity. Qed.

Example categorizeStat_race :
  categorizeStat "dungeon_hub_crystal_core_anything_no_return_best_time"
  = mkStatCategory (Some "races") (Some "dungeon_hub_crystal_core_anything_no_return").
Proof. reflexivity. Qed.

Example isLeaderboardReversed_first_join :
  Database.isLeaderboardReversed "first_join" = true
  /\ Database.isLeaderboardReversed "kills_zombie" = false.
Proof. split; reflexivity. Qed.

End StatsFacts.

(** ** The stable sort *)

Module ArrayFacts.
Import JsArray.

Section Stable.
Context {A : Type} (cmp : A -> A -> Z) (key : A -> Z) (ok : A -> Prop).
Hypothesis cmp_key : forall a b, ok a -> ok b -> (cmp a b <= 0 <-> key a <= key b).

Lemma insertBy_perm (x : A) (l : list A) : insertBy cmp x l ≡ₚ x :: l.
Proof.
  induction l as [|y l IH]; simpl; [done |].
  destruct (cmp x y <=? 0); [done |].
  rewrite IH. apply Permutation_swap.
Qed.

Lemma sortBy_perm (l : list A) : sortBy cmp l ≡ₚ l.
Proof.
  induction l as [|x l IH]; simpl; [done |].
  unfold sortBy in *. simpl. by rewrite insertBy_perm, IH.
Qed.

Lemma sortBy_length (l : list A) : length (sortBy cmp l) = length l.
Proof. by rewrite sortBy_perm. Qed.

Lemma sortBy_Forall (P : A -> Prop) (l : list A) :
  Forall P l -> Forall P (sortBy cmp l).
Proof. by rewrite sortBy_perm. Qed.

Lemma insertBy_inOrder (x : A) (l : list A) :
  ok x -> Forall ok l -> StronglySorted (fun a b => key a <= key b) l -> StronglySorted (fun a b => key a <= key b) (insertBy cmp x l).
Proof.
  intros Hx. induction l as [|y l IH]; intros Hok Hs; simpl.
  - repeat constructor.
  - apply Forall_cons in Hok as [Hy Hok].
    apply StronglySorted_cons in Hs as [Hyl Hs].
    destruct (Z.leb_spec (cmp x y) 0) as [Hle | Hgt].
    + apply StronglySorted_cons. split; [| by apply StronglySorted_cons].
      apply cmp_key in Hle; [| done..].
      constructor; [done |]. eapply Forall_impl; [exact Hyl |].
      simpl. intros; lia.
    + apply StronglySorted_cons. split; [| by apply IH].
      rewrite insertBy_perm. constructor; [| done].
      destruct (Z.le_gt_cases (key y) (key x)) as [? | Hlt]; [done |].
      exfalso. assert (cmp x y <= 0) by (apply cmp_key; [done.. | lia]). lia.
Qed.

Lemma sortBy_inOrder (l : list A) :
  Forall ok l -> StronglySorted (fun a b => key a <= key b) (sortBy cmp l).
Proof.
  induction l as [|x l IH]; intros Hok.
  - constructor.
  - apply Forall_cons in Hok as [Hx Hok]. unfold sortBy in *. simpl.
    apply insertBy_inOrder; [done | | by apply IH].
    by apply (sortBy_Forall ok).
Qed.

Lemma insertBy_head (x : A) (l : list A) :
  ok x -> Forall ok l -> Forall (fun y => key x <= key y) l ->
  insertBy cmp x l = x :: l.
Proof.
  destruct l as [|y l]; simpl; [done |].
  intros Hx Hok Hle. apply Forall_cons in Hok as [Hy _].
  apply Forall_cons in Hle as [Hxy _].
  destruct (Z.leb_spec (cmp x y) 0) as [? | Hgt]; [done |].
  exfalso. assert (cmp x y <= 0) by by apply cmp_key. lia.
Qed.

Lemma placeLast_perm (e : A) (l : list A) : placeLast cmp e l ≡ₚ e :: l.
Proof.
  induction l as [|y l IH]; simpl; [done |].
  destruct (cmp y e <=? 0); [| done].
  rewrite IH. apply Permutation_swap.
Qed.

(** A stable sort of an ordered array with one element appended. *)
Lemma sortBy_snoc (e : A) (l : list A) :
  ok e -> Forall ok l -> StronglySorted (fun a b => key a <= key b) l ->
  sortBy cmp (l ++ [e]) = placeLast cmp e l.
Proof.
  intros He. induction l as [|y l IH]; intros Hok Hs; [done |].
  apply Forall_cons in Hok as [Hy Hok].
  apply StronglySorted_cons in Hs as [Hyl Hs].
  change (sortBy cmp ((y :: l) ++ [e])) with (insertBy cmp y (sortBy cmp (l ++ [e]))).
  rewrite IH by done. simpl.
  destruct (Z.leb_spec (cmp y e) 0) as [Hle | Hgt].
  - apply insertBy_head; [done | |].
    + rewrite placeLast_perm. by constructor.
    + rewrite placeLast_perm. constructor; [by apply cmp_key | done].
  - assert (key e < key y) as Hlt.
    { destruct (Z.lt_ge_cases (key e) (key y)) as [? | Hge]; [done |].
      exfalso. assert (cmp y e <= 0) by (apply cmp_key; [done.. | lia]). lia. }
    assert (placeLast cmp e l = e :: l) as ->.
    { destruct l as [|z l]; simpl; [done |].
      apply Forall_cons in Hok as [Hz _]. apply Forall_cons in Hyl as [Hyz _].
      destruct (Z.leb_spec (cmp z e) 0) as [Hle | ?]; [| done].
      exfalso. apply cmp_key in Hle; [| done..]. lia. }
    simpl. destruct (Z.leb_spec (cmp y e) 0) as [? | _]; [lia |].
    f_equal. by apply insertBy_head.
Qed.

End Stable.

Lemma StronglySorted_take {A} (R : A -> A -> Prop) (n : nat) (l : list A) :
  StronglySorted R l -> StronglySorted R (take n l).
Proof.
  intros Hs. rewrite <- (take_drop n l) in Hs. by apply StronglySorted_app_1_l in Hs.
Qed.

Lemma Forall_filter_keep {A} (Q P : A -> Prop) `{!forall x, Decision (P x)}
    (l : list A) :
  Forall Q l -> Forall Q (filter P l).
Proof.
  rewrite !Forall_forall. intros HQ x Hx. apply list_elem_of_filter in Hx as [_ Hx]. by apply HQ.
Qed.

Lemma StronglySorted_filter {A} (R : A -> A -> Prop) (P : A -> Prop)
    `{!forall x, Decision (P x)} (l : list A) :
  StronglySorted R l -> StronglySorted R (filter P l).
Proof.
  induction 1 as [|x l Hs IH Hx]; [constructor |].
  rewrite filter_cons. destruct (decide (P x)); [| done].
  constructor; [done |]. by apply Forall_filter_keep.
Qed.

Lemma length_filter_take {A} (P : A -> Prop) `{!forall x, Decision (P x)}
    (n : nat) (l : list A) :
  (length (filter P (take n l)) <= length (filter P l))%nat.
Proof.
  rewrite <- (take_drop n l) at 2. rewrite filter_app, length_app. lia.
Qed.

End ArrayFacts.

(** ** Served leaderboards *)

Module DatabaseFacts.
Import JsArray Database ArrayFacts.

(** ** The monad *)

Lemma hoare_ret {A} (P : State -> Prop) (Q : A -> State -> Prop) E (a : A) :
  (forall s, P s -> Q a s) -> hoare P (ret a) Q E.
Proof. intros H s Hs. by apply H. Qed.

Lemma hoare_bind {A B} (P : State -> Prop) (c : M A) (R : A -> State -> Prop)
    (k : A -> M B) (Q : B -> State -> Prop) (E : State -> Prop) :
  hoare P c R E -> (forall a, hoare (R a) (k a) Q E) -> hoare P (bind c k) Q E.
Proof.
  intros Hc Hk s Hs. unfold bind. specialize (Hc s Hs).
  destruct (c s) as [[a|] s']; [by apply Hk | done].
Qed.

Lemma hoare_weaken {A} (P P' : State -> Prop) (c : M A) (Q Q' : A -> State -> Prop)
    (E E' : State -> Prop) :
  hoare P' c Q' E' ->
  (forall s, P s -> P' s) -> (forall a s, Q' a s -> Q a s) -> (forall s, E' s -> E s) ->
  hoare P c Q E.
Proof.
  intros Hc HP HQ HE s Hs. specialize (Hc s (HP s Hs)).
  destruct (c s) as [[a|] s']; auto.
Qed.

Lemma hoare_forEach {A} (I : State -> Prop) (l : list A) (body : A -> M unit) :
  (forall x, x ∈ l -> hoare I (body x) (fun _ => I) I) ->
  hoare I (forEach l body) (fun _ => I) I.
Proof.
  induction l as [|x l IH]; intros Hbody; simpl.
  - by apply hoare_ret.
  - eapply hoare_bind; [apply Hbody; left |].
    intros ?. apply IH. intros y Hy. apply Hbody. by right.
Qed.

(** ** Order of a served leaderboard *)

Lemma compareItems_rank (name : string) (a b : DatabaseLeaderboardItem) :
  hasStatistic name a -> hasStatistic name b ->
  compareItems (isLeaderboardReversed name) name a b <= 0
  <-> rankOf name a <= rankOf name b.
Proof.
  intros [x Hx] [y Hy]. unfold compareItems, rankOf. rewrite Hx, Hy.
  destruct (isLeaderboardReversed name); lia.
Qed.

Lemma ranksBefore_rank (name : string) (a b : DatabaseLeaderboardItem) :
  hasStatistic name a -> hasStatistic name b ->
  ranksBefore name a b <-> rankOf name a <= rankOf name b.
Proof.
  intros [x Hx] [y Hy]. unfold ranksBefore, rankOf. rewrite Hx, Hy.
  destruct (isLeaderboardReversed name); lia.
Qed.

Lemma servedInOrder_rank (name : string) (l : list DatabaseLeaderboardItem) :
  servedInOrder name l <->
  Forall (hasStatistic name) l
  /\ StronglySorted (fun a b => rankOf name a <= rankOf name b) l.
Proof.
  unfold servedInOrder. split; intros [Hall Hs]; (split; [done |]).
  - induction Hs as [|a l Hs IH Ha]; [constructor |].
    apply Forall_cons in Hall as [Hha Hall]. constructor; [by apply IH |].
    rewrite Forall_forall in *. intros b Hb.
    apply ranksBefore_rank; auto.
  - induction Hs as [|a l Hs IH Ha]; [constructor |].
    apply Forall_cons in Hall as [Hha Hall]. constructor; [by apply IH |].
    rewrite Forall_forall in *. intros b Hb.
    apply ranksBefore_rank; auto.
Qed.

Lemma sortBy_served (name : string) (l : list DatabaseLeaderboardItem) :
  Forall (hasStatistic name) l ->
  servedInOrder name (sortBy (compareItems (isLeaderboardReversed name) name) l).
Proof.
  intros Hall. apply servedInOrder_rank. split.
  - by apply sortBy_Forall.
  - apply (sortBy_inOrder _ _ (hasStatistic name)); [| done].
    intros. by apply compareItems_rank.
Qed.

Lemma servedInOrder_take (name : string) (n : nat) (l : list DatabaseLeaderboardItem) :
  servedInOrder name l -> servedInOrder name (take n l).
Proof.
  intros [Hall Hs]. split; [by apply Forall_take | by apply StronglySorted_take].
Qed.

Lemma findSortLimit_served (coll : list DatabaseLeaderboardItem) (name : string) :
  (length (findSortLimit coll name) <= 100)%nat
  /\ servedInOrder name (findSortLimit coll name).
Proof.
  unfold findSortLimit, leaderboardMax. split.
  - rewrite length_take. lia.
  - apply servedInOrder_take, sortBy_served.
    apply Forall_forall. intros d Hd. by apply list_elem_of_filter in Hd as [? _].
Qed.

Lemma patchRawLeaderboard_served (name u : string) (attrs : gmap string Z) (now : Z)
    (existing : list DatabaseLeaderboardItem) :
  is_Some (attrs !! name) ->
  Forall (hasStatistic name) existing ->
  (length (patchRawLeaderboard name u attrs now existing) <= 100)%nat
  /\ servedInOrder name (patchRawLeaderboard name u attrs now existing).
Proof.
  intros Hattr Hall. unfold patchRawLeaderboard, sliceHead. split.
  - rewrite length_take. lia.
  - apply servedInOrder_take, sortBy_served.
    apply Forall_app. split; [by apply Forall_filter_keep |].
    by repeat constructor.
Qed.

(** ** The cached leaderboards stay well formed *)

Lemma externalCall_frame (s : State) :
  client (externalCall s).2 = client s
  /\ recentlyUpdated (externalCall s).2 = recentlyUpdated s
  /\ memberLeaderboardsCollection (externalCall s).2 = memberLeaderboardsCollection s
  /\ cachedRawLeaderboards (externalCall s).2 = cachedRawLeaderboards s.
Proof. unfold externalCall. by destruct (ioBudget s) as [[|k]|]. Qed.

Lemma hoare_externalCall (I : State -> Prop) :
  (forall s s', cachedRawLeaderboards s' = cachedRawLeaderboards s -> I s -> I s') ->
  hoare I externalCall (fun _ => I) I.
Proof.
  intros HI s Hs. pose proof (externalCall_frame s) as (_ & _ & _ & Hc).
  destruct (externalCall s) as [[[]|] s']; simpl in *; eauto.
Qed.

Lemma mirrorWellFormed_frame (s s' : State) :
  cachedRawLeaderboards s' = cachedRawLeaderboards s ->
  mirrorWellFormed s -> mirrorWellFormed s'.
Proof. unfold mirrorWellFormed. intros ->. done. Qed.

Lemma mirrorWellFormed_insert (s : State) (name : string)
    (l : list DatabaseLeaderboardItem) :
  mirrorWellFormed s ->
  (length l <= 100)%nat -> servedInOrder name l ->
  mirrorWellFormed (setCachedRawLeaderboard name l s).2.
Proof.
  intros Hwf Hlen Hord name' l'. simpl.
  rewrite lookup_insert. case_decide as Heq.
  - subst. by intros [= <-].
  - apply Hwf.
Qed.

Lemma fetchMemberLeaderboardRaw_hoare (name : string) :
  hoare mirrorWellFormed (fetchMemberLeaderboardRaw name)
    (fun l s' =>
       mirrorWellFormed s' /\ cachedRawLeaderboards s' !! name = Some l
       /\ (length l <= 100)%nat /\ servedInOrder name l)
    mirrorWellFormed.
Proof.
  intros s Hwf. unfold fetchMemberLeaderboardRaw.
  destruct (cachedRawLeaderboards s !! name) as [l|] eqn:Hl.
  - destruct (Hwf name l Hl). done.
  - unfold bind. pose proof (externalCall_frame s) as (_ & _ & _ & Hc).
    destruct (externalCall s) as [[[]|] s1]; simpl in *.
    + assert (mirrorWellFormed s1) as Hwf1 by by eapply mirrorWellFormed_frame.
      destruct (findSortLimit_served (memberLeaderboardsCollection s1) name).
      split; [| split; [by rewrite lookup_insert_eq | done]].
      by apply (mirrorWellFormed_insert s1).
    + by eapply mirrorWellFormed_frame.
Qed.

Lemma getMemberLeaderboardRequirement_hoare (name : string) :
  hoare mirrorWellFormed (getMemberLeaderboardRequirement name)
    (fun _ => mirrorWellFormed) mirrorWellFormed.
Proof.
  eapply hoare_bind; [apply fetchMemberLeaderboardRaw_hoare |].
  intros l. apply hoare_ret. tauto.
Qed.

Lemma applicableLoop_hoare (entries : list (string * Z)) (acc : gmap string Z) :
  hoare mirrorWellFormed (applicableLoop entries acc)
    (fun _ => mirrorWellFormed) mirrorWellFormed.
Proof.
  revert acc. induction entries as [|[n v] entries IH]; intros acc; simpl.
  - by apply hoare_ret.
  - eapply hoare_bind; [apply getMemberLeaderboardRequirement_hoare |].
    intros req. apply IH.
Qed.

Lemma updateOne_hoare (u p : string) (st : gmap string Z) (now : Z) :
  hoare mirrorWellFormed (updateOne u p st now)
    (fun _ => mirrorWellFormed) mirrorWellFormed.
Proof.
  eapply hoare_bind; [apply hoare_externalCall, mirrorWellFormed_frame |].
  intros ? s Hs. by eapply mirrorWellFormed_frame.
Qed.

Lemma commitMember_hoare (u p : string) (attrs : gmap string Z) (upsertedAt : Z)
    (patchedAt : string -> Z) :
  hoare mirrorWellFormed (commitMember u p attrs upsertedAt patchedAt)
    (fun _ => mirrorWellFormed) mirrorWellFormed.
Proof.
  eapply hoare_bind; [apply updateOne_hoare |].
  intros ?. apply hoare_forEach. intros [n v] Hin.
  apply elem_of_map_to_list in Hin. simpl.
  eapply hoare_bind; [apply fetchMemberLeaderboardRaw_hoare |].
  intros l s (Hwf & _ & _ & [Hall _]).
  destruct (patchRawLeaderboard_served n u attrs (patchedAt n) l); [by eexists | done |].
  by apply (mirrorWellFormed_insert s).
Qed.

Lemma updateDatabaseMember_hoare (member : CleanMember) (profile : CleanFullProfile)
    (now : Z) :
  hoare mirrorWellFormed (updateDatabaseMember member profile now)
    (fun _ => mirrorWellFormed) mirrorWellFormed.
Proof.
  intros s Hwf. unfold updateDatabaseMember.
  destruct (negb (client s)); [done |].
  destruct (recentlyUpdatedGet _ now s); [done |].
  match goal with
  | |- context [ bind ?c ?k s ] =>
      cut (hoare mirrorWellFormed (bind c k) (fun _ => mirrorWellFormed)
             mirrorWellFormed); [intros Hbody; exact (Hbody s Hwf) |]
  end.
  clear s Hwf.
  eapply hoare_bind with (R := fun _ => mirrorWellFormed).
  { intros s Hs. by eapply mirrorWellFormed_frame. }
  intros ?.
  do 4 (eapply hoare_bind;
        [apply hoare_externalCall, mirrorWellFormed_frame | intros ?]).
  eapply hoare_bind; [apply applicableLoop_hoare |].
  intros attrs. apply commitMember_hoare.
Qed.

Lemma hoare_state {A} (P : State -> Prop) (c : M A) (I : State -> Prop) (s : State) :
  hoare P c (fun _ => I) I -> P s -> I (c s).2.
Proof. intros H Hs. specialize (H s Hs). by destruct (c s) as [[a|] s']. Qed.

Lemma reachable_mirrorWellFormed (s : State) : reachable s -> mirrorWellFormed s.
Proof.
  induction 1 as [s Hempty | s s' _ IH Hstep].
  - intros name l. by rewrite Hempty, lookup_empty.
  - destruct Hstep as [name s | member profile now s | name coll s
                      | name u attrs now existing s Hattr Hall | s s' Hsame].
    + eapply hoare_state; [| exact IH].
      eapply hoare_weaken;
        [apply fetchMemberLeaderboardRaw_hoare | done | by intros ? ? [? _] | done].
    + eapply hoare_state; [apply updateDatabaseMember_hoare | exact IH].
    + destruct (findSortLimit_served coll name).
      by apply mirrorWellFormed_insert.
    + destruct (patchRawLeaderboard_served name u attrs now existing Hattr Hall).
      by apply mirrorWellFormed_insert.
    + by eapply mirrorWellFormed_frame.
Qed.

(** C8.  In every state the module can reach, whatever leaderboard a fetch
    serves -- read from the cache, where [updateDatabaseMember] may have
    patched it, at once or after a suspension, or queried from the store --
    has at most 100 entries, each carrying the statistic, in the ranking
    order of the leaderboard: descending values, ascending on a reversed
    leaderboard. *)
Theorem served_leaderboard_bounded_and_ordered (s s' : State) (name : string)
    (l : list DatabaseLeaderboardItem) :
  reachable s ->
  fetchMemberLeaderboardRaw name s = (Returned l, s') ->
  (length l <= 100)%nat
  /\ Forall (hasStatistic name) l
  /\ StronglySorted (ranksBefore name) l
  /\ reachable s'.
Proof.
  intros Hreach Hfetch.
  pose proof (fetchMemberLeaderboardRaw_hoare name s
                (reachable_mirrorWellFormed s Hreach)) as H.
  rewrite Hfetch in H. destruct H as (_ & _ & Hlen & Hall & Hs).
  repeat split; try done.
  replace s' with (fetchMemberLeaderboardRaw name s).2 by by rewrite Hfetch.
  eapply reachable_step; [done | apply step_fetch].
Qed.

End DatabaseFacts.

(** ** Commits *)

Module CommitFacts.
Import JsArray Database ArrayFacts DatabaseFacts.

(** ** The upsert *)

Lemma upsertMember_twice (coll : list DatabaseLeaderboardItem) (u p : string)
    (st : gmap string Z) (t1 t2 : Z) :
  upsertMember (upsertMember coll u p st t1) u p st t2 = upsertMember coll u p st t2.
Proof.
  induction coll as [|d coll IH]; simpl.
  - by rewrite bool_decide_eq_true_2.
  - destruct (bool_decide (uuid d = u /\ profile d = Some p)) eqn:E; simpl.
    + by rewrite E.
    + by rewrite E, IH.
Qed.

Lemma upsertMember_untimed (coll : list DatabaseLeaderboardItem) (u p : string)
    (st : gmap string Z) (t1 t2 : Z) :
  untimed <$> upsertMember coll u p st t1 = untimed <$> upsertMember coll u p st t2.
Proof.
  induction coll as [|d coll IH]; [done |].
  cbn [upsertMember].
  destruct (bool_decide (uuid d = u /\ profile d = Some p)); rewrite !fmap_cons;
    [done | by rewrite IH].
Qed.

(** The upsert finds or makes one document, the first of the member and
    profile; another instant changes that document only. *)
Lemma upsertMember_restamp (coll : list DatabaseLeaderboardItem) (u p : string)
    (st : gmap string Z) (t : Z) :
  exists i,
    upsertMember coll u p st t !! i = Some (mkItem u (Some p) st t)
    /\ (forall j d, (j < i)%nat -> upsertMember coll u p st t !! j = Some d ->
          ~ (uuid d = u /\ profile d = Some p))
    /\ forall t', upsertMember coll u p st t'
                  = <[i := mkItem u (Some p) st t']> (upsertMember coll u p st t).
Proof.
  induction coll as [|d coll (i & Hi & Hfirst & Hrest)]; cbn [upsertMember].
  - exists 0%nat. split; [done |]. split; [intros j d Hj; lia | done].
  - case_bool_decide as Hd.
    + destruct Hd as [-> ->]. exists 0%nat.
      split; [done |]. split; [intros j d' Hj; lia | done].
    + exists (S i). split; [done |]. split.
      * intros [|j] d' Hj; simpl; [by intros [= <-] |]. apply Hfirst. lia.
      * intros t'. simpl. by rewrite <- Hrest.
Qed.

(** ** One cached leaderboard patched twice *)

Section Patch.
Context {A : Type} (cmp : A -> A -> Z) (P : A -> Prop) `{!forall x, Decision (P x)}.

Lemma filter_take_all (n : nat) (l : list A) :
  Forall P l -> filter P (take n l) = take n l.
Proof.
  intros Hall. apply Forall_take with (n := n) in Hall.
  induction Hall as [|x k Hx _ IH]; [done |].
  by rewrite filter_cons_True, IH.
Qed.

(** [e1] and [e2] are both dropped by the filter and compare alike. *)
Lemma take_placeLast_twice (e1 e2 : A) (n : nat) (l : list A) :
  ~ P e1 -> (forall y, cmp y e1 = cmp y e2) -> Forall P l ->
  take n (placeLast cmp e2 (filter P (take n (placeLast cmp e1 l))))
  = take n (placeLast cmp e2 l).
Proof.
  intros He1 Hcmp. revert n. induction l as [|y l IH]; intros n Hall.
  - destruct n as [|n]; simpl; [done |].
    rewrite take_nil, filter_cons_False by done.
    rewrite filter_nil. simpl. by rewrite take_nil.
  - apply Forall_cons in Hall as [Hy Hall]. simpl. rewrite <- Hcmp.
    destruct (cmp y e1 <=? 0) eqn:E.
    + destruct n as [|n]; simpl; [done |].
      rewrite filter_cons_True by done. simpl. rewrite <- Hcmp, E. simpl.
      by rewrite IH.
    + destruct n as [|n]; simpl; [done |].
      rewrite filter_cons_False by done.
      destruct n as [|n]; simpl.
      * done.
      * rewrite filter_cons_True by done.
        rewrite filter_take_all by done. simpl. rewrite <- Hcmp, E. simpl.
        by rewrite take_take, Nat.min_id.
Qed.

Lemma sortBy_fmap (f : A -> A) (l : list A) :
  (forall a b, cmp (f a) (f b) = cmp a b) ->
  sortBy cmp (f <$> l) = f <$> sortBy cmp l.
Proof.
  intros Hf. induction l as [|x l IH]; [done |].
  change (sortBy cmp (f <$> x :: l)) with (insertBy cmp (f x) (sortBy cmp (f <$> l))).
  change (sortBy cmp (x :: l)) with (insertBy cmp x (sortBy cmp l)).
  rewrite IH. generalize (sortBy cmp l). intros k.
  induction k as [|y k IHk]; [done |].
  rewrite fmap_cons. cbn [insertBy]. rewrite Hf.
  destruct (cmp x y <=? 0); rewrite !fmap_cons; [done | by rewrite IHk].
Qed.

End Patch.

Lemma compareItems_stats (rev : bool) (name : string)
    (a a' b b' : DatabaseLeaderboardItem) :
  stats a = stats a' -> stats b = stats b' ->
  compareItems rev name a b = compareItems rev name a' b'.
Proof. unfold compareItems. by intros -> ->. Qed.

Lemma patchRawLeaderboard_placeLast (name u : string) (attrs : gmap string Z)
    (now : Z) (l : list DatabaseLeaderboardItem) :
  is_Some (attrs !! name) -> servedInOrder name l ->
  patchRawLeaderboard name u attrs now l
  = take 100 (placeLast (compareItems (isLeaderboardReversed name) name)
                (mkItem u None attrs now)
                (filter (fun value => uuid value <> u) l)).
Proof.
  intros Hattr Hl. apply servedInOrder_rank in Hl as [Hall Hs].
  unfold patchRawLeaderboard, sliceHead. f_equal.
  apply (sortBy_snoc _ (rankOf name) (hasStatistic name)).
  - intros. by apply compareItems_rank.
  - done.
  - by apply Forall_filter_keep.
  - by apply StronglySorted_filter.
Qed.

Lemma patchRawLeaderboard_twice (name u : string) (attrs : gmap string Z)
    (t1 t2 : Z) (l : list DatabaseLeaderboardItem) :
  is_Some (attrs !! name) -> servedInOrder name l ->
  patchRawLeaderboard name u attrs t2 (patchRawLeaderboard name u attrs t1 l)
  = patchRawLeaderboard name u attrs t2 l.
Proof.
  intros Hattr Hl.
  rewrite (patchRawLeaderboard_placeLast name u attrs t2
             (patchRawLeaderboard name u attrs t1 l)); [| done |].
  - rewrite !(patchRawLeaderboard_placeLast name u attrs _ l) by done.
    apply take_placeLast_twice.
    + simpl. by intros H.
    + intros y. by apply compareItems_stats.
    + apply Forall_forall. intros d Hd. by apply list_elem_of_filter in Hd as [? _].
  - apply patchRawLeaderboard_served; [done | apply Hl].
Qed.

Lemma patchRawLeaderboard_untimed (name u : string) (attrs : gmap string Z)
    (t1 t2 : Z) (l : list DatabaseLeaderboardItem) :
  untimed <$> patchRawLeaderboard name u attrs t1 l
  = untimed <$> patchRawLeaderboard name u attrs t2 l.
Proof.
  unfold patchRawLeaderboard, sliceHead. rewrite !fmap_take. f_equal.
  rewrite <- !(sortBy_fmap _ untimed) by (intros; by apply compareItems_stats).
  by rewrite !fmap_app.
Qed.

Lemma restamped_other (u : string) (t : Z) (l : list DatabaseLeaderboardItem) :
  Forall (fun e => uuid e <> u) l -> restamped u t <$> l = l.
Proof.
  induction 1 as [|e l He _ IH]; [done |].
  rewrite fmap_cons, IH. unfold restamped. by rewrite decide_False.
Qed.

(** The patch at another instant is the same list with the member's entry
    carrying that instant. *)
Lemma patchRawLeaderboard_restamped (name u : string) (attrs : gmap string Z)
    (t1 t2 : Z) (l : list DatabaseLeaderboardItem) :
  restamped u t2 <$> patchRawLeaderboard name u attrs t1 l
  = patchRawLeaderboard name u attrs t2 l.
Proof.
  unfold patchRawLeaderboard, sliceHead. rewrite fmap_take. f_equal.
  rewrite <- (sortBy_fmap _ (restamped u t2)).
  - rewrite fmap_app, restamped_other.
    + simpl. unfold restamped at 1. simpl. by rewrite decide_True.
    + apply Forall_forall. intros e He. by apply list_elem_of_filter in He as [? _].
  - intros a b. apply compareItems_stats; unfold restamped; by case_decide.
Qed.

Lemma patchRawLeaderboard_member_entry (name u : string) (attrs : gmap string Z)
    (now : Z) (l : list DatabaseLeaderboardItem) (e : DatabaseLeaderboardItem) :
  e ∈ patchRawLeaderboard name u attrs now l -> uuid e = u ->
  e = mkItem u None attrs now.
Proof.
  unfold patchRawLeaderboard, sliceHead.
  intros (i & He%list_elem_of_lookup_2 & _)%elem_of_take Hu. revert He.
  rewrite sortBy_perm. intros [He | He%list_elem_of_singleton]%elem_of_app; [| done].
  by apply list_elem_of_filter in He as [? _].
Qed.

Lemma patchRawLeaderboard_one_entry (name u : string) (attrs : gmap string Z)
    (now : Z) (l : list DatabaseLeaderboardItem) :
  (length (filter (fun d => uuid d = u) (patchRawLeaderboard name u attrs now l)) <= 1)%nat.
Proof.
  unfold patchRawLeaderboard, sliceHead.
  etransitivity; [apply length_filter_take |].
  rewrite sortBy_perm, filter_app, length_app.
  rewrite filter_cons_True, filter_nil by done. simpl.
  assert (filter (fun d => uuid d = u) (filter (fun value => uuid value <> u) l) = [])
    as ->; [| simpl; lia].
  induction l as [|d l IH]; [done |].
  rewrite (filter_cons (fun value => uuid value <> u)).
  destruct (decide (uuid d <> u)); [| done].
  by rewrite filter_cons_False.
Qed.

(** ** What a commit leaves behind *)

Lemma fetchMemberLeaderboardRaw_spec (name : string) (s s' : State)
    (o : Outcome (list DatabaseLeaderboardItem)) :
  fetchMemberLeaderboardRaw name s = (o, s') ->
  memberLeaderboardsCollection s' = memberLeaderboardsCollection s
  /\ client s' = client s
  /\ recentlyUpdated s' = recentlyUpdated s
  /\ match o with
     | Returned l =>
         l = servedView s name
         /\ cachedRawLeaderboards s' = <[name := l]> (cachedRawLeaderboards s)
     | Threw => cachedRawLeaderboards s' = cachedRawLeaderboards s
     end.
Proof.
  unfold fetchMemberLeaderboardRaw, servedView.
  destruct (cachedRawLeaderboards s !! name) as [l|] eqn:Hl.
  - intros [= <- <-]. repeat split; try done. by rewrite insert_id.
  - unfold bind. pose proof (externalCall_frame s) as (Hc & Hr & Hm & Hk).
    destruct (externalCall s) as [[[]|] s1]; simpl in *.
    + intros [= <- <-]. simpl. by rewrite Hm, Hk.
    + by intros [= <- <-].
Qed.

Lemma servedView_frame (s s' : State) (name : string) :
  memberLeaderboardsCollection s' = memberLeaderboardsCollection s ->
  cachedRawLeaderboards s' !! name = cachedRawLeaderboards s !! name ->
  servedView s' name = servedView s name.
Proof. unfold servedView. by intros -> ->. Qed.

Lemma commit_loop_spec (u : string) (attrs : gmap string Z) (patchedAt : string -> Z)
    (entries : list (string * Z)) (s s' : State) :
  NoDup entries.*1 ->
  forEach entries
    (fun entry =>
       let attributeName := entry.1 in
       let! existingRawLeaderboard := fetchMemberLeaderboardRaw attributeName in
       setCachedRawLeaderboard attributeName
         (patchRawLeaderboard attributeName u attrs (patchedAt attributeName)
            existingRawLeaderboard)) s
  = (Returned tt, s') ->
  memberLeaderboardsCollection s' = memberLeaderboardsCollection s
  /\ forall n,
       cachedRawLeaderboards s' !! n =
       if decide (n ∈ entries.*1)
       then Some (patchRawLeaderboard n u attrs (patchedAt n) (servedView s n))
       else cachedRawLeaderboards s !! n.
Proof.
  revert s. induction entries as [|[n0 v0] entries IH]; intros s Hnd.
  - intros [= <-]. split; [done |]. intros n.
    destruct (decide (n ∈ [].*1)) as [Hin | _]; [by apply elem_of_nil in Hin | done].
  - rewrite fmap_cons in Hnd. apply NoDup_cons in Hnd as [Hn0 Hnd].
    cbn [forEach]. unfold bind at 1. cbn [fst]. unfold bind at 1.
    destruct (fetchMemberLeaderboardRaw n0 s) as [[l|] s1] eqn:Hfetch; [| done].
    apply fetchMemberLeaderboardRaw_spec in Hfetch as (Hm1 & _ & _ & -> & Hk1).
    cbn [setCachedRawLeaderboard]. intros Hrest.
    apply IH in Hrest as [Hm Hk]; [| done]. simpl in Hm, Hk.
    split; [congruence |]. intros n. rewrite Hk, Hk1, fmap_cons. simpl.
    destruct (decide (n = n0)) as [-> | Hne].
    + rewrite decide_False by done. rewrite decide_True by left.
      by rewrite lookup_insert_eq.
    + destruct (decide (n ∈ entries.*1)) as [Hin | Hin].
      * rewrite decide_True by by right. do 2 f_equal.
        apply servedView_frame; simpl; [done |].
        by rewrite !lookup_insert_ne.
      * rewrite decide_False by (by intros [? | ?]%elem_of_cons).
        by rewrite !lookup_insert_ne.
Qed.

Lemma elem_of_map_to_list_keys (attrs : gmap string Z) (n : string) :
  n ∈ (map_to_list attrs).*1 <-> is_Some (attrs !! n).
Proof.
  rewrite list_elem_of_fmap. split.
  - intros [[k v] [-> Hin]]. apply elem_of_map_to_list in Hin. by exists v.
  - intros [v Hv]. exists (n, v). split; [done |]. by apply elem_of_map_to_list.
Qed.

Lemma commitMember_spec (u p : string) (attrs : gmap string Z) (upsertedAt : Z)
    (patchedAt : string -> Z) (s s' : State) :
  commitMember u p attrs upsertedAt patchedAt s = (Returned tt, s') ->
  memberLeaderboardsCollection s'
  = upsertMember (memberLeaderboardsCollection s) u p attrs upsertedAt
  /\ forall n,
       cachedRawLeaderboards s' !! n =
       if decide (is_Some (attrs !! n))
       then Some (patchRawLeaderboard n u attrs (patchedAt n)
                    (match cachedRawLeaderboards s !! n with
                     | Some l => l
                     | None => findSortLimit (memberLeaderboardsCollection s') n
                     end))
       else cachedRawLeaderboards s !! n.
Proof.
  unfold commitMember, updateOne. unfold bind at 1. unfold bind at 1.
  pose proof (externalCall_frame s) as (_ & _ & Hm & Hk).
  destruct (externalCall s) as [[[]|] s0]; [| done]. simpl in Hm, Hk.
  intros Hloop. apply commit_loop_spec in Hloop as [Hm' Hk'];
    [| apply NoDup_fst_map_to_list].
  simpl in Hm', Hk'. rewrite Hm in Hm'. split; [done |].
  intros n. rewrite Hk'. unfold servedView. simpl. rewrite Hk, Hm, Hm'.
  destruct (decide (n ∈ (map_to_list attrs).*1)) as [Hin | Hin];
    pose proof Hin as Hin'; rewrite elem_of_map_to_list_keys in Hin'.
  - by rewrite decide_True.
  - by rewrite decide_False.
Qed.

(** C9 (as amended).  Two commits of the same member and profile with the
    same attributes, from a reachable state, both returning.  After the
    second the collection is what it was after the first but for one
    document, the member's, whose [last_updated] has gone from the instant
    of the first upsert to that of the second; every cached leaderboard
    named by the attributes has the entries it had, those of other members
    as they were and the member's -- at most one, the entry the first
    commit pushed -- carrying the instant of the second patch; the other
    cached leaderboards are as they were; and nothing at all has changed
    when the second commit reads the instants the first one read. *)
Theorem commit_twice_restamps_member (s s1 s2 : State) (u p : string)
    (attrs : gmap string Z) (w1 w2 : Z) (q1 q2 : string -> Z) :
  reachable s ->
  commitMember u p attrs w1 q1 s = (Returned tt, s1) ->
  commitMember u p attrs w2 q2 s1 = (Returned tt, s2) ->
  (exists i,
     memberLeaderboardsCollection s1 !! i = Some (mkItem u (Some p) attrs w1)
     /\ (forall j d, (j < i)%nat -> memberLeaderboardsCollection s1 !! j = Some d ->
           ~ (uuid d = u /\ profile d = Some p))
     /\ memberLeaderboardsCollection s2
        = <[i := mkItem u (Some p) attrs w2]> (memberLeaderboardsCollection s1))
  /\ (forall n, is_Some (attrs !! n) ->
        exists l1,
          cachedRawLeaderboards s1 !! n = Some l1
          /\ cachedRawLeaderboards s2 !! n = Some (restamped u (q2 n) <$> l1)
          /\ (forall e, e ∈ l1 -> uuid e = u -> e = mkItem u None attrs (q1 n))
          /\ (length (filter (fun d => uuid d = u) l1) <= 1)%nat)
  /\ (forall n, attrs !! n = None ->
        cachedRawLeaderboards s2 !! n = cachedRawLeaderboards s1 !! n)
  /\ (w1 = w2 -> (forall n, q1 n = q2 n) ->
      memberLeaderboardsCollection s2 = memberLeaderboardsCollection s1
      /\ cachedRawLeaderboards s2 = cachedRawLeaderboards s1).
Proof.
  intros Hreach H1 H2.
  apply reachable_mirrorWellFormed in Hreach.
  apply commitMember_spec in H1 as [Hm1 Hk1].
  apply commitMember_spec in H2 as [Hm2 Hk2].
  rewrite Hm1, upsertMember_twice in Hm2.
  destruct (upsertMember_restamp (memberLeaderboardsCollection s) u p attrs w1)
    as (i & Hi & Hfirst & Hrest).
  assert (forall n, is_Some (attrs !! n) ->
            exists V, servedInOrder n V
              /\ cachedRawLeaderboards s1 !! n = Some (patchRawLeaderboard n u attrs (q1 n) V)
              /\ cachedRawLeaderboards s2 !! n = Some (patchRawLeaderboard n u attrs (q2 n) V))
    as Hpatched.
  { intros n Hn. specialize (Hk1 n). specialize (Hk2 n).
    rewrite decide_True in Hk1, Hk2 by done. rewrite Hk1 in Hk2.
    eexists. split; [| split; [exact Hk1 |]].
    - destruct (cachedRawLeaderboards s !! n) as [l|] eqn:Hl.
      + by apply (Hreach n l).
      + apply findSortLimit_served.
    - rewrite Hk2. f_equal. apply patchRawLeaderboard_twice; [done |].
      destruct (cachedRawLeaderboards s !! n) as [l|] eqn:Hl.
      + by apply (Hreach n l).
      + apply findSortLimit_served. }
  assert (forall n, attrs !! n = None ->
            cachedRawLeaderboards s2 !! n = cachedRawLeaderboards s1 !! n)
    as Hother.
  { intros n Hn. specialize (Hk2 n). rewrite decide_False in Hk2; [done |].
    rewrite Hn. by intros [? ?]. }
  split; [| split; [| split]].
  - exists i. rewrite Hm1. split; [done |]. split; [done |]. by rewrite Hm2.
  - intros n Hn. destruct (Hpatched n Hn) as (V & _ & HV1 & HV2).
    eexists. split; [exact HV1 |]. split; [| split].
    + by rewrite patchRawLeaderboard_restamped.
    + intros e. apply patchRawLeaderboard_member_entry.
    + apply patchRawLeaderboard_one_entry.
  - done.
  - intros <- Hq. split.
    + rewrite Hm2, Hm1, (Hrest w1). by rewrite (list_insert_id _ _ _ Hi).
    + apply map_eq. intros n. destruct (attrs !! n) as [v|] eqn:Hn.
      * destruct (Hpatched n) as (V & _ & -> & ->); [by eexists |]. by rewrite Hq.
      * by apply Hother.
Qed.

End CommitFacts.

(** ** Applicable attributes; the sample store *)

Module LeaderboardFacts.
Import JsArray Database ArrayFacts DatabaseFacts CommitFacts Samples MoreSamples.

(** ** Applicable attributes *)

Lemma isApplicable_unfilled (leaderboardReversed : bool) (v : Z) :
  isApplicable JsNull leaderboardReversed v = (v <? 0).
Proof. reflexivity. Qed.

Lemma isApplicable_zero (leaderboardReversed : bool) (v : Z) :
  isApplicable (JsNum 0) leaderboardReversed v = (v <? 0).
Proof. reflexivity. Qed.

Lemma isApplicable_filled (r : Z) (leaderboardReversed : bool) (v : Z) :
  r <> 0 ->
  isApplicable (JsNum r) leaderboardReversed v
  = if leaderboardReversed then v <? r else r <? v.
Proof.
  intros Hr. unfold isApplicable. simpl.
  destruct (Z.eqb_spec r 0); [done |]. by destruct leaderboardReversed.
Qed.

Lemma servedView_fetched (name : string) (s s' : State)
    (l : list DatabaseLeaderboardItem) :
  fetchMemberLeaderboardRaw name s = (Returned l, s') ->
  l = servedView s name /\ forall n, servedView s' n = servedView s n.
Proof.
  intros H. apply fetchMemberLeaderboardRaw_spec in H as (Hm & _ & _ & -> & Hk).
  split; [done |]. intros n. unfold servedView at 1. rewrite Hk, Hm.
  destruct (decide (n = name)) as [-> | Hne].
  - by rewrite lookup_insert_eq.
  - by rewrite lookup_insert_ne.
Qed.

Lemma applicableLoop_spec (entries : list (string * Z)) (acc r : gmap string Z)
    (s s' : State) :
  NoDup entries.*1 ->
  (forall n, n ∈ entries.*1 -> acc !! n = None) ->
  applicableLoop entries acc s = (Returned r, s') ->
  forall n v,
    r !! n = Some v <->
    ((n, v) ∈ entries
     /\ isApplicable (requirementOf n (servedView s n)) (isLeaderboardReversed n) v
        = true)
    \/ ((n ∉ entries.*1) /\ acc !! n = Some v).
Proof.
  revert acc s. induction entries as [|[n0 v0] entries IH]; intros acc s Hnd Hfresh.
  - intros [= <- <-] n v. split.
    + intros H. right. split; [apply not_elem_of_nil | done].
    + intros [[Hin _] | [_ H]]; [by apply elem_of_nil in Hin | done].
  - rewrite fmap_cons in Hnd. apply NoDup_cons in Hnd as [Hn0 Hnd]. simpl in Hn0.
    cbn [applicableLoop]. unfold bind at 1. unfold getMemberLeaderboardRequirement.
    unfold bind at 1.
    destruct (fetchMemberLeaderboardRaw n0 s) as [[l|] s1] eqn:Hfetch; [| done].
    apply servedView_fetched in Hfetch as [-> Hview]. cbn [ret].
    set (app0 := isApplicable (requirementOf n0 (servedView s n0))
                   (isLeaderboardReversed n0) v0).
    intros Hrest n v.
    eapply IH in Hrest; [rewrite Hrest | done |]; cycle 1.
    { intros k Hk. destruct app0;
        [rewrite lookup_insert_ne by (by intros ->) |]; apply Hfresh; by right. }
    rewrite Hview, fmap_cons. simpl.
    assert (acc !! n0 = None) as Hacc0 by (apply Hfresh; left).
    split.
    + intros [[Hin Happ] | [Hnin Hacc]].
      * left. split; [by right | done].
      * destruct (decide (n = n0)) as [-> | Hne].
        -- left. destruct app0 eqn:E0.
           ++ rewrite lookup_insert_eq in Hacc. injection Hacc as <-.
              split; [left | done].
           ++ congruence.
        -- right. split; [by intros [? | ?]%elem_of_cons |].
           destruct app0; [by rewrite lookup_insert_ne in Hacc | done].
    + intros [[Hin Happ] | [Hnin Hacc]].
      * apply elem_of_cons in Hin as [[= -> ->] | Hin]; [| by left].
        right. split; [done |]. fold app0 in Happ. rewrite Happ.
        by rewrite lookup_insert_eq.
      * right. apply not_elem_of_cons in Hnin as [Hne Hnin]. split; [done |].
        destruct app0; [by rewrite lookup_insert_ne | done].
Qed.

(** What [getApplicableAttributes] keeps: an attribute of the member stays
    exactly when the condition of the [if], as the language parses it, holds
    for the requirement of its leaderboard. *)
Lemma getApplicableAttributes_spec (member : CleanMember) (s s' : State)
    (r : gmap string Z) :
  getApplicableAttributes member s = (Returned r, s') ->
  forall n v,
    r !! n = Some v <->
    getMemberLeaderboardAttributes member !! n = Some v
    /\ isApplicable (requirementOf n (servedView s n)) (isLeaderboardReversed n) v
       = true.
Proof.
  intros H n v. unfold getApplicableAttributes in H.
  rewrite (applicableLoop_spec _ _ _ _ _ (NoDup_fst_map_to_list _) (fun _ _ => lookup_empty _) H).
  rewrite elem_of_map_to_list, lookup_empty.
  split; [intros [Hin | [_ Hacc]]; [exact Hin | discriminate] | by left].
Qed.


(** C1 at its failing input.  A member with 50 zombie kills, no leaderboard
    stored or cached: the requirement of ["kills_zombie"] is [null], the
    leaderboard being far from full, and yet [getApplicableAttributes]
    returns no attribute at all -- on an unfilled leaderboard the condition
    reads [attributeValue < null]. *)

Theorem applicable_attributes_drop_unfilled_leaderboard :
  getMemberLeaderboardAttributes zombieSlayer !! "kills_zombie" = Some 50
  /\ (fetchMemberLeaderboardRaw "kills_zombie" emptyStore).1 = Returned []
  /\ (getMemberLeaderboardRequirement "kills_zombie" emptyStore).1 = Returned JsNull
  /\ isLeaderboardReversed "kills_zombie" = false
  /\ (getApplicableAttributes zombieSlayer emptyStore).1 = Returned ∅.
Proof. split; [| split; [| split; [| split]]]; vm_compute; reflexivity. Qed.

(** ** Served leaderboards and commits on the sample store *)


Lemma served_leaderboard_sample :
  fetchMemberLeaderboardRaw "kills_zombie" smallStore
  = (Returned [docB2; docB1; docA],
     mkState true ∅ [docA; docB1; docB2]
       {[ "kills_zombie" := [docB2; docB1; docA] ]} None)
  /\ (length [docB2; docB1; docA] <= 100)%nat
  /\ Forall (hasStatistic "kills_zombie") [docB2; docB1; docA]
  /\ StronglySorted (ranksBefore "kills_zombie") [docB2; docB1; docA]
  /\ reachable (mkState true ∅ [docA; docB1; docB2]
                  {[ "kills_zombie" := [docB2; docB1; docA] ]} None).
Proof.
  split; [vm_compute; reflexivity |].
  refine (served_leaderboard_bounded_and_ordered smallStore
            (mkState true ∅ [docA; docB1; docB2]
               {[ "kills_zombie" := [docB2; docB1; docA] ]} None)
            "kills_zombie" [docB2; docB1; docA] _ _).
  - apply reachable_start. reflexivity.
  - vm_compute. reflexivity.
Defined.


Lemma applicableLoop_reachable (entries : list (string * Z)) (acc : gmap string Z)
    (s : State) :
  reachable s -> reachable (applicableLoop entries acc s).2.
Proof.
  revert acc s. induction entries as [|[n v] entries IH]; intros acc s Hs; [done |].
  cbn [applicableLoop]. unfold bind at 1. unfold getMemberLeaderboardRequirement.
  unfold bind at 1.
  pose proof (reachable_step s _ Hs (step_fetch n s)) as Hfetched.
  destruct (fetchMemberLeaderboardRaw n s) as [[l|] s1]; [| done].
  cbn [ret]. by apply IH.
Qed.

Lemma commit_twice_sample :
  let attrs : gmap string Z := {[ "kills_zombie" := 50 ]} in
  let s := (getApplicableAttributes zombieSlayer crowdedStore).2 in
  let s1 := (commitMember "6536bfed" "p1" attrs 100 (fun _ => 110) s).2 in
  let s2 := (commitMember "6536bfed" "p1" attrs 200 (fun _ => 210) s1).2 in
  (exists i,
     memberLeaderboardsCollection s1 !! i = Some (mkItem "6536bfed" (Some "p1") attrs 100)
     /\ (forall j d, (j < i)%nat -> memberLeaderboardsCollection s1 !! j = Some d ->
           ~ (uuid d = "6536bfed" /\ profile d = Some "p1"))
     /\ memberLeaderboardsCollection s2
        = <[i := mkItem "6536bfed" (Some "p1") attrs 200]>
            (memberLeaderboardsCollection s1))
  /\ (forall n, is_Some (attrs !! n) ->
        exists l1,
          cachedRawLeaderboards s1 !! n = Some l1
          /\ cachedRawLeaderboards s2 !! n = Some (restamped "6536bfed" 210 <$> l1)
          /\ (forall e, e ∈ l1 -> uuid e = "6536bfed" ->
                e = mkItem "6536bfed" None attrs 110)
          /\ (length (filter (fun d => uuid d = "6536bfed") l1) <= 1)%nat)
  /\ (forall n, attrs !! n = None ->
        cachedRawLeaderboards s2 !! n = cachedRawLeaderboards s1 !! n)
  /\ (100 = 200 -> (forall n : string, 110 = 210) ->
      memberLeaderboardsCollection s2 = memberLeaderboardsCollection s1
      /\ cachedRawLeaderboards s2 = cachedRawLeaderboards s1).
Proof.
  intros attrs s s1 s2.
  refine (commit_twice_restamps_member s s1 s2 "6536bfed" "p1" attrs 100 200
            (fun _ => 110) (fun _ => 210) _ _ _).
  - apply applicableLoop_reachable, reachable_start. reflexivity.
  - vm_compute. reflexivity.
  - vm_compute. reflexivity.
Defined.

(** C9 as the specification words it fails.  The store holds the hundred
    players and a second profile of ["player-50"]; a member with 50 zombie
    kills is updated twice, the applicable attributes being the same both
    times, the clock reading 100 and 110 during the first commit, 200 and 210
    during the second.  The stored document of the member carries 100 after
    the first commit and 200 after the second, its cached entry 110 and then
    210, so neither the collection nor the cached leaderboard is unchanged;
    and the cached leaderboard holds two entries with uuid ["player-50"]. *)

Lemma commit_twice_moves_timestamps :
  let attrs : gmap string Z := {[ "kills_zombie" := 50 ]} in
  let applicable1 := getApplicableAttributes zombieSlayer crowdedStore in
  let r1 := commitMember "6536bfed" "p1" attrs 100 (fun _ => 110) applicable1.2 in
  let applicable2 := getApplicableAttributes zombieSlayer r1.2 in
  let r2 := commitMember "6536bfed" "p1" attrs 200 (fun _ => 210) applicable2.2 in
  let mine (l : list DatabaseLeaderboardItem) := filter (fun d => uuid d = "6536bfed") l in
  applicable1.1 = Returned attrs /\ applicable2.1 = Returned attrs
  /\ r1.1 = Returned tt /\ r2.1 = Returned tt
  /\ mine (memberLeaderboardsCollection r1.2) = [mkItem "6536bfed" (Some "p1") attrs 100]
  /\ mine (memberLeaderboardsCollection r2.2) = [mkItem "6536bfed" (Some "p1") attrs 200]
  /\ memberLeaderboardsCollection r2.2 <> memberLeaderboardsCollection r1.2
  /\ mine <$> cachedRawLeaderboards r1.2 !! "kills_zombie"
     = Some [mkItem "6536bfed" None attrs 110]
  /\ mine <$> cachedRawLeaderboards r2.2 !! "kills_zombie"
     = Some [mkItem "6536bfed" None attrs 210]
  /\ cachedRawLeaderboards r2.2 !! "kills_zombie"
     <> cachedRawLeaderboards r1.2 !! "kills_zombie"
  /\ (fun l => length (filter (fun d => uuid d = "player-50") l))
       <$> cachedRawLeaderboards r2.2 !! "kills_zombie" = Some 2%nat.
Proof.
  intros attrs applicable1 r1 applicable2 r2 mine.
  assert (mine (memberLeaderboardsCollection r1.2)
          = [mkItem "6536bfed" (Some "p1") attrs 100]) as Hc1
    by (vm_compute; reflexivity).
  assert (mine (memberLeaderboardsCollection r2.2)
          = [mkItem "6536bfed" (Some "p1") attrs 200]) as Hc2
    by (vm_compute; reflexivity).
  assert (mine <$> cachedRawLeaderboards r1.2 !! "kills_zombie"
          = Some [mkItem "6536bfed" None attrs 110]) as Hk1
    by (vm_compute; reflexivity).
  assert (mine <$> cachedRawLeaderboards r2.2 !! "kills_zombie"
          = Some [mkItem "6536bfed" None attrs 210]) as Hk2
    by (vm_compute; reflexivity).
  split; [vm_compute; reflexivity |].
  split; [vm_compute; reflexivity |].
  split; [vm_compute; reflexivity |].
  split; [vm_compute; reflexivity |].
  split; [exact Hc1 |]. split; [exact Hc2 |].
  split; [intros Heq; rewrite Heq, Hc1 in Hc2; discriminate Hc2 |].
  split; [exact Hk1 |]. split; [exact Hk2 |].
  split; [intros Heq; rewrite Heq, Hk1 in Hk2; discriminate Hk2 |].
  vm_compute. reflexivity.
Qed.

End LeaderboardFacts.

(** ** The debounce window *)

Module DebounceFacts.
Import JsArray Database ArrayFacts DatabaseFacts CommitFacts Samples.

Lemma quiet_ret {A} (a : A) : quiet (ret a).
Proof. by intros s. Qed.

Lemma quiet_bind {A B} (c : M A) (k : A -> M B) :
  quiet c -> (forall a, quiet (k a)) -> quiet (bind c k).
Proof.
  intros Hc Hk s. unfold bind. specialize (Hc s).
  destruct (c s) as [[a|] s1]; simpl in Hc; [| done].
  destruct (Hk a s1) as [Hk1 Hk2]. destruct Hc as [Hc1 Hc2].
  split; congruence.
Qed.

Lemma quiet_forEach {A} (l : list A) (body : A -> M unit) :
  (forall x, quiet (body x)) -> quiet (forEach l body).
Proof.
  intros Hbody. induction l as [|x l IH]; simpl.
  - apply quiet_ret.
  - apply quiet_bind; [apply Hbody | by intros ?].
Qed.

Lemma quiet_externalCall : quiet externalCall.
Proof. intros s. by destruct (externalCall_frame s) as (? & ? & _). Qed.

Lemma quiet_setCachedRawLeaderboard (name : string)
    (l : list DatabaseLeaderboardItem) :
  quiet (setCachedRawLeaderboard name l).
Proof. by intros s. Qed.

Lemma quiet_fetchMemberLeaderboardRaw (name : string) :
  quiet (fetchMemberLeaderboardRaw name).
Proof.
  intros s. destruct (fetchMemberLeaderboardRaw name s) as [o s'] eqn:H.
  by apply fetchMemberLeaderboardRaw_spec in H as (_ & ? & ? & _).
Qed.

Lemma quiet_applicableLoop (entries : list (string * Z)) (acc : gmap string Z) :
  quiet (applicableLoop entries acc).
Proof.
  revert acc. induction entries as [|[n v] entries IH]; intros acc; simpl.
  - apply quiet_ret.
  - apply quiet_bind; [| by intros ?].
    apply quiet_bind; [apply quiet_fetchMemberLeaderboardRaw |].
    intros l. apply quiet_ret.
Qed.

Lemma quiet_commitMember (u p : string) (attrs : gmap string Z) (upsertedAt : Z)
    (patchedAt : string -> Z) :
  quiet (commitMember u p attrs upsertedAt patchedAt).
Proof.
  apply quiet_bind.
  - apply quiet_bind; [apply quiet_externalCall | by intros ? s].
  - intros ?. apply quiet_forEach. intros [n v].
    apply quiet_bind; [apply quiet_fetchMemberLeaderboardRaw |].
    intros l. apply quiet_setCachedRawLeaderboard.
Qed.

(** What follows the marking of the key in [updateDatabaseMember]. *)
Lemma quiet_update_rest (member : CleanMember) (profile : CleanFullProfile) (now : Z) :
  quiet (let! _ := constantsAdd in
         let! _ := constantsAdd in
         let! _ := constantsAdd in
         let! _ := constantsAdd in
         let! leaderboardAttributes := getApplicableAttributes member in
         commitMember (m_uuid member) (p_uuid profile) leaderboardAttributes now
           (fun _ => now)).
Proof.
  do 4 (apply quiet_bind; [apply quiet_externalCall | intros ?]).
  apply quiet_bind; [apply quiet_applicableLoop |].
  intros attrs. apply quiet_commitMember.
Qed.

(** C10.  An update that throws -- in a call into constants.ts, in a
    leaderboard query or in the upsert -- leaves the key of its profile and
    member marked until three minutes after it started; any state that
    still holds this mark suppresses a further update of the same profile
    and member at every instant before that: the call returns at once and
    changes nothing. *)
Theorem failed_update_consumes_debounce_window (member : CleanMember)
    (profile : CleanFullProfile) (now : Z) (s s' : State) :
  updateDatabaseMember member profile now s = (Threw, s') ->
  recentlyUpdated s'
  = <[p_uuid profile +:+ m_uuid member := now + recentlyUpdatedTTL]> (recentlyUpdated s)
  /\ forall later s2,
       now <= later < now + recentlyUpdatedTTL ->
       recentlyUpdated s2 !! (p_uuid profile +:+ m_uuid member)
       = recentlyUpdated s' !! (p_uuid profile +:+ m_uuid member) ->
       updateDatabaseMember member profile later s2 = (Returned tt, s2).
Proof.
  unfold updateDatabaseMember at 1.
  destruct (negb (client s)); [done |].
  destruct (recentlyUpdatedGet _ now s); [done |].
  unfold bind at 1. cbn [recentlyUpdatedSet].
  set (marked := mkState _ _ _ _ _).
  intros Hrest.
  pose proof (quiet_update_rest member profile now marked) as [_ Hkeys].
  rewrite Hrest in Hkeys. simpl in Hkeys.
  split; [done |].
  intros later s2 Hlater Hmark. unfold updateDatabaseMember.
  destruct (negb (client s2)); [done |].
  unfold recentlyUpdatedGet. rewrite Hmark, Hkeys, lookup_insert_eq.
  destruct (Z.leb_spec later (now + recentlyUpdatedTTL)); [done | lia].
Qed.

Lemma failed_update_sample :
  let s' := (updateDatabaseMember zombieSlayer profile1 1000 flakyStore).2 in
  recentlyUpdated s'
  = <[p_uuid profile1 +:+ m_uuid zombieSlayer := 1000 + recentlyUpdatedTTL]>
      (recentlyUpdated flakyStore)
  /\ forall later s2,
       1000 <= later < 1000 + recentlyUpdatedTTL ->
       recentlyUpdated s2 !! (p_uuid profile1 +:+ m_uuid zombieSlayer)
       = recentlyUpdated s' !! (p_uuid profile1 +:+ m_uuid zombieSlayer) ->
       updateDatabaseMember zombieSlayer profile1 later s2 = (Returned tt, s2).
Proof.
  intros s'.
  refine (failed_update_consumes_debounce_window zombieSlayer profile1 1000
            flakyStore s' _).
  vm_compute. reflexivity.
Defined.

(** The recently-updated marker over time: absent at first, present for
    three minutes after an update, expired afterwards. *)
Example debounce_gate_sample :
  recentlyUpdatedGet "p16536bfed" 1000 emptyStore = false
  /\ (let s1 := (updateDatabaseMember zombieSlayer profile1 1000 emptyStore).2 in
      recentlyUpdatedGet "p16536bfed" 1001 s1 = true
      /\ recentlyUpdatedGet "p16536bfed" 180999 s1 = true
      /\ recentlyUpdatedGet "p16536bfed" 181001 s1 = false).
Proof. split; [| split; [| split]]; vm_compute; reflexivity. Qed.

End DebounceFacts.

(** ** Single-flight caches *)

Module SingleFlightFacts.
Import SingleFlight.


(** C2 at its failing schedules.  Cold cache, two invocations before the
    first request settles: the second polls, and once the first has cached
    its result the second sends a request of its own and returns what that
    one brings -- two requests, two results.  Expired cache, two
    invocations: neither polls, both send a request at once. *)
Theorem concurrent_callers_refresh_twice (now : Z) (old first second : Resource) :
  (let w := fetchElection cold
              [Invoke now; Invoke now; Response 0 (Some first); PollTick 1;
               Response 1 (Some second)] in
   requests w = 2%nat /\ calls w = [Resolved first; Resolved second])
  /\ (let w := fetchElection cold
                 [Invoke now; Invoke now; Response 0 (Some first); PollTick 1] in
      requests w = 2%nat /\ calls w = [Resolved first; Requesting])
  /\ (let w := fetchElection (mkWorld (mkCache false (Some old) now) 0 [])
                 [Invoke now; Invoke now] in
      requests w = 2%nat /\ calls w = [Requesting; Requesting]).
Proof.
  split; [| split]; simpl.
  - done.
  - done.
  - unfold invoke. simpl. rewrite Z.ltb_irrefl. simpl. rewrite Z.ltb_irrefl. done.
Qed.

Lemma stuck_step (ttlSeconds : Z) (w : World) (ev : Event) :
  stuck w -> stuck (step ttlSeconds w ev) /\ requests (step ttlSeconds w ev) = requests w.
Proof.
  intros Hw. pose proof Hw as (Hflag & Hdata & Hcalls).
  destruct ev as [now | i | i result]; simpl.
  - unfold invoke. rewrite Hdata, Hflag. split; [| done].
    split; [done |]. split; [done |]. simpl.
    apply Forall_app. split; [done |]. constructor; [by right | constructor].
  - unfold pollTick. destruct (calls w !! i) as [[| | |]|]; try done.
    by rewrite Hdata.
  - unfold response. destruct (calls w !! i) as [c|] eqn:Hi; [| done].
    rewrite Forall_forall in Hcalls.
    destruct (Hcalls c) as [-> | ->]; [by eapply list_elem_of_lookup_2 | done..].
Qed.

Lemma stuck_run (ttlSeconds : Z) (evs : list Event) (w : World) :
  stuck w -> stuck (run ttlSeconds w evs) /\ requests (run ttlSeconds w evs) = requests w.
Proof.
  revert w. induction evs as [|ev evs IH]; intros w Hw; [done |].
  destruct (stuck_step ttlSeconds w ev Hw) as [Hw' Hreq].
  destruct (IH _ Hw') as [Hw'' Hreq'].
  unfold run in *. simpl. split; [done | congruence].
Qed.

(** C3 at its failing input.  Cold cache, one invocation whose request
    throws: the invocation is rejected and nothing is cached, but the flag
    stays set; whatever happens afterwards, no further request is ever sent
    and every later invocation polls without end. *)
Theorem failed_refresh_blocks_every_retry (now : Z) (evs : list Event) :
  let failed := fetchElection cold [Invoke now; Response 0 None] in
  let w := fetchElection failed evs in
  calls failed = [Rejected]
  /\ requests failed = 1%nat
  /\ isFetching (cache failed) = true
  /\ cachedData (cache failed) = None
  /\ requests w = 1%nat
  /\ isFetching (cache w) = true
  /\ cachedData (cache w) = None
  /\ Forall (fun c => c = Rejected \/ c = Polling) (calls w).
Proof.
  intros failed w.
  assert (stuck failed) as Hstuck.
  { split; [done |]. split; [done |]. constructor; [by left | constructor]. }
  destruct (stuck_run (10 * 60) evs failed Hstuck) as [(Hflag & Hdata & Hcalls) Hreq].
  repeat split; done.
Qed.

(** The same with the events spelled out: a second caller, a minute later,
    after a hundred turns of its interval. *)
Example failed_refresh_sample :
  let w := fetchElection cold
             ([Invoke 0; Response 0 None; Invoke 60000] ++ replicate 100 (PollTick 1)) in
  calls w = [Rejected; Polling] /\ requests w = 1%nat.
Proof. split; vm_compute; reflexivity. Qed.

End SingleFlightFacts.

(** ** The ended-auctions loop *)

Module AuctionFacts.
Import JsArray Auctions Samples.

(** ** The ids carried to the next turn *)

Lemma newAuctionUuids_elem (previous : gset string) (ended : list EndedAuction)
    (x : string) :
  x ∈ newAuctionUuids previous ended <->
  (x ∉ previous) /\ x ∈ auction_id <$> ended.
Proof.
  unfold newAuctionUuids.
  assert (forall acc : gset string,
            x ∈ foldl (fun acc auction =>
                         if bool_decide (auction_id auction ∈ previous) then acc
                         else {[ auction_id auction ]} ∪ acc) acc ended
            <-> x ∈ acc \/ ((x ∉ previous) /\ x ∈ auction_id <$> ended)) as H.
  { induction ended as [|a ended IH]; intros acc; simpl.
    - rewrite elem_of_nil. tauto.
    - rewrite IH, elem_of_cons. case_bool_decide as Hin.
      + split; [tauto |]. intros [? | [Hx [-> | ?]]]; tauto.
      + rewrite elem_of_union, elem_of_singleton.
        split; [intros [[-> | ?] | ?]; tauto | tauto]. }
  rewrite H, elem_of_empty. tauto.
Qed.

Lemma newAuctionUuids_difference (previous : gset string) (ended : list EndedAuction) :
  newAuctionUuids previous ended = list_to_set (auction_id <$> ended) ∖ previous.
Proof.
  apply set_eq. intros x.
  rewrite newAuctionUuids_elem, elem_of_difference, elem_of_list_to_set. tauto.
Qed.

Lemma newAuctionItemIds_elem (previous : gset string) (ended : list EndedAuction)
    (x : string) :
  x ∈ newAuctionItemIds previous ended <->
  exists a, a ∈ ended /\ (auction_id a ∉ previous) /\ item a = x.
Proof.
  unfold newAuctionItemIds.
  assert (forall acc : gset string,
            x ∈ foldl (fun acc auction =>
                         if bool_decide (auction_id auction ∈ previous) then acc
                         else {[ item auction ]} ∪ acc) acc ended
            <-> x ∈ acc \/ exists a, a ∈ ended /\ (auction_id a ∉ previous) /\ item a = x)
    as H.
  { induction ended as [|a ended IH]; intros acc; simpl.
    - split; [tauto |]. intros [? | [a [Hin _]]]; [done | by apply elem_of_nil in Hin].
    - rewrite IH. case_bool_decide as Hin.
      + split.
        * intros [? | (b & Hb & ?)]; [tauto |]. right. exists b. split; [by right | done].
        * intros [? | (b & Hb & Hnew & ?)]; [tauto |].
          apply elem_of_cons in Hb as [-> | Hb]; [done |]. right. by exists b.
      + rewrite elem_of_union, elem_of_singleton. split.
        * intros [[-> | ?] | (b & Hb & ?)]; [| tauto |].
          -- right. exists a. split; [left | done].
          -- right. exists b. split; [by right | done].
        * intros [? | (b & Hb & Hnew & Hx)]; [tauto |].
          apply elem_of_cons in Hb as [-> | Hb]; [by left; left |]. right. by exists b. }
  rewrite H, elem_of_empty. tauto.
Qed.

(** ** Loading and persisting *)

Lemma loaded_lookup (ids : list string) (store : gmap string (list SimpleAuctionSchema))
    (k : string) :
  indexById (fetchItemsAuctions ids store) !! k
  = if decide (k ∈ ids) then store !! k else None.
Proof.
  unfold indexById, fetchItemsAuctions. induction ids as [|x ids IH] using rev_ind.
  - destruct (decide (k ∈ [])) as [Hin | _]; [by apply elem_of_nil in Hin |].
    simpl. by rewrite lookup_empty.
  - rewrite omap_app, foldl_app. simpl.
    destruct (store !! x) as [h|] eqn:Hx; simpl.
    + destruct (decide (k = x)) as [-> | Hne].
      * rewrite lookup_insert_eq, decide_True; [done |].
        apply elem_of_app. right. left.
      * rewrite lookup_insert_ne by done. rewrite IH.
        destruct (decide (k ∈ ids)) as [Hin | Hin].
        -- rewrite decide_True; [done |]. apply elem_of_app. by left.
        -- rewrite decide_False; [done |].
           intros [? | Hk%list_elem_of_singleton]%elem_of_app; done.
    + rewrite IH. destruct (decide (k = x)) as [-> | Hne].
      * rewrite Hx. by repeat case_decide.
      * destruct (decide (k ∈ ids)) as [Hin | Hin].
        -- rewrite decide_True; [done |]. apply elem_of_app. by left.
        -- rewrite decide_False; [done |].
           intros [? | Hk%list_elem_of_singleton]%elem_of_app; done.
Qed.

Lemma persisted_lookup (updated store : gmap string (list SimpleAuctionSchema))
    (k : string) :
  foldr updateItemAuction store (map_to_list updated) !! k
  = match updated !! k with
    | Some h => Some h
    | None => store !! k
    end.
Proof.
  assert (forall l : list (string * list SimpleAuctionSchema),
            foldr updateItemAuction store l = list_to_map l ∪ store) as H.
  { induction l as [|[i h] l IH]; simpl.
    - by rewrite (left_id_L ∅ (∪)).
    - unfold updateItemAuction at 1. simpl. by rewrite IH, insert_union_l. }
  rewrite H, list_to_map_to_list, lookup_union.
  by destruct (updated !! k), (store !! k).
Qed.

(** ** The cap *)

Lemma sliceLast_length {A} (n : nat) (l : list A) :
  length (sliceLast n l) = Nat.min n (length l).
Proof. unfold sliceLast. rewrite length_drop. lia. Qed.

Lemma sliceLast_short {A} (n : nat) (l : list A) :
  (length l <= n)%nat -> sliceLast n l = l.
Proof.
  intros H. unfold sliceLast. by replace (length l - n)%nat with 0%nat by lia.
Qed.

Lemma sliceLast_app {A} (n : nat) (l k : list A) :
  sliceLast n (sliceLast n l ++ k) = sliceLast n (l ++ k).
Proof.
  unfold sliceLast. rewrite !length_app, length_drop.
  destruct (decide (length l <= n)%nat) as [Hle | Hgt].
  - replace (length l - n)%nat with 0%nat by lia. by rewrite Nat.sub_0_r.
  - rewrite <- (drop_app_le l k (length l - n)) by lia.
    rewrite drop_drop. f_equal. lia.
Qed.

(** What the second loop makes of one auction: the history of its item,
    already capped, with the auction appended unless its id is there. *)
Lemma mergeAuction_capped (previous : gset string)
    (updated : gmap string (list SimpleAuctionSchema)) (auction : EndedAuction) :
  capped updated -> capped (mergeAuction previous updated auction).
Proof.
  intros Hcap. unfold mergeAuction. case_bool_decide; [done |].
  set (auctions0 := match updated !! item auction with
                    | Some stored => stored | None => [] end).
  assert (length auctions0 <= 100)%nat as Hold.
  { subst auctions0.
    destruct (updated !! item auction) as [stored|] eqn:E; [by eapply Hcap | simpl; lia]. }
  intros k h. rewrite lookup_insert. case_decide as Hk; [| apply Hcap].
  intros [= <-].
  destruct (existsb _ auctions0); [done |].
  destruct (Nat.ltb_spec 100 (length (auctions0 ++ [simplify auction]))) as [Hlt | Hge].
  - rewrite sliceLast_length. lia.
  - done.
Qed.

Lemma mergeEnded_capped (st : LoopState) (endedAuctions : EndedAuctions) :
  capped (itemAuctions st) -> capped (mergeEnded st endedAuctions).
Proof.
  intros Hcap. unfold mergeEnded.
  assert (capped (indexById
            (fetchItemsAuctions
               (elements (newAuctionItemIds (previousAuctionIds st) (auctions endedAuctions)))
               (itemAuctions st)))) as Hloaded.
  { intros k h. rewrite loaded_lookup. case_decide; [apply Hcap | done]. }
  revert Hloaded. generalize (indexById
            (fetchItemsAuctions
               (elements (newAuctionItemIds (previousAuctionIds st) (auctions endedAuctions)))
               (itemAuctions st))).
  induction (auctions endedAuctions) as [|a l IH]; intros updated Hupd; simpl; [done |].
  apply IH. by apply mergeAuction_capped.
Qed.

Lemma iteration_capped (st : LoopState) (endedAuctions : EndedAuctions) (now : Z) :
  capped (itemAuctions st) -> capped (itemAuctions (iteration st endedAuctions now).1).
Proof.
  intros Hcap k h. simpl. rewrite persisted_lookup.
  destruct (mergeEnded st endedAuctions !! k) as [h'|] eqn:E.
  - intros [= <-]. by eapply mergeEnded_capped.
  - apply Hcap.
Qed.

Lemma turns_capped (snapshots : list (EndedAuctions * Z)) (st : LoopState) :
  capped (itemAuctions st) -> capped (itemAuctions (turns st snapshots)).
Proof.
  revert st. induction snapshots as [|sn snapshots IH]; intros st Hcap; [done |].
  unfold turns in *. simpl. apply IH. by apply (iteration_capped st sn.1 sn.2).
Qed.

(** ** New auctions of one item *)

Lemma elem_of_sliceLast {A} (n : nat) (l : list A) (x : A) :
  x ∈ sliceLast n l -> x ∈ l.
Proof.
  unfold sliceLast. intros Hx. rewrite <- (take_drop (length l - n) l).
  apply elem_of_app. by right.
Qed.

Lemma existsb_id_absent (x : string) (h : list SimpleAuctionSchema) :
  x ∉ id <$> h -> existsb (fun a => String.eqb (id a) x) h = false.
Proof.
  intros Hx. apply not_true_is_false. intros Hex.
  apply existsb_exists in Hex as (a & Hin & Heq).
  apply String.eqb_eq in Heq. apply Hx. rewrite <- Heq.
  apply list_elem_of_fmap_2. by apply list_elem_of_In.
Qed.

(** The second loop seen from one item: the new auctions of the item are
    appended to its history in the order of the snapshot, and the history is
    cut back to its last 100 records; the auctions of other items leave it
    alone. *)
Lemma merge_item (previous : gset string) (itemId : string)
    (ended : list EndedAuction)
    (updated : gmap string (list SimpleAuctionSchema)) :
  (forall a, a ∈ ended -> auction_id a ∉ previous) ->
  NoDup (auction_id <$> ended) ->
  (forall a, a ∈ ended -> item a = itemId ->
     auction_id a ∉ id <$> default [] (updated !! itemId)) ->
  (length (default [] (updated !! itemId)) <= 100)%nat ->
  default [] (foldl (mergeAuction previous) updated ended !! itemId)
  = sliceLast 100
      (default [] (updated !! itemId)
         ++ (simplify <$> filter (fun a => item a = itemId) ended)).
Proof.
  revert updated.
  induction ended as [|a ended IH]; intros updated Hnew Hnd Hfresh Hlen.
  - simpl. rewrite app_nil_r. by rewrite sliceLast_short.
  - rewrite fmap_cons in Hnd. apply NoDup_cons in Hnd as [Hnda Hnd].
    cbn [foldl].
    set (h := default [] (updated !! itemId)) in *.
    destruct (decide (item a = itemId)) as [Ha | Ha].
    + assert (mergeAuction previous updated a
              = <[itemId := sliceLast 100 (h ++ [simplify a])]> updated) as Hstep.
      { unfold mergeAuction. rewrite bool_decide_eq_false_2 by (apply Hnew; left).
        rewrite Ha.
        replace (match updated !! itemId with Some stored => stored | None => [] end)
          with h by (subst h; by destruct (updated !! itemId)).
        rewrite existsb_id_absent by (apply Hfresh; [left | done]).
        destruct (Nat.ltb_spec 100 (length (h ++ [simplify a]))); [done |].
        by rewrite sliceLast_short. }
      rewrite Hstep, IH; try done.
      * rewrite lookup_insert_eq. simpl. rewrite filter_cons_True by done.
        rewrite fmap_cons, sliceLast_app, <- app_assoc. done.
      * intros b Hb. apply Hnew. by right.
      * intros b Hb Hitem. rewrite lookup_insert_eq. simpl.
        intros Hin. apply list_elem_of_fmap in Hin as (x & Hx & Hin).
        apply elem_of_sliceLast, elem_of_app in Hin as [Hin | Hin].
        -- apply (Hfresh b); [by right | done |]. rewrite Hx.
           by apply list_elem_of_fmap_2.
        -- apply list_elem_of_singleton in Hin as ->. apply Hnda. simpl in Hx.
           rewrite <- Hx. by apply list_elem_of_fmap_2.
      * rewrite lookup_insert_eq. simpl. rewrite sliceLast_length. lia.
    + assert (mergeAuction previous updated a !! itemId = updated !! itemId) as Hstep.
      { unfold mergeAuction. rewrite bool_decide_eq_false_2 by (apply Hnew; left).
        by rewrite lookup_insert_ne. }
      rewrite IH; try done.
      * rewrite Hstep. by rewrite filter_cons_False.
      * intros b Hb. apply Hnew. by right.
      * intros b Hb Hitem. rewrite Hstep. apply Hfresh; [by right | done].
      * by rewrite Hstep.
Qed.

(** One turn seen from one item, on a snapshot whose auctions are all new:
    the stored history of the item gets the auctions of the item appended
    in order and is cut back to its last 100 records. *)
Lemma iteration_item (st : LoopState) (endedAuctions : EndedAuctions) (now : Z)
    (itemId : string) :
  (forall a, a ∈ auctions endedAuctions -> auction_id a ∉ previousAuctionIds st) ->
  NoDup (auction_id <$> auctions endedAuctions) ->
  (forall a, a ∈ auctions endedAuctions -> item a = itemId ->
     auction_id a ∉ id <$> default [] (itemAuctions st !! itemId)) ->
  (length (default [] (itemAuctions st !! itemId)) <= 100)%nat ->
  itemAuctions (iteration st endedAuctions now).1 !! itemId
  = match filter (fun a => item a = itemId) (auctions endedAuctions) with
    | [] => itemAuctions st !! itemId
    | mine => Some (sliceLast 100
                      (default [] (itemAuctions st !! itemId) ++ (simplify <$> mine)))
    end.
Proof.
  intros Hnew Hnd Hfresh Hlen. cbn [iteration fst itemAuctions].
  rewrite persisted_lookup. unfold mergeEnded.
  set (loaded := indexById _).
  set (ended := auctions endedAuctions) in *.
  destruct (filter (fun a => item a = itemId) ended) as [|a0 mine] eqn:Hmine.
  - assert (foldl (mergeAuction (previousAuctionIds st)) loaded ended !! itemId
            = loaded !! itemId) as ->.
    { assert (Forall (fun a => item a <> itemId) ended) as Hnone.
      { apply Forall_forall. intros a Ha Hitem.
        assert (a ∈ filter (fun a => item a = itemId) ended) as Hin
          by by apply list_elem_of_filter.
        rewrite Hmine in Hin. by apply elem_of_nil in Hin. }
      clear Hmine Hfresh Hnd. generalize loaded. clear loaded.
      induction ended as [|a ended IH]; intros loaded; [done |].
      apply Forall_cons in Hnone as [Ha Hnone]. cbn [foldl].
      rewrite IH; [| intros b Hb; apply Hnew; by right | done].
      unfold mergeAuction. rewrite bool_decide_eq_false_2 by (apply Hnew; left).
      by rewrite lookup_insert_ne. }
    subst loaded. rewrite loaded_lookup, decide_False; [done |].
    rewrite elem_of_elements, newAuctionItemIds_elem. intros (a & Ha & _ & Hitem).
    assert (a ∈ filter (fun a => item a = itemId) ended) as Hin
      by by apply list_elem_of_filter.
    rewrite Hmine in Hin. by apply elem_of_nil in Hin.
  - assert (loaded !! itemId = itemAuctions st !! itemId) as Hloaded.
    { subst loaded. rewrite loaded_lookup. rewrite decide_True; [done |].
      apply elem_of_elements, newAuctionItemIds_elem.
      assert (a0 ∈ filter (fun a => item a = itemId) ended) as Hin
        by (rewrite Hmine; left).
      apply list_elem_of_filter in Hin as [Hitem Hin].
      exists a0. split; [done |]. split; [by apply Hnew | done]. }
    pose proof (merge_item (previousAuctionIds st) itemId ended loaded) as Hmerge.
    rewrite Hloaded, Hmine in Hmerge. specialize (Hmerge Hnew Hnd Hfresh Hlen).
    destruct (foldl (mergeAuction (previousAuctionIds st)) loaded ended !! itemId)
      as [h|]; [by rewrite <- Hmerge |].
    exfalso. apply (f_equal length) in Hmerge.
    rewrite sliceLast_length, length_app, length_fmap in Hmerge.
    change (length (default [] None)) with 0%nat in Hmerge.
    rewrite length_cons in Hmerge. lia.
Qed.

Lemma iteration_item_default (st : LoopState) (endedAuctions : EndedAuctions)
    (now : Z) (itemId : string) :
  (forall a, a ∈ auctions endedAuctions -> auction_id a ∉ previousAuctionIds st) ->
  NoDup (auction_id <$> auctions endedAuctions) ->
  (forall a, a ∈ auctions endedAuctions -> item a = itemId ->
     auction_id a ∉ id <$> default [] (itemAuctions st !! itemId)) ->
  (length (default [] (itemAuctions st !! itemId)) <= 100)%nat ->
  default [] (itemAuctions (iteration st endedAuctions now).1 !! itemId)
  = sliceLast 100
      (default [] (itemAuctions st !! itemId)
         ++ (simplify <$> filter (fun a => item a = itemId) (auctions endedAuctions))).
Proof.
  intros Hnew Hnd Hfresh Hlen. rewrite iteration_item by done.
  destruct (filter _ (auctions endedAuctions)) as [|a mine]; [| done].
  simpl. rewrite app_nil_r. by rewrite sliceLast_short.
Qed.

(** New auctions spread over any number of turns, seen from one item. *)
Lemma turns_item (snapshots : list (EndedAuctions * Z)) (st : LoopState)
    (itemId : string) :
  NoDup (auction_id <$> concat ((fun sn => auctions sn.1) <$> snapshots)) ->
  (forall a, a ∈ concat ((fun sn => auctions sn.1) <$> snapshots) ->
     auction_id a ∉ previousAuctionIds st) ->
  (forall a, a ∈ concat ((fun sn => auctions sn.1) <$> snapshots) -> item a = itemId ->
     auction_id a ∉ id <$> default [] (itemAuctions st !! itemId)) ->
  (length (default [] (itemAuctions st !! itemId)) <= 100)%nat ->
  default [] (itemAuctions (turns st snapshots) !! itemId)
  = sliceLast 100
      (default [] (itemAuctions st !! itemId)
         ++ (simplify <$> filter (fun a => item a = itemId)
                            (concat ((fun sn => auctions sn.1) <$> snapshots)))).
Proof.
  revert st. induction snapshots as [|sn snapshots IH];
    intros st Hnd Hnew Hfresh Hlen.
  - simpl. rewrite app_nil_r. by rewrite sliceLast_short.
  - rewrite fmap_cons in *. cbn [concat] in *.
    rewrite fmap_app in Hnd. apply NoDup_app in Hnd as (Hnd1 & Hdisjoint & Hnd).
    assert (default [] (itemAuctions (iteration st sn.1 sn.2).1 !! itemId)
            = sliceLast 100
                (default [] (itemAuctions st !! itemId)
                   ++ (simplify <$> filter (fun a => item a = itemId) (auctions sn.1))))
      as Hturn.
    { apply iteration_item_default; try done.
      - intros a Ha. apply Hnew, elem_of_app. by left.
      - intros a Ha. apply Hfresh, elem_of_app. by left. }
    unfold turns in *. cbn [foldl]. rewrite IH; try done.
    + rewrite Hturn, sliceLast_app, filter_app, fmap_app, app_assoc. done.
    + intros a Ha. cbn [iteration fst previousAuctionIds].
      rewrite newAuctionUuids_elem. intros [_ Hin].
      apply (Hdisjoint (auction_id a)); [done |]. by apply list_elem_of_fmap_2.
    + intros a Ha Hitem. rewrite Hturn. intros (x & Hx & Hin)%list_elem_of_fmap.
      apply elem_of_sliceLast, elem_of_app in Hin as [Hin | Hin].
      * apply (Hfresh a); [apply elem_of_app; by right | done |].
        rewrite Hx. by apply list_elem_of_fmap_2.
      * apply list_elem_of_fmap in Hin as (b & -> & Hb). simpl in Hx.
        apply list_elem_of_filter in Hb as [_ Hb].
        apply (Hdisjoint (auction_id b)); [by apply list_elem_of_fmap_2 |].
        rewrite <- Hx. by apply list_elem_of_fmap_2.
    + rewrite Hturn, sliceLast_length. lia.
Qed.

(** C4.  A turn of the loop never leaves a stored history with more than
    100 records if none had more before, over any number of turns.  Seen
    from one item, new auctions -- arriving in one snapshot or spread over
    any number of turns, among auctions of other items -- are appended to
    the stored history of the item in the order they arrive, and the history
    is cut back to its last 100 records; with 150 of them for the item the
    history is the last 100 of the 150, whatever was stored before.  And a
    turn on a snapshot with new auctions of the item writes that history
    under the item. *)
Theorem auction_history_capped :
  (forall (st : LoopState) (snapshots : list (EndedAuctions * Z)),
     capped (itemAuctions st) -> capped (itemAuctions (turns st snapshots)))
  /\ (forall (st : LoopState) (snapshots : list (EndedAuctions * Z)) (itemId : string),
        let arrived := concat ((fun sn => auctions sn.1) <$> snapshots) in
        let merged := filter (fun a => item a = itemId) arrived in
        let before := default [] (itemAuctions st !! itemId) in
        let stored := default [] (itemAuctions (turns st snapshots) !! itemId) in
        NoDup (auction_id <$> arrived) ->
        (forall a, a ∈ arrived -> auction_id a ∉ previousAuctionIds st) ->
        (forall a, a ∈ merged -> auction_id a ∉ id <$> before) ->
        (length before <= 100)%nat ->
        stored = sliceLast 100 (before ++ (simplify <$> merged))
        /\ (length merged = 150%nat ->
            stored = drop 50 (simplify <$> merged) /\ length stored = 100%nat))
  /\ (forall (st : LoopState) (endedAuctions : EndedAuctions) (now : Z)
             (itemId : string),
        let merged := filter (fun a => item a = itemId) (auctions endedAuctions) in
        let before := default [] (itemAuctions st !! itemId) in
        merged <> [] ->
        NoDup (auction_id <$> auctions endedAuctions) ->
        (forall a, a ∈ auctions endedAuctions -> auction_id a ∉ previousAuctionIds st) ->
        (forall a, a ∈ merged -> auction_id a ∉ id <$> before) ->
        (length before <= 100)%nat ->
        itemAuctions (iteration st endedAuctions now).1 !! itemId
        = Some (sliceLast 100 (before ++ (simplify <$> merged)))).
Proof.
  split; [| split].
  - intros st snapshots. apply turns_capped.
  - intros st snapshots itemId arrived merged before stored Hnd Hnew Hfresh Hlen.
    assert (stored = sliceLast 100 (before ++ (simplify <$> merged))) as Hstored.
    { apply turns_item; try done. intros a Ha Hitem. apply Hfresh.
      by apply list_elem_of_filter. }
    split; [done |]. intros H150. rewrite Hstored. unfold sliceLast.
    rewrite length_app, length_fmap, H150.
    replace (length before + 150 - 100)%nat with (length before + 50)%nat by lia.
    rewrite drop_app_add'; [| done].
    split; [done |]. rewrite length_drop, length_fmap, H150. done.
  - intros st endedAuctions now itemId merged before Hne Hnd Hnew Hfresh Hlen.
    rewrite iteration_item; try done.
    + fold merged. by destruct merged.
    + intros a Ha Hitem. apply Hfresh. by apply list_elem_of_filter.
Qed.

(** 150 auctions of one item arriving in two turns, among auctions of
    another item, onto a stored history of one record. *)
Lemma auction_history_sample :
  let other k := mkEnded ("hyperion-" +:+ pretty k) "HYPERION" 5 1650000000000 false in
  let st := mkLoop ∅ {[ "ASPECT_OF_THE_END" := [simplify (numbered 200)] ]} in
  let snapshots :=
    [ (mkSnapshot (other 0%nat :: (numbered <$> seq 0 75)) 0, 5);
      (mkSnapshot ((numbered <$> seq 75 75) ++ [other 1%nat]) 60000, 70005) ] in
  let stored := default [] (itemAuctions (turns st snapshots) !! "ASPECT_OF_THE_END") in
  capped (itemAuctions (turns st snapshots))
  /\ stored = sliceLast 100 ([simplify (numbered 200)] ++ (simplify <$> burst 150))
  /\ stored = drop 50 (simplify <$> burst 150)
  /\ length stored = 100%nat.
Proof.
  intros other st snapshots stored.
  destruct auction_history_capped as (Hcapped & Hmerged & _).
  split.
  - apply Hcapped. intros k h Hk. simpl in Hk.
    apply lookup_singleton_Some in Hk as [_ <-]. simpl. lia.
  - destruct (Hmerged st snapshots "ASPECT_OF_THE_END") as [Hstored H150].
    + apply (bool_decide_unpack _). vm_compute. reflexivity.
    + intros a _. apply not_elem_of_empty.
    + apply Forall_forall. apply (bool_decide_unpack _). vm_compute. reflexivity.
    + simpl. rewrite lookup_singleton_eq. simpl. lia.
    + split; [exact Hstored |]. by apply H150.
Defined.

(** ** The ids kept for the next turn *)

(** C5 at its failing input.  The feed lists one auction in two consecutive
    snapshots.  After the first turn the auction is in [previousAuctionIds];
    after the second turn, whose snapshot still has it, the set is empty --
    it holds the ids that were new in the turn, not those of the snapshot --
    and a third snapshot listing it makes the loop take it for new again. *)
Theorem previous_ids_forget_seen_auctions :
  let st1 := turns (start ∅) [(lingering, 0)] in
  let st2 := turns (start ∅) [(lingering, 0); (lingering, 70000)] in
  previousAuctionIds st1 = {[ "auction-0" ]}
  /\ list_to_set (auction_id <$> auctions lingering) = ({[ "auction-0" ]} : gset string)
  /\ previousAuctionIds st2 = ∅
  /\ newAuctionUuids (previousAuctionIds st2) (auctions lingering) = {[ "auction-0" ]}.
Proof. split; [| split; [| split]]; vm_compute; reflexivity. Qed.

(** What the loop keeps in general: the ids of the snapshot that the
    previous turn had not kept. *)
Lemma previous_ids_after_iteration (st : LoopState) (endedAuctions : EndedAuctions)
    (now : Z) :
  previousAuctionIds (iteration st endedAuctions now).1
  = list_to_set (auction_id <$> auctions endedAuctions) ∖ previousAuctionIds st.
Proof. apply newAuctionUuids_difference. Qed.

(** ** The delay before the next turn *)



(** The delay on both sides of the 70 seconds: a snapshot 30 seconds old is
    waited 40 seconds for, one 100 seconds old 1 millisecond. *)
Example refetch_delay_values :
  (iteration (start ∅) (mkSnapshot [] 0) 30000).2 = 40000
  /\ (iteration (start ∅) (mkSnapshot [] 0) 100000).2 = 1
  /\ refetchIn 100000 0 = -30000.
Proof. split; [| split]; reflexivity. Qed.

End AuctionFacts.

(** ** Categories and units *)

Module CategoryFacts.
Import JsString Stats StatsFacts.

Lemma startsWith_sliceFrom (raw m : string) :
  startsWith raw m = true -> raw = m +:+ sliceFrom (String.length m) raw.
Proof.
  intros [rest ->]%startsWith_spec. f_equal. unfold sliceFrom.
  rewrite length_append, substring_skip.
  replace (String.length m + String.length rest - String.length m)%nat
    with (String.length rest) by lia.
  by rewrite substring_all.
Qed.

Lemma substring_prefix (pre s : string) :
  substring 0 (String.length pre) (pre +:+ s) = pre.
Proof. induction pre; [by destruct s |]. rewrite append_cons. simpl. by rewrite IHpre. Qed.

Lemma endsWith_sliceTo (raw m : string) :
  endsWith raw m = true ->
  raw = sliceTo (String.length raw - String.length m) raw +:+ m.
Proof.
  intros [pre ->]%endsWith_spec. f_equal. unfold sliceTo.
  rewrite length_append.
  replace (String.length pre + String.length m - String.length m)%nat
    with (String.length pre) by lia.
  by rewrite substring_prefix.
Qed.

Lemma categorizeWith_result (statCategory : string) (matchers : list string)
    (raw : string) (r : StatCategory) :
  categorizeWith statCategory matchers raw = Some r ->
  category r = Some statCategory
  /\ exists m, m ∈ matchers
       /\ match name r with
          | Some n => raw = m +:+ n \/ raw = n +:+ m
          | None => raw = m
          end.
Proof.
  induction matchers as [|m ms IH]; simpl; [done |].
  destruct (trailingStart m && startsWith raw m) eqn:E1.
  { intros [= <-]. split; [done |]. exists m. split; [left |]. simpl. left.
    apply andb_true_iff in E1 as [_ E1]. by apply startsWith_sliceFrom. }
  destruct (trailingEnd m && endsWith raw m) eqn:E2.
  { intros [= <-]. split; [done |]. exists m. split; [left |]. simpl. right.
    apply andb_true_iff in E2 as [_ E2]. by apply endsWith_sliceTo. }
  destruct (String.eqb_spec raw m) as [-> | _].
  { intros [= <-]. split; [done |]. exists m. split; [left | done]. }
  intros H. destruct (IH H) as [Hc (m' & Hin & Hm)]. split; [done |].
  exists m'. split; [by right | done].
Qed.

Lemma categorizeIn_result (table : list (string * option (list string)))
    (raw : string) :
  (exists statCategory, (statCategory, None) ∈ table) ->
  exists statCategory matchers,
    (statCategory, matchers) ∈ table
    /\ category (categorizeIn table raw) = Some statCategory
    /\ match matchers with
       | None => name (categorizeIn table raw) = Some raw
       | Some ms =>
           exists m, m ∈ ms
             /\ match name (categorizeIn table raw) with
                | Some n => raw = m +:+ n \/ raw = n +:+ m
                | None => raw = m
                end
       end.
Proof.
  induction table as [|[c [ms|]] table IH]; intros [c0 Hc0].
  - by apply elem_of_nil in Hc0.
  - simpl. destruct (categorizeWith c ms raw) as [r|] eqn:E.
    + apply categorizeWith_result in E as [Hc Hm].
      exists c, (Some ms). split; [left | done].
    + apply elem_of_cons in Hc0 as [[=] | Hc0].
      destruct IH as (c' & ms' & Hin & H); [by exists c0 |].
      exists c', ms'. split; [by right | done].
  - exists c, None. split; [left | done].
Qed.

(** X1.  [categorizeStat] always finds a category of its table -- the
    return after the loop, with a [null] category, is never reached -- and
    nothing of the raw name is lost: under ['misc'] the name is the raw name,
    and under any other category the raw name is one of the category's
    matchers, alone when the name is [null], followed or preceded by the
    name otherwise. *)
Theorem categorizeStat_category_and_name (raw : string) :
  exists statCategory matchers,
    (statCategory, matchers) ∈ statCategories
    /\ category (categorizeStat raw) = Some statCategory
    /\ match matchers with
       | None => statCategory = "misc" /\ name (categorizeStat raw) = Some raw
       | Some ms =>
           exists m, m ∈ ms
             /\ match name (categorizeStat raw) with
                | Some n => raw = m +:+ n \/ raw = n +:+ m
                | None => raw = m
                end
       end.
Proof.
  destruct (categorizeIn_result statCategories raw) as (c & ms & Hin & Hc & Hn).
  { exists "misc". unfold statCategories. do 11 right. left. }
  exists c, ms. split; [done |]. split; [done |].
  destruct ms as [ms|]; [done |]. split; [| done].
  unfold statCategories in Hin.
  repeat (apply elem_of_cons in Hin as [[= ] | Hin]; try done).
  by apply elem_of_nil in Hin.
Qed.

(** X2.  A leaderboard is reversed exactly when its unit is a time or a
    date: the reversed matchers are the time and date matchers of the
    leaderboard units. *)
Theorem reversed_iff_time_or_date (name : string) :
  Database.isLeaderboardReversed name = true
  <-> Database.getLeaderboardUnit name = Some "time"
      \/ Database.getLeaderboardUnit name = Some "date".
Proof.
  unfold Database.isLeaderboardReversed, Database.getLeaderboardUnit,
    Database.reversedLeaderboards, Database.leaderboardUnits.
  cbn [existsb unitIn].
  destruct (matcherMatches "first_join" name),
    (matcherMatches "_best_time" name),
    (matcherMatches "_best_time_2" name),
    (matcherMatches "purse" name); simpl; split; intros H;
    try done; try (by left); try (by right); by destruct H.
Qed.

Lemma matcherMatches_plain (m name : string) :
  trailingStart m = false -> trailingEnd m = false ->
  matcherMatches m name = String.eqb name m.
Proof. intros H1 H2. unfold matcherMatches. by rewrite H1, H2. Qed.

(** X3.  The unit a leaderboard is served with is the unit the same name
    has as a profile statistic: [getLeaderboardUnit] never disagrees with
    [getStatUnit], whose tables only add matchers. *)
Theorem leaderboard_unit_is_stat_unit (name unitName : string) :
  Database.getLeaderboardUnit name = Some unitName ->
  getStatUnit name = Some unitName.
Proof.
  unfold Database.getLeaderboardUnit, getStatUnit, Database.leaderboardUnits, statUnits.
  cbn [existsb unitIn].
  destruct (matcherMatches "_best_time" name) eqn:E1; [done |].
  destruct (matcherMatches "_best_time_2" name) eqn:E2; [done |].
  rewrite !(matcherMatches_plain "first_join"), !(matcherMatches_plain "purse"),
    !(matcherMatches_plain "fastest_coop_join"),
    !(matcherMatches_plain "slowest_coop_join"),
    !(matcherMatches_plain "last_save") by done.
  cbn [orb].
  destruct (String.eqb_spec name "first_join") as [-> | _]; [done |].
  destruct (String.eqb_spec name "purse") as [-> | _]; [done |].
  done.
Qed.

Lemma leaderboard_unit_sample : getStatUnit "dungeon_hub_best_time" = Some "time".
Proof. apply leaderboard_unit_is_stat_unit. reflexivity. Defined.

End CategoryFacts.

(** ** Fetches, requirements and whole updates *)

Module UpdateFacts.
Import JsArray Database ArrayFacts DatabaseFacts CommitFacts LeaderboardFacts
  DebounceFacts Samples MoreSamples.

(** ** Steps of a computation *)

Lemma bind_inv {A B} (c : M A) (k : A -> M B) (s s' : State) (o : Outcome B) :
  bind c k s = (o, s') ->
  (c s = (Threw, s') /\ o = Threw)
  \/ exists a s1, c s = (Returned a, s1) /\ k a s1 = (o, s').
Proof.
  unfold bind. destruct (c s) as [[a|] s1].
  - intros H. right. by exists a, s1.
  - intros [= <- <-]. by left.
Qed.

Lemma externalCall_inv (s s' : State) (o : Outcome unit) :
  externalCall s = (o, s') ->
  client s' = client s
  /\ recentlyUpdated s' = recentlyUpdated s
  /\ memberLeaderboardsCollection s' = memberLeaderboardsCollection s
  /\ cachedRawLeaderboards s' = cachedRawLeaderboards s.
Proof.
  intros H. pose proof (externalCall_frame s) as Hf. by rewrite H in Hf.
Qed.

Lemma fetch_cached (name : string) (s : State) (l : list DatabaseLeaderboardItem) :
  cachedRawLeaderboards s !! name = Some l ->
  fetchMemberLeaderboardRaw name s = (Returned l, s).
Proof. intros H. unfold fetchMemberLeaderboardRaw. by rewrite H. Qed.

(** ** The cache of leaderboards *)

(** X4.  A fetch that returns has cached what it returns; as long as the
    leaderboard is cached a fetch returns it and changes nothing, whatever
    the store holds by then and even with the store unavailable; a fetch of
    a leaderboard that is not cached, with the store unavailable, throws
    and changes nothing. *)
Theorem fetch_caches_what_it_returns (name : string) (s s' : State)
    (l : list DatabaseLeaderboardItem) :
  fetchMemberLeaderboardRaw name s = (Returned l, s') ->
  cachedRawLeaderboards s' !! name = Some l
  /\ (forall s2, cachedRawLeaderboards s2 !! name = cachedRawLeaderboards s' !! name ->
        fetchMemberLeaderboardRaw name s2 = (Returned l, s2))
  /\ (forall s0, cachedRawLeaderboards s0 !! name = None -> ioBudget s0 = Some 0%nat ->
        fetchMemberLeaderboardRaw name s0 = (Threw, s0)).
Proof.
  intros H. apply fetchMemberLeaderboardRaw_spec in H as (_ & _ & _ & _ & Hk).
  assert (cachedRawLeaderboards s' !! name = Some l) as Hl
    by by rewrite Hk, lookup_insert_eq.
  split; [done |]. split.
  - intros s2 H2. apply fetch_cached. by rewrite H2.
  - intros s0 Hnone Hdown. unfold fetchMemberLeaderboardRaw, bind, externalCall.
    by rewrite Hnone, Hdown.
Qed.

Lemma fetch_caches_sample :
  let r := fetchMemberLeaderboardRaw "kills_zombie" smallStore in
  cachedRawLeaderboards r.2 !! "kills_zombie" = Some [docB2; docB1; docA]
  /\ (forall s2, cachedRawLeaderboards s2 !! "kills_zombie"
                 = cachedRawLeaderboards r.2 !! "kills_zombie" ->
        fetchMemberLeaderboardRaw "kills_zombie" s2 = (Returned [docB2; docB1; docA], s2))
  /\ (forall s0, cachedRawLeaderboards s0 !! "kills_zombie" = None ->
        ioBudget s0 = Some 0%nat ->
        fetchMemberLeaderboardRaw "kills_zombie" s0 = (Threw, s0)).
Proof.
  intros r.
  refine (fetch_caches_what_it_returns "kills_zombie" smallStore r.2
            [docB2; docB1; docA] _).
  vm_compute. reflexivity.
Defined.

(** ** The requirement of a leaderboard *)

Lemma StronglySorted_last_bound {A} (R : A -> A -> Prop) (l : list A) (i : nat) (x : A) :
  StronglySorted R l -> l !! i = Some x -> Forall (fun y => R y x) (take i l).
Proof.
  intros Hs Hi. rewrite <- (take_drop_middle l i x Hi) in Hs.
  apply StronglySorted_app in Hs as (H & _ & _).
  apply Forall_forall. intros y Hy. apply H; [done | left].
Qed.

(** X5.  In a state the module can reach, the requirement of a leaderboard
    is [null] exactly when fewer than 100 entries are served, and is
    otherwise the value of the 100th entry, which no served entry is worse
    than; it is never [undefined]. *)
Theorem requirement_is_hundredth_value (name : string) (s s' : State)
    (requirement : JsNumber) :
  reachable s ->
  getMemberLeaderboardRequirement name s = (Returned requirement, s') ->
  match requirement with
  | JsNull => (length (servedView s name) < 100)%nat
  | JsNum q =>
      length (servedView s name) = 100%nat
      /\ (stats <$> servedView s name !! 99%nat) ≫= (fun st => st !! name) = Some q
      /\ Forall (fun e => exists v, stats e !! name = Some v
                            /\ if isLeaderboardReversed name then v <= q else q <= v)
           (servedView s name)
  | JsUndefined => False
  end.
Proof.
  intros Hreach Hreq. unfold getMemberLeaderboardRequirement in Hreq.
  apply bind_inv in Hreq as [[_ [=]] | (l & s1 & Hfetch & [= <- <-])].
  pose proof (fetchMemberLeaderboardRaw_hoare name s
                (reachable_mirrorWellFormed s Hreach)) as Hwf.
  rewrite Hfetch in Hwf. destruct Hwf as (_ & _ & Hlen & Hall & Hsorted).
  apply servedView_fetched in Hfetch as [-> _].
  set (l := servedView s name) in *.
  unfold requirementOf, leaderboardMax.
  destruct (Nat.leb_spec 100 (length l)) as [Hfull | Hshort]; [| done].
  assert (length l = 100%nat) as Hl by lia.
  destruct (l !! (100 - 1)%nat) as [item|] eqn:Hitem;
    [| apply lookup_ge_None in Hitem; simpl in Hitem; lia].
  simpl in Hitem.
  assert (hasStatistic name item) as [q Hq].
  { rewrite Forall_forall in Hall. apply Hall. by eapply list_elem_of_lookup_2. }
  rewrite Hq. split; [done |]. split; [by rewrite Hitem; simpl |].
  pose proof (StronglySorted_last_bound _ l 99 item Hsorted Hitem) as Hbound.
  rewrite <- (take_drop_middle l 99 item Hitem).
  apply Forall_app. split.
  - eapply Forall_impl; [exact Hbound |]. intros e He. simpl in He.
    unfold ranksBefore in He. rewrite Hq in He.
    destruct (stats e !! name) as [v|]; [| done]. exists v. split; [done |].
    by destruct (isLeaderboardReversed name).
  - rewrite drop_ge by lia. constructor; [| constructor].
    exists q. split; [done |]. destruct (isLeaderboardReversed name); lia.
Qed.

Lemma requirement_sample :
  length (servedView fullStore "kills_zombie") = 100%nat
  /\ (stats <$> servedView fullStore "kills_zombie" !! 99%nat)
       ≫= (fun st => st !! "kills_zombie") = Some 40
  /\ Forall (fun e => exists v, stats e !! "kills_zombie" = Some v
                        /\ if isLeaderboardReversed "kills_zombie" then v <= 40 else 40 <= v)
       (servedView fullStore "kills_zombie").
Proof.
  refine (requirement_is_hundredth_value "kills_zombie" fullStore
            (getMemberLeaderboardRequirement "kills_zombie" fullStore).2 (JsNum 40) _ _).
  - apply reachable_start. reflexivity.
  - vm_compute. reflexivity.
Defined.

(** ** Applicable attributes *)

(** X6.  On a leaderboard that is full, with a 100th value other than 0,
    [getApplicableAttributes] keeps an attribute of the member exactly when
    its value beats the 100th value strictly: greater, or smaller on a
    reversed leaderboard. *)
Theorem applicable_on_full_leaderboard (member : CleanMember) (s s' : State)
    (kept : gmap string Z) (name : string) (q v : Z) :
  getApplicableAttributes member s = (Returned kept, s') ->
  requirementOf name (servedView s name) = JsNum q ->
  q <> 0 ->
  kept !! name = Some v <->
  getMemberLeaderboardAttributes member !! name = Some v
  /\ if isLeaderboardReversed name then v < q else q < v.
Proof.
  intros Hget Hreq Hq. unfold getApplicableAttributes in Hget.
  rewrite (applicableLoop_spec _ _ _ _ _ (NoDup_fst_map_to_list _)
             (fun _ _ => lookup_empty _) Hget).
  rewrite elem_of_map_to_list, lookup_empty, Hreq, isApplicable_filled by done.
  destruct (isLeaderboardReversed name).
  - rewrite Z.ltb_lt. split; [intros [? | [_ [=]]]; done | by left].
  - rewrite Z.ltb_lt. split; [intros [? | [_ [=]]]; done | by left].
Qed.

Lemma applicable_on_full_sample :
  ({[ "kills_zombie" := 50 ]} : gmap string Z) !! "kills_zombie" = Some 50 <->
  getMemberLeaderboardAttributes zombieSlayer !! "kills_zombie" = Some 50
  /\ if isLeaderboardReversed "kills_zombie" then 50 < 40 else 40 < 50.
Proof.
  refine (applicable_on_full_leaderboard zombieSlayer fullStore
            (getApplicableAttributes zombieSlayer fullStore).2
            {[ "kills_zombie" := 50 ]} "kills_zombie" 40 50 _ _ _).
  - vm_compute. reflexivity.
  - vm_compute. reflexivity.
  - discriminate.
Defined.

Lemma applicableLoop_cache (entries : list (string * Z)) (acc kept : gmap string Z)
    (s s' : State) :
  applicableLoop entries acc s = (Returned kept, s') ->
  memberLeaderboardsCollection s' = memberLeaderboardsCollection s
  /\ forall n,
       cachedRawLeaderboards s' !! n =
       if decide (n ∈ entries.*1) then Some (servedView s n)
       else cachedRawLeaderboards s !! n.
Proof.
  revert acc s. induction entries as [|[n0 v0] entries IH]; intros acc s.
  - intros [= <- <-]. split; [done |]. intros n.
    by rewrite decide_False by apply not_elem_of_nil.
  - cbn [applicableLoop]. intros H.
    apply bind_inv in H as [[_ [=]] | (req & s1 & Hreq & Hrest)].
    unfold getMemberLeaderboardRequirement in Hreq.
    apply bind_inv in Hreq as [[_ [=]] | (l & s1' & Hfetch & [= _ ->])].
    pose proof Hfetch as Hspec.
    apply fetchMemberLeaderboardRaw_spec in Hspec as (Hm1 & _ & _ & -> & Hk1).
    apply servedView_fetched in Hfetch as [_ Hview].
    apply IH in Hrest as [Hm Hk]. split; [congruence |].
    intros n. rewrite Hk, Hview, Hk1, fmap_cons. simpl.
    destruct (decide (n = n0)) as [-> | Hne].
    + rewrite (decide_True (P := n0 ∈ n0 :: entries.*1)) by left.
      rewrite lookup_insert_eq. by case_decide.
    + rewrite lookup_insert_ne by done.
      destruct (decide (n ∈ entries.*1)) as [Hin | Hin].
      * by rewrite decide_True by by right.
      * by rewrite decide_False by (by intros [? | ?]%elem_of_cons).
Qed.

Lemma kept_attributes_cached (member : CleanMember) (s s' : State)
    (kept : gmap string Z) :
  getApplicableAttributes member s = (Returned kept, s') ->
  memberLeaderboardsCollection s' = memberLeaderboardsCollection s
  /\ forall n, is_Some (kept !! n) -> is_Some (cachedRawLeaderboards s' !! n).
Proof.
  intros Hget. unfold getApplicableAttributes in Hget.
  pose proof (applicableLoop_cache _ _ _ _ _ Hget) as [Hm Hk].
  split; [done |]. intros n [v Hv]. rewrite Hk, decide_True; [by eexists |].
  apply elem_of_map_to_list_keys. exists v.
  apply (applicableLoop_spec _ _ _ _ _ (NoDup_fst_map_to_list _)
           (fun _ _ => lookup_empty _) Hget) in Hv
    as [[Hin _] | [_ Hv]]; [by apply elem_of_map_to_list | by rewrite lookup_empty in Hv].
Qed.

(** X7.  [getApplicableAttributes], when it returns, has written nothing
    to the collection, has kept only attributes of the member, with their
    values, and leaves the leaderboard of every attribute name of the member
    cached, along with every leaderboard that was cached before: nothing
    takes a leaderboard out of the cache. *)
Theorem applicable_attributes_leave_cache_filled (member : CleanMember) (s s' : State)
    (kept : gmap string Z) :
  getApplicableAttributes member s = (Returned kept, s') ->
  memberLeaderboardsCollection s' = memberLeaderboardsCollection s
  /\ kept ⊆ getMemberLeaderboardAttributes member
  /\ (forall n, is_Some (getMemberLeaderboardAttributes member !! n) ->
        is_Some (cachedRawLeaderboards s' !! n))
  /\ (forall n, is_Some (cachedRawLeaderboards s !! n) ->
        is_Some (cachedRawLeaderboards s' !! n)).
Proof.
  intros Hget. unfold getApplicableAttributes in Hget.
  pose proof (applicableLoop_cache _ _ _ _ _ Hget) as [Hm Hk].
  split; [done |]. split; [| split].
  - apply map_subseteq_spec. intros n v Hv.
    apply (applicableLoop_spec _ _ _ _ _ (NoDup_fst_map_to_list _)
             (fun _ _ => lookup_empty _) Hget) in Hv
      as [[Hin _] | [_ Hv]]; [by apply elem_of_map_to_list | by rewrite lookup_empty in Hv].
  - intros n Hn. rewrite Hk, decide_True; [by eexists |].
    by apply elem_of_map_to_list_keys.
  - intros n Hn. rewrite Hk. by case_decide.
Qed.

Lemma applicable_attributes_sample :
  let s' := (getApplicableAttributes zombieSlayer fullStore).2 in
  memberLeaderboardsCollection s' = memberLeaderboardsCollection fullStore
  /\ ({[ "kills_zombie" := 50 ]} : gmap string Z)
       ⊆ getMemberLeaderboardAttributes zombieSlayer
  /\ (forall n, is_Some (getMemberLeaderboardAttributes zombieSlayer !! n) ->
        is_Some (cachedRawLeaderboards s' !! n))
  /\ (forall n, is_Some (cachedRawLeaderboards fullStore !! n) ->
        is_Some (cachedRawLeaderboards s' !! n)).
Proof.
  intros s'.
  refine (applicable_attributes_leave_cache_filled zombieSlayer fullStore s'
            {[ "kills_zombie" := 50 ]} _).
  vm_compute. reflexivity.
Defined.

(** ** Whole updates *)

Lemma applicableLoop_collection (entries : list (string * Z)) (acc : gmap string Z)
    (s : State) :
  memberLeaderboardsCollection (applicableLoop entries acc s).2
  = memberLeaderboardsCollection s.
Proof.
  revert acc s. induction entries as [|[n0 v0] entries IH]; intros acc s; [done |].
  cbn [applicableLoop]. unfold bind at 1. unfold getMemberLeaderboardRequirement.
  unfold bind at 1.
  destruct (fetchMemberLeaderboardRaw n0 s) as [[l|] s1] eqn:Hfetch;
    apply fetchMemberLeaderboardRaw_spec in Hfetch as (Hm & _); simpl; [| done].
  by rewrite IH.
Qed.

Lemma commit_loop_returns (u : string) (attrs : gmap string Z) (patchedAt : string -> Z)
    (entries : list (string * Z)) (s : State) :
  (forall n, n ∈ entries.*1 -> is_Some (cachedRawLeaderboards s !! n)) ->
  exists s',
    forEach entries
      (fun entry =>
         let attributeName := entry.1 in
         let! existingRawLeaderboard := fetchMemberLeaderboardRaw attributeName in
         setCachedRawLeaderboard attributeName
           (patchRawLeaderboard attributeName u attrs (patchedAt attributeName)
              existingRawLeaderboard)) s
    = (Returned tt, s').
Proof.
  revert s. induction entries as [|[n0 v0] entries IH]; intros s Hcached.
  - by exists s.
  - cbn [forEach]. unfold bind at 1. cbn [fst]. unfold bind at 1.
    destruct (Hcached n0) as [l Hl]; [left |].
    rewrite (fetch_cached n0 s l Hl). cbn [setCachedRawLeaderboard].
    apply IH. intros n Hn. simpl. rewrite lookup_insert. case_decide; [by eexists |].
    apply Hcached. by right.
Qed.

Lemma commitMember_threw (u p : string) (attrs : gmap string Z) (upsertedAt : Z)
    (patchedAt : string -> Z) (s s' : State) :
  (forall n, is_Some (attrs !! n) -> is_Some (cachedRawLeaderboards s !! n)) ->
  commitMember u p attrs upsertedAt patchedAt s = (Threw, s') ->
  s' = s /\ ioBudget s = Some 0%nat.
Proof.
  intros Hcached. unfold commitMember, updateOne. unfold bind at 1. unfold bind at 1.
  unfold externalCall at 1.
  destruct (ioBudget s) as [[|k]|] eqn:Hb.
  - by intros [= <-].
  - match goal with
    | |- forEach ?es ?body ?s1 = _ -> _ =>
        destruct (commit_loop_returns u attrs patchedAt es s1) as [s2 Hs2]
    end.
    + intros n Hn. simpl. apply Hcached. by apply elem_of_map_to_list_keys.
    + intros H.
      assert ((Returned tt, s2) = (@Threw unit, s')) as Habs
        by (etransitivity; [symmetry; exact Hs2 | exact H]).
      discriminate Habs.
  - match goal with
    | |- forEach ?es ?body ?s1 = _ -> _ =>
        destruct (commit_loop_returns u attrs patchedAt es s1) as [s2 Hs2]
    end.
    + intros n Hn. simpl. apply Hcached. by apply elem_of_map_to_list_keys.
    + intros H.
      assert ((Returned tt, s2) = (@Threw unit, s')) as Habs
        by (etransitivity; [symmetry; exact Hs2 | exact H]).
      discriminate Habs.
Qed.

(** X8.  An update that throws has written nothing to the collection:
    the upsert is the only write and nothing after it can fail, every
    leaderboard the patches read having been cached while the applicable
    attributes were computed. *)
Theorem failed_update_writes_nothing (member : CleanMember)
    (profile : CleanFullProfile) (now : Z) (s s' : State) :
  updateDatabaseMember member profile now s = (Threw, s') ->
  memberLeaderboardsCollection s' = memberLeaderboardsCollection s.
Proof.
  unfold updateDatabaseMember.
  destruct (negb (client s)); [done |].
  destruct (recentlyUpdatedGet _ now s); [done |].
  unfold bind at 1. cbn [recentlyUpdatedSet].
  set (marked := mkState _ _ _ _ _).
  change (memberLeaderboardsCollection s) with (memberLeaderboardsCollection marked).
  generalize marked. clear marked. intros s0 H. unfold constantsAdd in H.
  apply bind_inv in H as [[H _] | ([] & s1 & H1 & H)];
    [by apply externalCall_inv in H as (_ & _ & ? & _) |].
  apply externalCall_inv in H1 as (_ & _ & <- & _).
  apply bind_inv in H as [[H _] | ([] & s2 & H2 & H)];
    [by apply externalCall_inv in H as (_ & _ & ? & _) |].
  apply externalCall_inv in H2 as (_ & _ & <- & _).
  apply bind_inv in H as [[H _] | ([] & s3 & H3 & H)];
    [by apply externalCall_inv in H as (_ & _ & ? & _) |].
  apply externalCall_inv in H3 as (_ & _ & <- & _).
  apply bind_inv in H as [[H _] | ([] & s4 & H4 & H)];
    [by apply externalCall_inv in H as (_ & _ & ? & _) |].
  apply externalCall_inv in H4 as (_ & _ & <- & _).
  apply bind_inv in H as [[H _] | (attrs & s5 & H5 & H)].
  - unfold getApplicableAttributes in H.
    pose proof (applicableLoop_collection
                  (map_to_list (getMemberLeaderboardAttributes member)) ∅ s4) as Hc.
    by rewrite H in Hc.
  - pose proof (kept_attributes_cached _ _ _ _ H5) as [Hm Hk].
    by apply commitMember_threw in H as [-> _].
Qed.

Lemma failed_update_writes_nothing_sample :
  memberLeaderboardsCollection (updateDatabaseMember zombieSlayer profile1 1000 flakyStore).2
  = memberLeaderboardsCollection flakyStore.
Proof.
  refine (failed_update_writes_nothing zombieSlayer profile1 1000 flakyStore _ _).
  vm_compute. reflexivity.
Defined.

(** X9.  What an update that passes the connection test and the recently
    updated test and returns has written to the collection is one upsert,
    under the uuid of the member and that of the profile, of attributes the
    member has, with the values it has them with -- never an attribute the
    member does not have; and every leaderboard named by what it stored is
    cached when it returns. *)
Theorem completed_update_writes_one_upsert (member : CleanMember)
    (profile : CleanFullProfile) (now : Z) (s s' : State) :
  client s = true ->
  recentlyUpdatedGet (p_uuid profile +:+ m_uuid member) now s = false ->
  updateDatabaseMember member profile now s = (Returned tt, s') ->
  exists (kept : gmap string Z) (upsertedAt : Z),
    kept ⊆ getMemberLeaderboardAttributes member
    /\ memberLeaderboardsCollection s'
       = upsertMember (memberLeaderboardsCollection s) (m_uuid member) (p_uuid profile)
           kept upsertedAt
    /\ (forall n, is_Some (kept !! n) -> is_Some (cachedRawLeaderboards s' !! n)).
Proof.
  intros Hclient Hgate. unfold updateDatabaseMember. rewrite Hclient, Hgate.
  cbn [negb]. unfold bind at 1. cbn [recentlyUpdatedSet].
  set (marked := mkState _ _ _ _ _).
  assert (memberLeaderboardsCollection marked = memberLeaderboardsCollection s)
    as Hm by done.
  revert Hm. generalize marked. clear marked. intros s0 Hm H.
  unfold constantsAdd in H.
  apply bind_inv in H as [[_ [=]] | ([] & s1 & H1 & H)].
  apply externalCall_inv in H1 as (_ & _ & Hm1 & _).
  apply bind_inv in H as [[_ [=]] | ([] & s2 & H2 & H)].
  apply externalCall_inv in H2 as (_ & _ & Hm2 & _).
  apply bind_inv in H as [[_ [=]] | ([] & s3 & H3 & H)].
  apply externalCall_inv in H3 as (_ & _ & Hm3 & _).
  apply bind_inv in H as [[_ [=]] | ([] & s4 & H4 & H)].
  apply externalCall_inv in H4 as (_ & _ & Hm4 & _).
  apply bind_inv in H as [[_ [=]] | (kept & s5 & H5 & H)].
  exists kept, now. split; [| split].
  - apply map_subseteq_spec. intros n v Hv. unfold getApplicableAttributes in H5.
    apply (applicableLoop_spec _ _ _ _ _ (NoDup_fst_map_to_list _)
             (fun _ _ => lookup_empty _) H5) in Hv
      as [[Hin _] | [_ Hv]]; [by apply elem_of_map_to_list | by rewrite lookup_empty in Hv].
  - apply kept_attributes_cached in H5 as [Hm5 _].
    apply commitMember_spec in H as [-> _]. congruence.
  - intros n Hn. apply commitMember_spec in H as [_ Hk].
    rewrite Hk, decide_True by done. by eexists.
Qed.

Lemma completed_update_sample :
  exists (kept : gmap string Z) (upsertedAt : Z),
    kept ⊆ getMemberLeaderboardAttributes zombieSlayer
    /\ memberLeaderboardsCollection
         (updateDatabaseMember zombieSlayer profile1 1000 fullStore).2
       = upsertMember (memberLeaderboardsCollection fullStore)
           (m_uuid zombieSlayer) (p_uuid profile1) kept upsertedAt
    /\ (forall n, is_Some (kept !! n) ->
          is_Some (cachedRawLeaderboards
                     (updateDatabaseMember zombieSlayer profile1 1000 fullStore).2 !! n)).
Proof.
  refine (completed_update_writes_one_upsert zombieSlayer profile1 1000 fullStore
            (updateDatabaseMember zombieSlayer profile1 1000 fullStore).2 _ _ _).
  - reflexivity.
  - reflexivity.
  - vm_compute. reflexivity.
Defined.

(** X10.  After an update that passed the connection test and the recently
    updated test, whether it returned or threw, every update of the same
    profile and member before three minutes have passed returns at once and
    changes nothing; one that comes after the three minutes passes the test
    again and marks the key anew, for three minutes from then. *)
Theorem update_suppressed_until_expiry (member : CleanMember)
    (profile : CleanFullProfile) (now : Z) (s : State) :
  client s = true ->
  recentlyUpdatedGet (p_uuid profile +:+ m_uuid member) now s = false ->
  let s' := (updateDatabaseMember member profile now s).2 in
  (forall later, now <= later < now + recentlyUpdatedTTL ->
     updateDatabaseMember member profile later s' = (Returned tt, s'))
  /\ (forall later, now + recentlyUpdatedTTL < later ->
        recentlyUpdated (updateDatabaseMember member profile later s').2
          !! (p_uuid profile +:+ m_uuid member)
        = Some (later + recentlyUpdatedTTL)).
Proof.
  intros Hclient Hgate s'.
  assert (client s' = true
          /\ recentlyUpdated s'
             = <[p_uuid profile +:+ m_uuid member := now + recentlyUpdatedTTL]>
                 (recentlyUpdated s)) as [Hc' Hr'].
  { subst s'. unfold updateDatabaseMember. rewrite Hclient, Hgate. cbn [negb].
    unfold bind at 1. cbn [recentlyUpdatedSet].
    match goal with
    | |- context [ bind constantsAdd ?k ?s0 ] =>
        destruct (quiet_update_rest member profile now s0) as [Hq1 Hq2]
    end.
    split; [exact (eq_trans Hq1 Hclient) | exact Hq2]. }
  clearbody s'. split.
  - intros later Hlater. unfold updateDatabaseMember. rewrite Hc'. cbn [negb].
    unfold recentlyUpdatedGet. rewrite Hr', lookup_insert_eq.
    destruct (Z.leb_spec later (now + recentlyUpdatedTTL)); [done | lia].
  - intros later Hlater. unfold updateDatabaseMember. rewrite Hc'. cbn [negb].
    unfold recentlyUpdatedGet at 1. rewrite Hr', lookup_insert_eq.
    destruct (Z.leb_spec later (now + recentlyUpdatedTTL)); [lia |].
    unfold bind at 1. cbn [recentlyUpdatedSet].
    match goal with
    | |- context [ bind constantsAdd ?k ?s0 ] =>
        destruct (quiet_update_rest member profile later s0) as [_ Hq2]
    end.
    etransitivity; [exact (f_equal (fun m => m !! _) Hq2) |].
    simpl. by rewrite lookup_insert_eq.
Qed.

Lemma update_suppressed_sample :
  let s' := (updateDatabaseMember zombieSlayer profile1 1000 fullStore).2 in
  (forall later, 1000 <= later < 1000 + recentlyUpdatedTTL ->
     updateDatabaseMember zombieSlayer profile1 later s' = (Returned tt, s'))
  /\ (forall later, 1000 + recentlyUpdatedTTL < later ->
        recentlyUpdated (updateDatabaseMember zombieSlayer profile1 later s').2
          !! (p_uuid profile1 +:+ m_uuid zombieSlayer)
        = Some (later + recentlyUpdatedTTL)).
Proof.
  refine (update_suppressed_until_expiry zombieSlayer profile1 1000 fullStore _ _);
    reflexivity.
Defined.

(** ** A commit seen on the cached leaderboard *)

Lemma elem_take_placeLast {A} (cmp : A -> A -> Z) (e : A) (n : nat) (l : list A) :
  (length (filter (fun y => (cmp y e <= 0)%Z) l) < n)%nat ->
  e ∈ take n (placeLast cmp e l).
Proof.
  revert n. induction l as [|y l IH]; intros n Hn.
  - destruct n as [|n]; [simpl in Hn; lia | left].
  - simpl. rewrite filter_cons in Hn.
    destruct (Z.leb_spec (cmp y e) 0) as [Hle | Hgt].
    + rewrite decide_True in Hn by done. simpl in Hn.
      destruct n as [|n]; [lia |]. simpl. right. apply IH. lia.
    + destruct n as [|n]; [lia | left].
Qed.

Lemma length_take_placeLast {A} (cmp : A -> A -> Z) (e : A) (n : nat) (l : list A) :
  length (take n (placeLast cmp e l)) = Nat.min n (S (length l)).
Proof. by rewrite length_take, placeLast_perm. Qed.

Lemma count_before_worse (name : string) (e x : DatabaseLeaderboardItem)
    (Q : DatabaseLeaderboardItem -> Prop) `{!forall d, Decision (Q d)}
    (l : list DatabaseLeaderboardItem) (i : nat) :
  hasStatistic name e ->
  Forall (hasStatistic name) l ->
  StronglySorted (fun a b => rankOf name a <= rankOf name b) l ->
  l !! i = Some x -> rankOf name e < rankOf name x ->
  (length (filter (fun y => (compareItems (isLeaderboardReversed name) name y e <= 0)%Z)
             (filter Q l)) <= i)%nat.
Proof.
  intros He. revert i. induction l as [|y l IH]; intros i Hall Hs Hi Hlt; [done |].
  apply Forall_cons in Hall as [Hy Hall].
  apply StronglySorted_cons in Hs as [Hyl Hs].
  destruct i as [|i].
  - injection Hi as ->.
    assert (Forall (fun z => ~ compareItems (isLeaderboardReversed name) name z e <= 0)
              (x :: l)) as Hnone.
    { constructor.
      - rewrite compareItems_rank by done. lia.
      - rewrite Forall_forall in *. intros z Hz.
        rewrite compareItems_rank by auto. specialize (Hyl z Hz). simpl in Hyl. lia. }
    apply (Forall_filter_keep _ Q) in Hnone.
    induction Hnone as [|z k Hz _ IHk]; [done |].
    by rewrite filter_cons_False.
  - simpl in Hi. specialize (IH i Hall Hs Hi Hlt).
    rewrite (filter_cons Q). destruct (decide (Q y)); [| lia].
    rewrite filter_cons. case_decide; simpl; lia.
Qed.

Local Open Scope list_scope.

(** Where [placeLast] puts an entry on a served leaderboard: after the
    entries that rank no worse, before those that rank worse. *)
Lemma placeLast_split (name : string) (e : DatabaseLeaderboardItem)
    (l : list DatabaseLeaderboardItem) :
  hasStatistic name e ->
  Forall (hasStatistic name) l ->
  StronglySorted (fun a b => rankOf name a <= rankOf name b) l ->
  exists before after,
    l = before ++ after
    /\ Forall (fun y => rankOf name y <= rankOf name e) before
    /\ Forall (fun y => rankOf name e < rankOf name y) after
    /\ placeLast (compareItems (isLeaderboardReversed name) name) e l
       = before ++ e :: after.
Proof.
  intros He. induction l as [|y l IH]; intros Hall Hs.
  - exists [], []. by repeat split.
  - apply Forall_cons in Hall as [Hy Hall].
    apply StronglySorted_cons in Hs as [Hyl Hs]. cbn [placeLast].
    destruct (Z.leb_spec (compareItems (isLeaderboardReversed name) name y e) 0)
      as [Hle | Hgt].
    + destruct (IH Hall Hs) as (before & after & -> & Hb & Ha & ->).
      exists (y :: before), after. split; [done |]. split; [| done].
      constructor; [| done]. by apply compareItems_rank.
    + exists [], (y :: l). split; [done |]. split; [constructor |]. split; [| done].
      assert (rankOf name e < rankOf name y) as Hlt.
      { destruct (Z.le_gt_cases (rankOf name y) (rankOf name e)) as [H | H]; [| lia].
        apply (compareItems_rank name y e Hy He) in H. lia. }
      constructor; [done |]. rewrite Forall_forall in *. intros z Hz.
      specialize (Hyl z Hz). simpl in Hyl. lia.
Qed.

(** X11.  The list [updateDatabaseMember] caches for an attribute, from the
    leaderboard it was served -- entries carrying the statistic, in ranking
    order: the entries of the other members, all of them and in their order,
    with the new entry of the member put after those that rank no worse than
    it and before those that rank worse, cut to the first 100.  The new
    entry is on it exactly when fewer than 100 entries of other members rank
    no worse, as is the case when fewer than 100 were served, or when the
    value beats the value of the 100th served entry strictly. *)
Theorem patched_leaderboard_contents (name u : string) (attrs : gmap string Z)
    (now : Z) (existing : list DatabaseLeaderboardItem) (v : Z) :
  attrs !! name = Some v ->
  servedInOrder name existing ->
  let entry := mkItem u None attrs now in
  let others := filter (fun e => uuid e <> u) existing in
  let patched := patchRawLeaderboard name u attrs now existing in
  exists before after,
    others = before ++ after
    /\ Forall (fun e => ranksBefore name e entry) before
    /\ Forall (fun e => ~ ranksBefore name e entry) after
    /\ patched = take 100 (before ++ entry :: after)
    /\ length patched = Nat.min 100 (S (length others))
    /\ (entry ∈ patched <-> (length before < 100)%nat)
    /\ ((length others < 100)%nat
        \/ (exists q, requirementOf name existing = JsNum q
                      /\ if isLeaderboardReversed name then v < q else q < v) ->
        entry ∈ patched).
Proof.
  intros Hv Hord entry others patched.
  assert (hasStatistic name entry) as Hentry by by exists v.
  assert (patched
          = take 100 (placeLast (compareItems (isLeaderboardReversed name) name)
                        entry others)) as Hpatched
    by (apply patchRawLeaderboard_placeLast; [by eexists | done]).
  pose proof Hord as [Hall Hsorted]%servedInOrder_rank.
  assert (Forall (hasStatistic name) others) as Hall' by by apply Forall_filter_keep.
  destruct (placeLast_split name entry others) as (before & after & Hsplit & Hb & Ha & Hplace);
    [done | done | by apply StronglySorted_filter |].
  assert (Forall (fun e => uuid e <> u) (before ++ after)) as Hothers.
  { rewrite <- Hsplit. apply Forall_forall. intros e He.
    by apply list_elem_of_filter in He as [? _]. }
  apply Forall_app in Hothers as [Hubefore Huafter].
  assert (entry ∈ patched <-> (length before < 100)%nat) as Hiff.
  { rewrite Hpatched, Hplace, elem_of_take. split.
    - intros (i & Hi & Hlt).
      destruct (Nat.lt_trichotomy i (length before)) as [Hlow | [-> | Hhigh]]; [| done |].
      + rewrite lookup_app_l in Hi by done. apply list_elem_of_lookup_2 in Hi.
        rewrite Forall_forall in Hubefore. by destruct (Hubefore entry Hi).
      + rewrite lookup_app_r in Hi by lia.
        destruct (i - length before)%nat as [|k] eqn:Hk; [lia |]. simpl in Hi.
        apply list_elem_of_lookup_2 in Hi.
        rewrite Forall_forall in Huafter. by destruct (Huafter entry Hi).
    - intros Hlt. exists (length before). split; [| done].
      by rewrite lookup_app_r, Nat.sub_diag. }
  exists before, after. split; [done |]. split; [| split; [| split; [| split; [| split]]]].
  - rewrite Hsplit in Hall'. apply Forall_app in Hall' as [Hsb _].
    rewrite Forall_forall in *. intros e He. apply ranksBefore_rank; auto.
  - rewrite Hsplit in Hall'. apply Forall_app in Hall' as [_ Hsa].
    rewrite Forall_forall in *. intros e He Hrank.
    apply ranksBefore_rank in Hrank; auto. specialize (Ha e He). simpl in Ha. lia.
  - by rewrite Hpatched, Hplace.
  - rewrite Hpatched. apply length_take_placeLast.
  - done.
  - intros Hcase. rewrite Hpatched. apply elem_take_placeLast.
    destruct Hcase as [Hfew | (q & Hreq & Hbeats)].
    + eapply Nat.le_lt_trans; [apply length_filter | done].
    + unfold requirementOf, leaderboardMax in Hreq.
      destruct (Nat.leb_spec 100 (length existing)) as [Hfull | ?]; [| done].
      destruct (existing !! (100 - 1)%nat) as [item|] eqn:Hitem; [| done].
      destruct (stats item !! name) as [q'|] eqn:Hq; [| done].
      injection Hreq as ->. simpl in Hitem.
      apply Nat.lt_succ_r.
      apply (count_before_worse name _ item _ existing 99); try done.
      unfold rankOf. simpl. rewrite Hv, Hq.
      destruct (isLeaderboardReversed name); lia.
Qed.

Lemma patched_leaderboard_sample :
  let attrs : gmap string Z := {[ "kills_zombie" := 50 ]} in
  let existing := servedView fullStore "kills_zombie" in
  let entry := mkItem "6536bfed" None attrs 1000 in
  let others := filter (fun e => uuid e <> "6536bfed") existing in
  let patched := patchRawLeaderboard "kills_zombie" "6536bfed" attrs 1000 existing in
  exists before after,
    others = before ++ after
    /\ Forall (fun e => ranksBefore "kills_zombie" e entry) before
    /\ Forall (fun e => ~ ranksBefore "kills_zombie" e entry) after
    /\ patched = take 100 (before ++ entry :: after)
    /\ length patched = Nat.min 100 (S (length others))
    /\ (entry ∈ patched <-> (length before < 100)%nat)
    /\ ((length others < 100)%nat
        \/ (exists q, requirementOf "kills_zombie" existing = JsNum q
                      /\ if isLeaderboardReversed "kills_zombie" then 50 < q else q < 50) ->
        entry ∈ patched).
Proof.
  intros attrs existing.
  refine (patched_leaderboard_contents "kills_zombie" "6536bfed" attrs 1000 existing 50 _ _).
  - reflexivity.
  - apply findSortLimit_served.
Defined.

(** The scenario with the numbers of the sample store: 100 entries from 139
    down to 40; the patch for 50 kills has 100 entries, the new one the 90th
    of them, and the entry with 40 kills gone. *)
Example patched_leaderboard_numbers :
  let attrs : gmap string Z := {[ "kills_zombie" := 50 ]} in
  let patched :=
    patchRawLeaderboard "kills_zombie" "6536bfed" attrs 1000
      (servedView fullStore "kills_zombie") in
  ((fun e => stats e !! "kills_zombie") <$> patched) !! 89%nat = Some (Some 50)
  /\ length patched = 100%nat
  /\ last ((fun e => stats e !! "kills_zombie") <$> patched) = Some (Some 41).
Proof. split; [| split]; vm_compute; reflexivity. Qed.

End UpdateFacts.

Module ListingFacts.
Import JsArray Database ArrayFacts DatabaseFacts CommitFacts LeaderboardFacts
  Samples MoreSamples Leaderboards UpdateFacts.
Local Open Scope list_scope.

(** ** The names of the leaderboards *)

Lemma foldl_insert_keys (pre : string) (l : list (string * Z)) (acc : gmap string Z)
    (k : string) :
  is_Some (foldl (fun acc c => <[pre +:+ c.1 := c.2]> acc) acc l !! k)
  <-> is_Some (acc !! k) \/ exists c, c ∈ l /\ k = pre +:+ c.1.
Proof.
  revert acc. induction l as [|c l IH]; intros acc; simpl.
  - split; [by left | intros [? | (c & Hc & _)]; [done | by apply elem_of_nil in Hc]].
  - rewrite IH, lookup_insert_is_Some. split.
    + intros [[<- | [_ ?]] | (c' & Hc' & ->)].
      * right. exists c. split; [left | done].
      * by left.
      * right. exists c'. split; [by right | done].
    + intros [? | (c' & Hc' & ->)].
      * destruct (decide (pre +:+ c.1 = k)); [left; by left | left; by right].
      * apply elem_of_cons in Hc' as [-> | Hc']; [left; by left |].
        right. by exists c'.
Qed.

(** X12.  Every leaderboard name under which a member has an attribute is
    one of the names [fetchAllMemberLeaderboardAttributes] lists, once the
    member's raw stat names, collection names and skill names are among the
    known ones. *)
Theorem member_attributes_are_listed (member : CleanMember)
    (fetchedStats fetchedCollections fetchedSkills : list string) (name : string) :
  (forall k, is_Some (rawHypixelStats member !! k) -> k ∈ fetchedStats) ->
  (forall c, c ∈ collections member -> c.1 ∈ fetchedCollections) ->
  (forall c, c ∈ skills member -> c.1 ∈ fetchedSkills) ->
  is_Some (getMemberLeaderboardAttributes member !! name) ->
  name ∈ fetchAllMemberLeaderboardAttributes fetchedStats fetchedCollections fetchedSkills.
Proof.
  intros Hstats Hcolls Hskills.
  unfold getMemberLeaderboardAttributes, fetchAllMemberLeaderboardAttributes.
  rewrite !lookup_insert_is_Some, !lookup_union_is_Some.
  unfold getMemberSkillAttributes, getMemberCollectionAttributes.
  rewrite !foldl_insert_keys, !elem_of_app, !list_elem_of_fmap, lookup_empty.
  intros [<- | [_ [<- | [_ [<- | [_ [<- | [_ H]]]]]]]].
  - do 3 right. do 3 right. left.
  - do 3 right. do 2 right. left.
  - do 3 right. right. left.
  - do 3 right. left.
  - destruct H as [[[? ?] | (c & Hc & ->)] | [[[? ?] | (c & Hc & ->)] | H]]; try done.
    + right. right. left. exists c.1. split; [done | by apply Hskills].
    + right. left. exists c.1. split; [done | by apply Hcolls].
    + left. by apply Hstats.
Qed.

Lemma member_attributes_listed_sample :
  "collection_wheat" ∈ fetchAllMemberLeaderboardAttributes ["kills_zombie"] ["wheat"] ["farming"].
Proof.
  apply (member_attributes_are_listed zombieSlayer ["kills_zombie"] ["wheat"] ["farming"]).
  - intros k [v Hk]. unfold zombieSlayer in Hk. simpl in Hk.
    apply lookup_singleton_Some in Hk as [<- _]. left.
  - intros c Hc. apply list_elem_of_singleton in Hc as ->. left.
  - intros c Hc. apply list_elem_of_singleton in Hc as ->. left.
  - vm_compute. by eexists.
Defined.

(** ** The leaderboards by category *)

Lemma lookupKey_push (category leaderboard key : string)
    (obj : list (string * list string)) :
  lookupKey key (pushLeaderboard category leaderboard obj)
  = if decide (key = category)
    then Some (default [] (lookupKey category obj) ++ [leaderboard])
    else lookupKey key obj.
Proof.
  induction obj as [|[c l] obj IH]; simpl.
  - destruct (String.eqb_spec category key) as [-> | Hne].
    + by rewrite decide_True.
    + by rewrite decide_False.
  - destruct (String.eqb_spec c category) as [-> | Hc]; simpl.
    + destruct (String.eqb_spec category key) as [-> | Hne].
      * by rewrite decide_True.
      * by rewrite decide_False.
    + destruct (String.eqb_spec c key) as [-> | Hk].
      * by rewrite decide_False.
      * apply IH.
Qed.

Lemma keys_push (category leaderboard : string) (obj : list (string * list string)) :
  (pushLeaderboard category leaderboard obj).*1
  = if decide (category ∈ obj.*1) then obj.*1 else obj.*1 ++ [category].
Proof.
  induction obj as [|[c l] obj IH].
  - by destruct (decide (category ∈ [].*1)) as [Hin%elem_of_nil |].
  - cbn [pushLeaderboard]. destruct (String.eqb_spec c category) as [-> | Hc].
    + rewrite !fmap_cons. cbn [fst]. by rewrite decide_True by left.
    + rewrite !fmap_cons, IH. cbn [fst].
      destruct (decide (category ∈ obj.*1)) as [Hin | Hin].
      * by rewrite decide_True by by right.
      * by rewrite decide_False by (by intros [? | ?]%elem_of_cons).
Qed.

Lemma lookupKey_elem (obj : list (string * list string)) (c : string) (l : list string) :
  NoDup obj.*1 -> ((c, l) ∈ obj <-> lookupKey c obj = Some l).
Proof.
  induction obj as [|[c0 l0] obj IH]; simpl; intros Hnd.
  - split; [by intros ?%elem_of_nil | done].
  - apply NoDup_cons in Hnd as [Hc0 Hnd].
    rewrite elem_of_cons, (IH Hnd).
    destruct (String.eqb_spec c0 c) as [-> | Hne].
    + split; [intros [[= <-] | Hl]; [done |] | intros [= <-]; by left].
      exfalso. apply Hc0. apply (IH Hnd) in Hl.
      by apply (list_elem_of_fmap_2 fst) in Hl.
    + split; [intros [[= ? ?] | ?]; done | by right].
Qed.

Lemma lookupKey_None (obj : list (string * list string)) (c : string) :
  lookupKey c obj = None <-> c ∉ obj.*1.
Proof.
  induction obj as [|[c0 l0] obj IH]; simpl.
  - split; [intros _; apply not_elem_of_nil | done].
  - rewrite not_elem_of_cons. destruct (String.eqb_spec c0 c) as [-> | Hne].
    + split; [done | by intros [? _]].
    + rewrite IH. split; [by intros ? | by intros [_ ?]].
Qed.

(** The names of one category, in the order of the list; [None] for none. *)
Lemma categorized_loop (names : list string) :
  let obj := foldl (fun obj leaderboard =>
                      pushLeaderboard (categoryKey leaderboard) leaderboard obj)
               [] names in
  NoDup obj.*1
  /\ forall c,
       lookupKey c obj
       = match filter (fun n => categoryKey n = c) names with
         | [] => None
         | l => Some l
         end.
Proof.
  induction names as [|n names IH] using rev_ind; [by split; [constructor |] |].
  rewrite foldl_app. simpl. destruct IH as [Hnd Hlook].
  set (obj := foldl _ [] names) in *. split.
  - rewrite keys_push. case_decide; [done |].
    apply NoDup_app. split; [done |]. split; [| by apply NoDup_singleton].
    intros c Hc ->%list_elem_of_singleton. done.
  - intros c. rewrite lookupKey_push, filter_app, Hlook.
    destruct (decide (c = categoryKey n)) as [-> | Hne].
    + rewrite filter_cons_True, filter_nil by done.
      destruct (filter _ names); [done | by simpl].
    + rewrite filter_cons_False, filter_nil, app_nil_r by done. done.
Qed.

(** X13.  [fetchAllLeaderboardsCategorized] returns every category once,
    ['misc'] last, each with exactly the names that [categorizeStat] puts
    under it, in the order they were listed; a category other than ['misc']
    appears only with a name under it, and ['misc'] without any name is
    there too, with [undefined]. *)
Theorem leaderboards_categorized (names : list string) :
  let result := fetchAllLeaderboardsCategorized names in
  NoDup result.*1
  /\ last result.*1 = Some "misc"
  /\ (forall c o, (c, o) ∈ result ->
        o = match filter (fun n => categoryKey n = c) names with
            | [] => None
            | l => Some l
            end
        /\ (c <> "misc" -> o <> None))
  /\ (forall n, n ∈ names ->
        exists l, (categoryKey n, Some l) ∈ result /\ n ∈ l).
Proof.
  intros result. subst result. unfold fetchAllLeaderboardsCategorized.
  destruct (categorized_loop names) as [Hnd Hlook]. simpl in Hnd, Hlook.
  set (obj := foldl _ [] names) in *.
  assert (forall c l, (c, l) ∈ filter (fun entry => entry.1 <> "misc") obj
                      <-> c <> "misc" /\ lookupKey c obj = Some l) as Hfil.
  { intros c l. rewrite list_elem_of_filter, lookupKey_elem by done. done. }
  assert ((((fun entry : string * list string => (entry.1, Some entry.2))
              <$> filter (fun entry => entry.1 <> "misc") obj)
             ++ [("misc", lookupKey "misc" obj)]).*1
          = (filter (fun entry => entry.1 <> "misc") obj).*1 ++ ["misc"]) as Hkeys.
  { rewrite fmap_app, <- list_fmap_compose. done. }
  split; [| split; [| split]].
  - rewrite Hkeys. apply NoDup_app. split; [| split].
    + apply NoDup_fmap_fst.
      * intros c l1 l2 H1%Hfil H2%Hfil. destruct H1, H2. congruence.
      * apply NoDup_filter. by apply NoDup_fmap_1 in Hnd.
    + intros c Hc ->%list_elem_of_singleton.
      apply list_elem_of_fmap in Hc as ([c l] & Hcl & Hin). apply Hfil in Hin.
      simpl in Hcl. subst c. by destruct Hin.
    + apply NoDup_singleton.
  - by rewrite Hkeys, last_snoc.
  - intros c o Hin. apply elem_of_app in Hin as [Hin | Hin].
    + apply list_elem_of_fmap in Hin as ([c' l] & [= -> ->] & Hin).
      apply Hfil in Hin as [Hne Hl]. simpl. rewrite Hlook in Hl. rewrite <- Hl.
      split; [done |]. intros _. by rewrite Hl.
    + apply list_elem_of_singleton in Hin as [= -> ->]. by rewrite Hlook.
  - intros n Hn.
    assert (n ∈ filter (fun n0 => categoryKey n0 = categoryKey n) names) as Hnf
      by by apply list_elem_of_filter.
    specialize (Hlook (categoryKey n)).
    destruct (filter (fun n0 => categoryKey n0 = categoryKey n) names) as [|x l] eqn:E;
      [by apply elem_of_nil in Hnf |].
    exists (x :: l). split; [| done].
    destruct (decide (categoryKey n = "misc")) as [Hmisc | Hmisc].
    + apply elem_of_app. right. rewrite Hmisc in *. rewrite Hlook. left.
    + apply elem_of_app. left. apply list_elem_of_fmap.
      exists (categoryKey n, x :: l). split; [done |]. by apply Hfil.
Qed.

Example leaderboards_categorized_sample :
  fetchAllLeaderboardsCategorized
    ["kills_zombie"; "purse"; "deaths_void"; "kills_spider"; "collection_wheat"]
  = [ ("kills", Some ["kills_zombie"; "kills_spider"]);
      ("deaths", Some ["deaths_void"]);
      ("collection", Some ["collection_wheat"]);
      ("misc", Some ["purse"]) ]
  /\ fetchAllLeaderboardsCategorized ["kills_zombie"]
     = [ ("kills", Some ["kills_zombie"]); ("misc", None) ].
Proof. split; reflexivity. Qed.

(** ** The leaderboard as it is returned *)

Lemma promiseAll_values {Player} (fetchBasicPlayer : string -> M Player) (name : string)
    (l : list DatabaseLeaderboardItem) (s s' : State)
    (items : list (LeaderboardItem Player)) :
  promiseAll
    (fun item =>
       let! p := fetchBasicPlayer (uuid item) in
       ret (mkLeaderboardItem p (stats item !! name))) l s
  = (Returned items, s') ->
  value <$> items = (fun item => stats item !! name) <$> l.
Proof.
  revert s s' items. induction l as [|d l IH]; intros s s' items; simpl.
  - by intros [= <- _].
  - intros H. apply bind_inv in H as [[_ [=]] | (y & s1 & Hy & H)].
    apply bind_inv in Hy as [[_ [=]] | (p & s0 & _ & Hy)].
    apply bind_inv in H as [[_ [=]] | (ys & s2 & Hys & H)].
    unfold ret in Hy, H. injection Hy as <- <-. injection H as <- _.
    rewrite !fmap_cons. cbn [value]. f_equal. exact (IH _ _ _ Hys).
Qed.

(** X14.  What [fetchMemberLeaderboard] returns, from a state the module can
    reach and whatever the lookup of players does: the name asked for, its
    unit, and at most 100 items whose values are those of the served
    leaderboard in its order -- none missing, descending, ascending on a
    reversed leaderboard. *)
Theorem returned_leaderboard_in_order {Player} (fetchBasicPlayer : string -> M Player)
    (name : string) (s s' : State) (leaderboard : Leaderboard Player) :
  reachable s ->
  fetchMemberLeaderboard fetchBasicPlayer name s = (Returned leaderboard, s') ->
  lb_name leaderboard = name
  /\ lb_unit leaderboard = getLeaderboardUnit name
  /\ (length (lb_list leaderboard) <= 100)%nat
  /\ value <$> lb_list leaderboard
     = (fun item => stats item !! name) <$> servedView s name
  /\ StronglySorted
       (fun a b => match a, b with
                   | Some x, Some y => if isLeaderboardReversed name then x <= y else y <= x
                   | _, _ => False
                   end)
       (value <$> lb_list leaderboard)
  /\ Forall is_Some (value <$> lb_list leaderboard).
Proof.
  intros Hreach H. unfold fetchMemberLeaderboard in H.
  apply bind_inv in H as [[_ [=]] | (raw & s1 & Hraw & H)].
  apply bind_inv in H as [[_ [=]] | (items & s2 & Hitems & H)].
  unfold ret in H. injection H as <- _. simpl.
  pose proof (fetchMemberLeaderboardRaw_hoare name s
                (reachable_mirrorWellFormed s Hreach)) as Hwf.
  rewrite Hraw in Hwf. destruct Hwf as (_ & _ & Hlen & Hall & Hsorted).
  apply servedView_fetched in Hraw as [-> _].
  apply promiseAll_values in Hitems.
  split; [done |]. split; [done |]. split; [| split; [done | split]].
  - apply (f_equal length) in Hitems. rewrite !length_fmap in Hitems. lia.
  - rewrite Hitems. eapply StronglySorted_fmap; [| exact Hsorted]. done.
  - rewrite Hitems. apply Forall_fmap. exact Hall.
Qed.

Lemma returned_leaderboard_sample :
  let r := fetchMemberLeaderboard (fun u => ret u) "kills_zombie" smallStore in
  let leaderboard := mkLeaderboard "kills_zombie" None
                       [mkLeaderboardItem "b" (Some 9); mkLeaderboardItem "b" (Some 7);
                        mkLeaderboardItem "a" (Some 5)] in
  lb_name leaderboard = "kills_zombie"
  /\ lb_unit leaderboard = getLeaderboardUnit "kills_zombie"
  /\ (length (lb_list leaderboard) <= 100)%nat
  /\ value <$> lb_list leaderboard
     = (fun item => stats item !! "kills_zombie") <$> servedView smallStore "kills_zombie"
  /\ StronglySorted
       (fun a b => match a, b with
                   | Some x, Some y =>
                       if isLeaderboardReversed "kills_zombie" then x <= y else y <= x
                   | _, _ => False
                   end)
       (value <$> lb_list leaderboard)
  /\ Forall is_Some (value <$> lb_list leaderboard).
Proof.
  intros r leaderboard.
  refine (returned_leaderboard_in_order (fun u => ret u) "kills_zombie" smallStore r.2
            leaderboard _ _).
  - apply reachable_start. reflexivity.
  - vm_compute. reflexivity.
Defined.

(** ** Warming the cache *)

Lemma promiseAll_cache {A B} (f : A -> M B) (l : list A) (s : State) :
  (forall x s0, cachedRawLeaderboards (f x s0).2 = cachedRawLeaderboards s0) ->
  cachedRawLeaderboards (promiseAll f l s).2 = cachedRawLeaderboards s.
Proof.
  intros Hf. revert s. induction l as [|x l IH]; intros s; [done |].
  simpl. unfold bind at 1. specialize (Hf x s).
  destruct (f x s) as [[y|] s1]; simpl in *; [| done].
  unfold bind at 1. specialize (IH s1).
  destruct (promiseAll f l s1) as [[ys|] s2]; simpl in *; congruence.
Qed.

(** X15.  When [fetchAllLeaderboards] returns, every leaderboard it went
    through is cached -- a later fetch of it does not reach the store -- and
    so is every leaderboard that was cached before; the lookup of players
    is only supposed to leave the cached leaderboards alone. *)
Theorem warmed_leaderboards_are_cached {Player} (fetchBasicPlayer : string -> M Player)
    (shuffled : list string) (s s' : State) :
  (forall u s0, cachedRawLeaderboards (fetchBasicPlayer u s0).2 = cachedRawLeaderboards s0) ->
  fetchAllLeaderboards fetchBasicPlayer shuffled s = (Returned tt, s') ->
  forall name,
    name ∈ shuffled \/ is_Some (cachedRawLeaderboards s !! name) ->
    exists l,
      cachedRawLeaderboards s' !! name = Some l
      /\ forall s2, cachedRawLeaderboards s2 !! name = Some l ->
           fetchMemberLeaderboardRaw name s2 = (Returned l, s2).
Proof.
  intros Hplayer Hall name Hname.
  cut (is_Some (cachedRawLeaderboards s' !! name)).
  { intros [l Hl]. exists l. split; [done |]. intros s2. apply fetch_cached. }
  revert s Hall Hname. unfold fetchAllLeaderboards.
  induction shuffled as [|n shuffled IH]; intros s Hall Hname.
  - injection Hall as <-. by destruct Hname as [?%elem_of_nil | ?].
  - cbn [forEach] in Hall.
    apply bind_inv in Hall as [[_ [=]] | ([] & s1 & Hone & Hrest)].
    apply (IH s1 Hrest). clear IH Hrest.
    apply bind_inv in Hone as [[_ [=]] | (lb & s1' & Hone & Hret)].
    unfold ret in Hret. injection Hret as ->.
    unfold fetchMemberLeaderboard in Hone.
    apply bind_inv in Hone as [[_ [=]] | (raw & s0 & Hraw & Hone)].
    apply fetchMemberLeaderboardRaw_spec in Hraw as (_ & _ & _ & _ & Hk0).
    apply bind_inv in Hone as [[_ [=]] | (items & s0' & Hitems & Hret)].
    unfold ret in Hret. injection Hret as _ ->.
    match type of Hitems with
    | promiseAll ?f ?l ?s = _ => pose proof (promiseAll_cache f l s) as Hk1
    end.
    rewrite Hitems in Hk1. simpl in Hk1. rewrite Hk1, Hk0.
    + destruct Hname as [[-> | Hin]%elem_of_cons | Hcached].
      * right. rewrite lookup_insert_eq. by eexists.
      * by left.
      * right. rewrite lookup_insert_is_Some.
        destruct (decide (n = name)); [by left | by right].
    + intros x s2. unfold bind. specialize (Hplayer (uuid x) s2).
      by destruct (fetchBasicPlayer (uuid x) s2) as [[p|] s3].
Qed.

Lemma warmed_leaderboards_sample :
  exists l,
    cachedRawLeaderboards
      (fetchAllLeaderboards (fun u => ret u) ["purse"; "kills_zombie"] smallStore).2
      !! "kills_zombie" = Some l
    /\ forall s2, cachedRawLeaderboards s2 !! "kills_zombie" = Some l ->
         fetchMemberLeaderboardRaw "kills_zombie" s2 = (Returned l, s2).
Proof.
  refine (warmed_leaderboards_are_cached (fun u => ret u) ["purse"; "kills_zombie"]
            smallStore _ _ _ "kills_zombie" _).
  - intros u s0. reflexivity.
  - vm_compute. reflexivity.
  - left. right. left.
Defined.

End ListingFacts.

(** ** The single-flight caches, when the requests succeed *)

Module RefreshFacts.
Import SingleFlight Schedules SingleFlightFacts.
Local Open Scope list_scope.

(** The first refresh in flight: one invocation at its request, the others
    polling, nothing cached. *)
Lemma first_refresh_step (ttlSeconds : Z) (w : World) (ev : Event) (n : nat) :
  isResponse ev = false ->
  cache w = mkCache true None 0 -> requests w = 1%nat ->
  calls w = Requesting :: replicate n Polling ->
  let w' := step ttlSeconds w ev in
  cache w' = mkCache true None 0 /\ requests w' = 1%nat
  /\ calls w' = Requesting :: replicate (if isInvoke ev then S n else n) Polling.
Proof.
  destruct w as [c r cs]. simpl. intros Hev -> -> ->.
  destruct ev as [now | i | i result]; [| | done]; simpl.
  - unfold invoke. simpl. split; [done |]. split; [done |].
    f_equal. rewrite <- replicate_S_end. done.
  - unfold pollTick. simpl.
    by destruct ((Requesting :: replicate n Polling) !! i) as [[| | |]|].
Qed.

Lemma first_refresh_run (ttlSeconds : Z) (evs : list Event) (w : World) (n : nat) :
  Forall (fun ev => isResponse ev = false) evs ->
  cache w = mkCache true None 0 -> requests w = 1%nat ->
  calls w = Requesting :: replicate n Polling ->
  let w' := run ttlSeconds w evs in
  cache w' = mkCache true None 0 /\ requests w' = 1%nat
  /\ calls w' = Requesting :: replicate (n + invocations evs) Polling.
Proof.
  revert w n. induction evs as [|ev evs IH]; intros w n Hevs Hcache Hreq Hcalls.
  - simpl. unfold invocations. simpl. by rewrite Nat.add_0_r.
  - apply Forall_cons in Hevs as [Hev Hevs].
    destruct (first_refresh_step ttlSeconds w ev n Hev Hcache Hreq Hcalls)
      as (Hcache' & Hreq' & Hcalls').
    destruct (IH _ _ Hevs Hcache' Hreq' Hcalls') as (? & ? & Hc).
    unfold run in *. cbn [foldl]. split; [done |]. split; [done |].
    rewrite Hc. f_equal. f_equal. unfold invocations.
    rewrite filter_cons. destruct ev; simpl; try done; lia.
Qed.

Lemma cold_run (ttlSeconds : Z) (evs : list Event) :
  Forall (fun ev => isResponse ev = false) evs ->
  (invocations evs = 0%nat /\ run ttlSeconds cold evs = cold)
  \/ exists n,
       invocations evs = S n
       /\ cache (run ttlSeconds cold evs) = mkCache true None 0
       /\ requests (run ttlSeconds cold evs) = 1%nat
       /\ calls (run ttlSeconds cold evs) = Requesting :: replicate n Polling.
Proof.
  induction evs as [|ev evs IH]; intros Hevs; [by left |].
  apply Forall_cons in Hevs as [Hev Hevs].
  destruct ev as [now | i | i result]; [| | done].
  - right. exists (invocations evs).
    destruct (first_refresh_run ttlSeconds evs (invoke now cold) 0 Hevs)
      as (Hcache & Hreq & Hcalls); [done.. |].
    split; [| done]. unfold invocations. by rewrite filter_cons.
  - unfold run, invocations in *. rewrite filter_cons. cbn [foldl step].
    change (pollTick i cold) with cold. by apply IH.
Qed.

(** X16.  From the module as loaded and until a request settles, however
    many invocations are made and however often their intervals fire, one
    request is sent: the first invocation sends it and every other one
    polls. *)
Theorem first_refresh_sends_one_request (ttlSeconds : Z) (evs : list Event) :
  Forall (fun ev => isResponse ev = false) evs ->
  let w := run ttlSeconds cold evs in
  requests w = Nat.min 1 (invocations evs)
  /\ calls w = take (invocations evs) (Requesting :: replicate (invocations evs) Polling)
  /\ cachedData (cache w) = None.
Proof.
  intros Hevs w. subst w.
  destruct (cold_run ttlSeconds evs Hevs) as [[-> ->] | (n & -> & -> & -> & ->)].
  - done.
  - split; [done |]. split; [| done]. cbn [take]. f_equal.
    rewrite take_replicate. f_equal. lia.
Qed.

Lemma first_refresh_sample :
  let w := fetchElection cold [Invoke 5; Invoke 6; PollTick 1; Invoke 7; PollTick 2] in
  requests w = 1%nat
  /\ calls w = [Requesting; Polling; Polling]
  /\ cachedData (cache w) = None.
Proof.
  refine (first_refresh_sends_one_request (10 * 60)
            [Invoke 5; Invoke 6; PollTick 1; Invoke 7; PollTick 2] _).
  repeat constructor.
Defined.

(** ** Requests and invocations *)

Lemma polling_insert (i : nat) (c : Call) (cs : list Call) :
  cs !! i = Some Polling -> isPolling c = false ->
  S (length (filter (fun c => isPolling c = true) (<[i := c]> cs)))
  = length (filter (fun c => isPolling c = true) cs).
Proof.
  revert i. induction cs as [|d cs IH]; intros [|i]; simpl; try done.
  - intros [= ->] Hc. rewrite filter_cons_False by (by rewrite Hc).
    by rewrite filter_cons_True.
  - intros Hi Hc. rewrite !filter_cons. specialize (IH i Hi Hc).
    destruct (decide (isPolling d = true)); simpl; lia.
Qed.

Lemma polling_replace (i : nat) (c d : Call) (cs : list Call) :
  cs !! i = Some d -> isPolling d = false -> isPolling c = false ->
  length (filter (fun c => isPolling c = true) (<[i := c]> cs))
  = length (filter (fun c => isPolling c = true) cs).
Proof.
  revert i. induction cs as [|e cs IH]; intros [|i]; simpl; try done.
  - intros [= ->] Hd Hc.
    rewrite !filter_cons_False; [done | by rewrite Hd | by rewrite Hc].
  - intros Hi Hd Hc. rewrite !filter_cons. specialize (IH i Hi Hd Hc).
    destruct (decide (isPolling e = true)); simpl; lia.
Qed.

Lemma requests_step (ttlSeconds : Z) (w : World) (ev : Event) :
  let polling w := length (filter (fun c => isPolling c = true) (calls w)) in
  (requests w + polling w <= length (calls w))%nat ->
  let w' := step ttlSeconds w ev in
  (requests w' + polling w' <= length (calls w'))%nat
  /\ length (calls w') = ((if isInvoke ev then 1 else 0) + length (calls w))%nat.
Proof.
  intros polling H. subst polling. destruct ev as [now | i | i result]; simpl.
  - unfold invoke.
    destruct (cachedData (cache w)) as [data|];
      [destruct (now <? nextUpdate (cache w)) | destruct (isFetching (cache w))];
      simpl; rewrite filter_app, !length_app, filter_cons; simpl; lia.
  - unfold pollTick. destruct (calls w !! i) as [[| | |]|] eqn:Hi; try (split; [lia | done]).
    destruct (cachedData (cache w)); [| split; [lia | done]]. simpl.
    rewrite length_insert. split; [| done].
    pose proof (polling_insert i Requesting (calls w) Hi eq_refl). lia.
  - unfold response. destruct (calls w !! i) as [[| | |]|] eqn:Hi; try (split; [lia | done]).
    destruct result as [data|]; simpl; rewrite length_insert; (split; [| done]).
    + by rewrite (polling_replace i (Resolved data) Requesting).
    + by rewrite (polling_replace i Rejected Requesting).
Qed.

(** X17.  Whatever happens to the module as loaded -- invocations, interval
    callbacks, requests settling either way, in any order -- there is one
    call record per invocation, and the requests sent so far plus the
    invocations still polling never exceed the invocations made: no
    invocation sends a second request. *)
Theorem one_request_per_invocation (ttlSeconds : Z) (evs : list Event) :
  let w := run ttlSeconds cold evs in
  length (calls w) = invocations evs
  /\ (requests w + length (filter (fun c => isPolling c = true) (calls w))
      <= invocations evs)%nat.
Proof.
  cut (forall w,
         (requests w + length (filter (fun c => isPolling c = true) (calls w))
          <= length (calls w))%nat ->
         let w' := run ttlSeconds w evs in
         length (calls w') = (invocations evs + length (calls w))%nat
         /\ (requests w' + length (filter (fun c => isPolling c = true) (calls w'))
             <= length (calls w'))%nat).
  { intros H. destruct (H cold) as [Hlen Hle]; [done |].
    cbv zeta in *. simpl in Hlen. rewrite Nat.add_0_r in Hlen. rewrite <- Hlen. done. }
  induction evs as [|ev evs IH]; intros w Hw; [done |].
  destruct (requests_step ttlSeconds w ev Hw) as [Hw' Hlen].
  destruct (IH _ Hw') as [Hlen' Hle]. unfold run in *. cbn [foldl].
  split; [| done]. cbv zeta in Hlen'. rewrite Hlen', Hlen. unfold invocations.
  rewrite filter_cons. destruct ev; simpl; lia.
Qed.

(** ** A cached value and its expiry *)




End RefreshFacts.

(** ** The ended-auctions loop: what a turn touches and what it keeps *)

Module HistoryFacts.
Import JsArray Auctions Histories Samples AuctionFacts.
Local Open Scope list_scope.

Lemma existsb_id_iff (x : string) (h : list SimpleAuctionSchema) :
  existsb (fun a => String.eqb (id a) x) h = true <-> x ∈ id <$> h.
Proof.
  split.
  - intros (a & Hin & Heq)%existsb_exists. apply String.eqb_eq in Heq as <-.
    apply list_elem_of_fmap_2. by apply list_elem_of_In.
  - intros Hx. destruct (existsb _ h) eqn:E; [done |]. exfalso.
    apply list_elem_of_fmap in Hx as (a & -> & Ha).
    assert (existsb (fun b => String.eqb (id b) (id a)) h = true) as E'; [| congruence].
    apply existsb_exists. exists a. split; [by apply list_elem_of_In |].
    by apply String.eqb_eq.
Qed.

(** The history [mergeAuction] leaves under the item of a new auction. *)
Lemma mergeAuction_new (previous : gset string)
    (updated : gmap string (list SimpleAuctionSchema)) (auction : EndedAuction) :
  auction_id auction ∉ previous ->
  let stored := default [] (updated !! item auction) in
  mergeAuction previous updated auction
  = <[item auction :=
        if existsb (fun a => String.eqb (id a) (auction_id auction)) stored then stored
        else sliceLast 100 (stored ++ [simplify auction])]> updated.
Proof.
  intros Hnew stored. unfold mergeAuction. rewrite bool_decide_eq_false_2 by done.
  replace (match updated !! item auction with Some s0 => s0 | None => [] end)
    with stored by (subst stored; by destruct (updated !! item auction)).
  simpl. f_equal. destruct (existsb _ stored); [done |].
  destruct (Nat.ltb_spec 100 (length (stored ++ [simplify auction]))); [done |].
  by rewrite sliceLast_short.
Qed.

Lemma mergeAuction_seen (previous : gset string)
    (updated : gmap string (list SimpleAuctionSchema)) (auction : EndedAuction) :
  auction_id auction ∈ previous -> mergeAuction previous updated auction = updated.
Proof. intros Hseen. unfold mergeAuction. by rewrite bool_decide_eq_true_2. Qed.

(** ** Items without a new auction *)

Lemma merge_frame (previous : gset string) (ended : list EndedAuction)
    (updated : gmap string (list SimpleAuctionSchema)) (k : string) :
  (forall a, a ∈ ended -> auction_id a ∉ previous -> item a <> k) ->
  foldl (mergeAuction previous) updated ended !! k = updated !! k.
Proof.
  revert updated. induction ended as [|a ended IH]; intros updated Hk; [done |].
  cbn [foldl]. rewrite IH by (intros b Hb; apply Hk; by right).
  destruct (decide (auction_id a ∈ previous)) as [Hseen | Hnew].
  - by rewrite mergeAuction_seen.
  - rewrite mergeAuction_new by done. apply lookup_insert_ne. apply Hk; [left | done].
Qed.

(** X19.  A turn leaves alone the history of every item none of whose
    auctions is new in the snapshot: it is neither rewritten nor created. *)
Theorem turn_leaves_other_items (st : LoopState) (endedAuctions : EndedAuctions)
    (now : Z) (itemId : string) :
  (forall a, a ∈ auctions endedAuctions ->
     auction_id a ∉ previousAuctionIds st -> item a <> itemId) ->
  itemAuctions (iteration st endedAuctions now).1 !! itemId = itemAuctions st !! itemId
  /\ mergeEnded st endedAuctions !! itemId = None.
Proof.
  intros Hk. simpl. rewrite persisted_lookup. unfold mergeEnded.
  rewrite merge_frame by done. rewrite loaded_lookup.
  rewrite decide_False; [done |].
  rewrite elem_of_elements, newAuctionItemIds_elem. intros (a & Ha & Hnew & Hitem).
  by apply (Hk a).
Qed.

Lemma turn_leaves_other_items_sample :
  let st := mkLoop ∅ {[ "HYPERION" := [simplify (numbered 7)] ]} in
  itemAuctions (iteration st lingering 5).1 !! "HYPERION" = itemAuctions st !! "HYPERION"
  /\ mergeEnded st lingering !! "HYPERION" = None.
Proof.
  intros st. refine (turn_leaves_other_items st lingering 5 "HYPERION" _).
  intros a Ha _. apply list_elem_of_singleton in Ha as ->. discriminate.
Defined.

(** ** A snapshot seen before *)

Lemma merge_replayed (previous : gset string) (ended : list EndedAuction)
    (updated : gmap string (list SimpleAuctionSchema)) :
  (forall a, a ∈ ended -> auction_id a ∉ previous ->
     exists h, updated !! item a = Some h /\ auction_id a ∈ id <$> h) ->
  foldl (mergeAuction previous) updated ended = updated.
Proof.
  induction ended as [|a ended IH]; intros Hdup; [done |].
  cbn [foldl].
  assert (mergeAuction previous updated a = updated) as ->.
  { destruct (decide (auction_id a ∈ previous)) as [Hseen | Hnew].
    - by apply mergeAuction_seen.
    - destruct (Hdup a) as (h & Hh & Hin); [left | done |].
      rewrite mergeAuction_new by done. rewrite Hh. simpl.
      apply existsb_id_iff in Hin. rewrite Hin. by apply insert_id. }
  apply IH. intros b Hb. apply Hdup. by right.
Qed.

(** X20.  A turn on a snapshot all of whose new auctions are already in the
    stored history of their item -- the snapshot of the turn before last, or
    the first one after a restart -- changes nothing in the store. *)
Theorem replayed_snapshot_changes_nothing (st : LoopState)
    (endedAuctions : EndedAuctions) (now : Z) :
  (forall a, a ∈ auctions endedAuctions -> auction_id a ∉ previousAuctionIds st ->
     exists h, itemAuctions st !! item a = Some h /\ auction_id a ∈ id <$> h) ->
  itemAuctions (iteration st endedAuctions now).1 = itemAuctions st.
Proof.
  intros Hdup. apply map_eq. intros k. simpl. rewrite persisted_lookup.
  unfold mergeEnded. rewrite merge_replayed.
  - rewrite loaded_lookup. case_decide; [| done]. by destruct (itemAuctions st !! k).
  - intros a Ha Hnew. destruct (Hdup a Ha Hnew) as (h & Hh & Hin).
    exists h. split; [| done]. rewrite loaded_lookup, decide_True; [done |].
    apply elem_of_elements, newAuctionItemIds_elem. by exists a.
Qed.

Lemma replayed_snapshot_sample :
  itemAuctions
    (iteration (mkLoop ∅ {[ "ASPECT_OF_THE_END" := [simplify (numbered 0)] ]})
       lingering 70000).1
  = {[ "ASPECT_OF_THE_END" := [simplify (numbered 0)] ]}.
Proof.
  refine (replayed_snapshot_changes_nothing
            (mkLoop ∅ {[ "ASPECT_OF_THE_END" := [simplify (numbered 0)] ]})
            lingering 70000 _).
  intros a Ha _. apply list_elem_of_singleton in Ha as ->.
  exists [simplify (numbered 0)]. split; [reflexivity |]. left.
Defined.

(** ** No auction twice in a history *)

Lemma sliceLast_NoDup {A} (n : nat) (l : list A) : NoDup l -> NoDup (sliceLast n l).
Proof.
  unfold sliceLast. intros H. rewrite <- (take_drop (length l - n) l) in H.
  by apply NoDup_app in H as (_ & _ & H).
Qed.

Lemma fmap_sliceLast {A B} (f : A -> B) (n : nat) (l : list A) :
  f <$> sliceLast n l = sliceLast n (f <$> l).
Proof. unfold sliceLast. by rewrite fmap_drop, length_fmap. Qed.

Lemma mergeAuction_distinct (previous : gset string)
    (updated : gmap string (list SimpleAuctionSchema)) (auction : EndedAuction) :
  distinct updated -> distinct (mergeAuction previous updated auction).
Proof.
  intros Hd. destruct (decide (auction_id auction ∈ previous)) as [Hseen | Hnew].
  - by rewrite mergeAuction_seen.
  - rewrite mergeAuction_new by done.
    assert (NoDup (id <$> default [] (updated !! item auction))) as Hstored.
    { destruct (updated !! item auction) as [h|] eqn:E; [by eapply Hd | constructor]. }
    intros k h. rewrite lookup_insert. case_decide as Hk; [| apply Hd].
    intros [= <-].
    destruct (existsb _ _) eqn:E; [done |].
    rewrite fmap_sliceLast. apply sliceLast_NoDup.
    rewrite fmap_app. apply NoDup_app. split; [done |]. split.
    + intros x Hx ->%list_elem_of_singleton.
      apply existsb_id_iff in Hx. simpl in Hx. congruence.
    + apply NoDup_singleton.
Qed.

Lemma iteration_distinct (st : LoopState) (endedAuctions : EndedAuctions) (now : Z) :
  distinct (itemAuctions st) -> distinct (itemAuctions (iteration st endedAuctions now).1).
Proof.
  intros Hd k h. simpl. rewrite persisted_lookup.
  destruct (mergeEnded st endedAuctions !! k) as [h'|] eqn:E; [| apply Hd].
  intros [= <-]. revert k h' E. change (distinct (mergeEnded st endedAuctions)).
  unfold mergeEnded.
  assert (distinct (indexById
            (fetchItemsAuctions
               (elements (newAuctionItemIds (previousAuctionIds st) (auctions endedAuctions)))
               (itemAuctions st)))) as Hloaded.
  { intros k h. rewrite loaded_lookup. case_decide; [apply Hd | done]. }
  revert Hloaded. generalize (indexById
            (fetchItemsAuctions
               (elements (newAuctionItemIds (previousAuctionIds st) (auctions endedAuctions)))
               (itemAuctions st))).
  induction (auctions endedAuctions) as [|a l IH]; intros updated Hupd; simpl; [done |].
  apply IH. by apply mergeAuction_distinct.
Qed.

(** X21.  If no stored history holds an auction twice, none does after any
    number of turns, whatever the snapshots list and however often they
    list it. *)
Theorem histories_stay_distinct (snapshots : list (EndedAuctions * Z)) (st : LoopState) :
  distinct (itemAuctions st) -> distinct (itemAuctions (turns st snapshots)).
Proof.
  revert st. induction snapshots as [|sn snapshots IH]; intros st Hd; [done |].
  unfold turns in *. cbn [foldl]. apply IH. by apply (iteration_distinct st sn.1 sn.2).
Qed.

Lemma histories_stay_distinct_sample :
  distinct (itemAuctions
              (turns (start ∅) [(lingering, 0); (lingering, 70000); (lingering, 140000)])).
Proof.
  refine (histories_stay_distinct
            [(lingering, 0); (lingering, 70000); (lingering, 140000)] (start ∅) _).
  intros k h Hk. simpl in Hk. by rewrite lookup_empty in Hk.
Defined.

(** ** Where the records of a history come from *)

(** X22.  Every record stored under an item after a turn was stored under
    that item before, or is the record of an auction of that item which is
    new in the snapshot: the loop files no auction under another item and
    makes none up. *)
Theorem stored_records_provenance (st : LoopState) (endedAuctions : EndedAuctions)
    (now : Z) (itemId : string) (history : list SimpleAuctionSchema)
    (record : SimpleAuctionSchema) :
  itemAuctions (iteration st endedAuctions now).1 !! itemId = Some history ->
  record ∈ history ->
  (exists before, itemAuctions st !! itemId = Some before /\ record ∈ before)
  \/ (exists a, a ∈ auctions endedAuctions /\ (auction_id a ∉ previousAuctionIds st)
                /\ item a = itemId /\ record = simplify a).
Proof.
  simpl. rewrite persisted_lookup.
  destruct (mergeEnded st endedAuctions !! itemId) as [h|] eqn:E;
    [| intros Hh Hin; left; by exists history].
  intros [= <-]. revert itemId h record E. unfold mergeEnded.
  set (previous := previousAuctionIds st).
  assert (forall (ended : list EndedAuction) updated,
            (forall k h x, updated !! k = Some h -> x ∈ h ->
               (exists before, itemAuctions st !! k = Some before /\ x ∈ before)
               \/ (exists a, a ∈ auctions endedAuctions /\ (auction_id a ∉ previous)
                             /\ item a = k /\ x = simplify a)) ->
            (forall a, a ∈ ended -> a ∈ auctions endedAuctions) ->
            forall k h x, foldl (mergeAuction previous) updated ended !! k = Some h ->
              x ∈ h ->
              (exists before, itemAuctions st !! k = Some before /\ x ∈ before)
              \/ (exists a, a ∈ auctions endedAuctions /\ (auction_id a ∉ previous)
                            /\ item a = k /\ x = simplify a)) as H.
  { induction ended as [|a ended IH]; intros updated Hupd Hsub; [done |].
    cbn [foldl]. apply IH; [| intros b Hb; apply Hsub; by right].
    destruct (decide (auction_id a ∈ previous)) as [Hseen | Hnew].
    { by rewrite mergeAuction_seen. }
    rewrite mergeAuction_new by done.
    intros k h x. rewrite lookup_insert. case_decide as Hk; [| apply Hupd].
    subst k. intros [= <-]. 
    assert (x ∈ default [] (updated !! item a) ->
            (exists before, itemAuctions st !! item a = Some before /\ x ∈ before)
            \/ (exists a0, a0 ∈ auctions endedAuctions /\ (auction_id a0 ∉ previous)
                           /\ item a0 = item a /\ x = simplify a0)) as Hold.
    { destruct (updated !! item a) as [h0|] eqn:E; simpl.
      - by apply Hupd.
      - by intros ?%elem_of_nil. }
    destruct (existsb _ _); [done |].
    intros [Hx | ->%list_elem_of_singleton]%elem_of_sliceLast%elem_of_app; [by apply Hold |].
    right. exists a. split; [apply Hsub; left | done]. }
  intros k h x. apply H; [| done].
  intros k' h' x'. rewrite loaded_lookup. case_decide; [| done].
  intros Hh Hx. left. by exists h'.
Qed.

Lemma stored_records_sample :
  (exists before, itemAuctions (start ∅) !! "ASPECT_OF_THE_END" = Some before
                  /\ simplify (numbered 0) ∈ before)
  \/ (exists a, a ∈ auctions lingering /\ (auction_id a ∉ previousAuctionIds (start ∅))
                /\ item a = "ASPECT_OF_THE_END" /\ simplify (numbered 0) = simplify a).
Proof.
  refine (stored_records_provenance (start ∅) lingering 5 "ASPECT_OF_THE_END"
            [simplify (numbered 0)] (simplify (numbered 0)) _ _).
  - vm_compute. reflexivity.
  - left.
Defined.

(** ** An auction the feed keeps listing *)

(** X23.  The ids kept for the next turn are those of the snapshot that the
    turn before had not kept; so an auction that every snapshot lists is
    remembered after every other turn only, and taken for new in the turns
    between. *)
Theorem listed_auction_alternates (snapshots : list (EndedAuctions * Z))
    (st : LoopState) (auctionId : string) :
  Forall (fun sn => auctionId ∈ auction_id <$> auctions sn.1) snapshots ->
  auctionId ∈ previousAuctionIds (turns st snapshots)
  <-> if Nat.even (length snapshots) then auctionId ∈ previousAuctionIds st
      else auctionId ∉ previousAuctionIds st.
Proof.
  revert st. induction snapshots as [|sn snapshots IH]; intros st Hlisted; [done |].
  apply Forall_cons in Hlisted as [Hsn Hlisted].
  assert (auctionId ∈ previousAuctionIds (iteration st sn.1 sn.2).1
          <-> auctionId ∉ previousAuctionIds st) as Hstep.
  { cbn [iteration fst previousAuctionIds]. rewrite newAuctionUuids_elem. tauto. }
  unfold turns in *. cbn [foldl]. rewrite IH by done.
  cbn [length]. rewrite Nat.even_succ, <- Nat.negb_even.
  destruct (Nat.even (length snapshots)); cbn [negb].
  - done.
  - destruct (decide (auctionId ∈ previousAuctionIds st)); tauto.
Qed.

Lemma listed_auction_alternates_sample :
  "auction-0" ∈ previousAuctionIds
                  (turns (start ∅) [(lingering, 0); (lingering, 70000); (lingering, 140000)])
  <-> "auction-0" ∉ previousAuctionIds (start ∅).
Proof.
  refine (listed_auction_alternates
            [(lingering, 0); (lingering, 70000); (lingering, 140000)] (start ∅)
            "auction-0" _).
  repeat constructor.
Defined.

End HistoryFacts.

(** ** The active profile of a user *)

Module UserFacts.
Import Users.
Local Open Scope list_scope.

Lemma activeStep_cases (uuid : string) (acc : option CleanProfile * Z)
    (profile : CleanProfile) :
  (exists l, lastSaveIn uuid profile = Some l /\ acc.2 < l
             /\ activeStep uuid acc profile = (Some profile, l))
  \/ ((forall l, lastSaveIn uuid profile = Some l -> l <= acc.2 \/ l = 0)
      /\ activeStep uuid acc profile = acc).
Proof.
  unfold activeStep, lastSaveIn.
  destruct (members profile) as [ms|]; [| by right].
  destruct (find _ ms) as [member|]; [| by right].
  destruct (lastSave member) as [l|]; [| by right].
  destruct (Z.eqb_spec l 0) as [-> | Hne]; simpl.
  - right. split; [| done]. intros ? [= <-]. by right.
  - destruct (Z.ltb_spec acc.2 l).
    + left. by exists l.
    + right. split; [| done]. intros ? [= <-]. by left.
Qed.

(** The loop over the profiles: [lastOnline] is the latest save of the user
    among them, and [activeProfile] the first profile it was made in. *)
Lemma active_loop (uuid : string) (profilesData : list CleanProfile) :
  let r := foldl (activeStep uuid) (None, 0) profilesData in
  0 <= r.2
  /\ (forall q l, q ∈ profilesData -> lastSaveIn uuid q = Some l -> l <= r.2)
  /\ match r.1 with
     | None => r.2 = 0
     | Some p =>
         0 < r.2
         /\ exists i, profilesData !! i = Some p
              /\ lastSaveIn uuid p = Some r.2
              /\ forall j q l, (j < i)%nat -> profilesData !! j = Some q ->
                   lastSaveIn uuid q = Some l -> l < r.2
     end.
Proof.
  induction profilesData as [|p ps IH] using rev_ind.
  - simpl. split; [done |]. split; [| done]. by intros q l ?%elem_of_nil.
  - rewrite foldl_app. cbn [foldl].
    set (r := foldl (activeStep uuid) (None, 0) ps) in *.
    cbv zeta in IH. destruct IH as (Hpos & Hmax & Hactive).
    destruct (activeStep_cases uuid r p) as [(l & Hl & Hlt & ->) | [Hle ->]]; cbn [fst snd].
    + split; [lia |]. split.
      * intros q l' [Hq | ->%list_elem_of_singleton]%elem_of_app Hl'.
        -- specialize (Hmax q l' Hq Hl'). lia.
        -- assert (l' = l) by congruence. lia.
      * split; [lia |]. exists (length ps). split; [| split; [done |]].
        -- by rewrite lookup_app_r, Nat.sub_diag.
        -- intros j q l' Hj Hq Hl'. rewrite lookup_app_l in Hq by done.
           apply list_elem_of_lookup_2 in Hq. specialize (Hmax q l' Hq Hl'). lia.
    + split; [done |]. split.
      * intros q l' [Hq | ->%list_elem_of_singleton]%elem_of_app Hl'.
        -- by apply (Hmax q).
        -- destruct (Hle l' Hl'); lia.
      * destruct r.1 as [a|]; [| done].
        destruct Hactive as (Hlt & i & Hi & Hsave & Hfirst).
        split; [done |]. exists i. split; [| split; [done |]].
        -- apply lookup_app_l_Some. done.
        -- intros j q l' Hj Hq Hl'. apply (Hfirst j q l' Hj); [| done].
           rewrite lookup_app_l in Hq; [done |].
           apply lookup_lt_Some in Hi. lia.
Qed.

Lemma latestSave_spec (uuid : string) (fetched : list CleanProfile) :
  0 <= latestSave uuid fetched
  /\ (forall q l, q ∈ fetched -> lastSaveIn uuid q = Some l -> l <= latestSave uuid fetched)
  /\ (latestSave uuid fetched = 0
      \/ exists q, q ∈ fetched /\ lastSaveIn uuid q = Some (latestSave uuid fetched)).
Proof.
  unfold latestSave. induction fetched as [|p ps (Hpos & Hmax & Hattained)].
  - simpl. split; [done |]. split; [by intros q l ?%elem_of_nil | by left].
  - cbn [omap list_omap]. destruct (lastSaveIn uuid p) as [l0|] eqn:Hp; cbn [foldr].
    + split; [lia |]. split.
      * intros q l [-> | Hq]%elem_of_cons Hl.
        -- assert (l = l0) by congruence. lia.
        -- specialize (Hmax q l Hq Hl). lia.
      * destruct (Z.max_spec l0 (foldr Z.max 0 (omap (lastSaveIn uuid) ps)))
          as [[_ ->] | [_ ->]].
        -- destruct Hattained as [-> | (q & Hq & Hl)]; [by left |].
           right. exists q. split; [by right | done].
        -- right. exists p. split; [left | done].
    + split; [done |]. split.
      * intros q l [-> | Hq]%elem_of_cons Hl; [congruence | by apply (Hmax q)].
      * destruct Hattained as [-> | (q & Hq & Hl)]; [by left |].
        right. exists q. split; [by right | done].
Qed.

Lemma find_first {A} (P : A -> bool) (l : list A) (i : nat) (x : A) :
  l !! i = Some x -> P x = true ->
  (forall j y, (j < i)%nat -> l !! j = Some y -> P y = false) ->
  List.find P l = Some x.
Proof.
  revert i. induction l as [|y l IH]; intros i Hi Hx Hfirst; [done |].
  destruct i as [|i]; simpl in *.
  - injection Hi as ->. by rewrite Hx.
  - rewrite (Hfirst 0%nat y) by (done || lia).
    apply (IH i); [done | done |]. intros j z Hj Hz. apply (Hfirst (S j)); [lia | done].
Qed.

(** The loop computes the latest save and finds the first profile it was
    made in. *)
Lemma active_loop_latest (uuid : string) (fetched : list CleanProfile) :
  foldl (activeStep uuid) (None, 0) fetched
  = (if bool_decide (0 < latestSave uuid fetched)
     then List.find (fun p => bool_decide (lastSaveIn uuid p = Some (latestSave uuid fetched)))
            fetched
     else None,
     latestSave uuid fetched).
Proof.
  pose proof (active_loop uuid fetched) as Hloop. cbv zeta in Hloop.
  destruct (foldl (activeStep uuid) (None, 0) fetched) as [active lastOnline].
  cbn [fst snd] in Hloop. destruct Hloop as (Hpos & Hmax & Hactive).
  destruct (latestSave_spec uuid fetched) as (Hpos' & Hmax' & Hattained).
  assert (lastOnline = latestSave uuid fetched) as ->.
  { apply Z.le_antisymm.
    - destruct active as [p|]; [| lia].
      destruct Hactive as (_ & i & Hi & Hsave & _).
      apply (Hmax' p); [by eapply list_elem_of_lookup_2 | done].
    - destruct Hattained as [-> | (q & Hq & Hl)]; [done | by apply (Hmax q)]. }
  f_equal. destruct active as [p|].
  - destruct Hactive as (Hlt & i & Hi & Hsave & Hfirst).
    rewrite bool_decide_eq_true_2 by done. symmetry.
    apply (find_first _ fetched i p); [done | by apply bool_decide_eq_true_2 |].
    intros j q Hj Hq. apply bool_decide_eq_false_2. intros Hl.
    specialize (Hfirst j q _ Hj Hq Hl). lia.
  - rewrite Hactive. by rewrite bool_decide_eq_false_2 by lia.
Qed.

(** X24.  When profiles are asked for and [fetchUser] returns a user, the
    user is the one of the uuid given, or of the uuid the name resolves to
    when none is given; the profiles returned are the profiles fetched for
    that uuid; [online] tells whether the latest save of that user among
    them is less than three minutes old; and [activeProfile] is the first
    of them holding that latest save, and is left out when the user has no
    save later than 0 in any of them. *)
Theorem active_profile_is_latest_save {PlayerData AccountCustomization : Type}
    (aw : Awaited PlayerData AccountCustomization)
    (args : UserAny) (included : list string) (wantCustomization : bool) (now : Z)
    (result : CleanUser PlayerData AccountCustomization) :
  "profiles" ∈ included ->
  fetchUser aw args included wantCustomization now = Some result ->
  exists uuid,
    givenOrResolved aw args = Some uuid
    /\ let fetched := default [] (fetchSkyblockProfiles aw uuid) in
       let latest := latestSave uuid fetched in
       profiles result = Some fetched
       /\ online result = Some (bool_decide (now - saveInterval < latest))
       /\ activeProfile result
          = (if bool_decide (0 < latest)
             then profile_uuid
                    <$> List.find (fun p => bool_decide (lastSaveIn uuid p = Some latest))
                          fetched
             else None)
       /\ (forall q l, q ∈ fetched -> lastSaveIn uuid q = Some l -> l <= latest).
Proof.
  intros Hincluded. unfold fetchUser, givenOrResolved.
  match goal with
  | |- match ?r with _ => _ end = _ -> _ =>
      destruct r as [[|c u]|] eqn:Hresolved; [done | | done]
  end.
  rewrite (bool_decide_eq_true_2 _ Hincluded).
  rewrite (active_loop_latest (String c u)).
  intros [= <-]. exists (String c u). split.
  { destruct (truthy (Users.uuid args)); [done |].
    by destruct (negb (truthy (username args)) && negb (truthy (user args))). }
  cbn. split; [done |]. split.
  { f_equal. destruct (Z.ltb_spec (now - saveInterval)
                         (latestSave (String c u)
                            (default [] (fetchSkyblockProfiles aw (String c u))))).
    - by rewrite bool_decide_eq_true_2.
    - rewrite bool_decide_eq_false_2; [done | lia]. }
  split; [by case_bool_decide |].
  apply latestSave_spec.
Qed.

Lemma active_profile_sample :
  let island := mkCleanProfile "island" (Some [mkBasicMember "u1" (Some 900)]) in
  let coop := mkCleanProfile "coop"
                (Some [mkBasicMember "u2" (Some 990); mkBasicMember "u1" (Some 950)]) in
  let later := mkCleanProfile "later" (Some [mkBasicMember "u1" (Some 950)]) in
  let aw := mkAwaited (fun _ => Some "u1") (fun _ => None)
              (fun _ => Some [island; coop; later])
              (fun _ => @None (AccountSchema unit)) : Awaited unit unit in
  let args := mkUserAny (Some "someone") None None in
  let result := mkCleanUser None (Some [island; coop; later]) (Some "coop") (Some false)
                  None : CleanUser unit unit in
  exists uuid,
    givenOrResolved aw args = Some uuid
    /\ let fetched := default [] (fetchSkyblockProfiles aw uuid) in
       let latest := latestSave uuid fetched in
       profiles result = Some fetched
       /\ online result = Some (bool_decide (1000000 - saveInterval < latest))
       /\ activeProfile result
          = (if bool_decide (0 < latest)
             then profile_uuid
                    <$> List.find (fun p => bool_decide (lastSaveIn uuid p = Some latest))
                          fetched
             else None)
       /\ (forall q l, q ∈ fetched -> lastSaveIn uuid q = Some l -> l <= latest).
Proof.
  intros island coop later aw args result.
  refine (active_profile_is_latest_save aw args ["profiles"] false 1000000 result _ _).
  - apply (bool_decide_unpack _). vm_compute. reflexivity.
  - vm_compute. reflexivity.
Defined.

End UserFacts.

(** ** The names of the auctioned items *)

Module AuctionItemFacts.
Import Database AuctionItems.
Local Open Scope list_scope.

Lemma displayNames_lookup (auctionItemIds : list string) (itemList : list ItemListItem)
    (k : string) :
  displayNames auctionItemIds itemList !! k
  = if decide (k ∈ auctionItemIds) then listedName k itemList else None.
Proof.
  unfold displayNames, listedName.
  induction itemList as [|item itemList IH] using rev_ind.
  - simpl. rewrite lookup_empty. by case_decide.
  - rewrite foldl_app, filter_app. cbn [foldl]. rewrite filter_cons, filter_nil.
    case_bool_decide as Hin.
    + destruct (decide (item_id item = k)) as [<- | Hne].
      * rewrite lookup_insert_eq, decide_True by done. by rewrite last_snoc.
      * rewrite lookup_insert_ne by done. by rewrite app_nil_r.
    + rewrite IH. destruct (decide (item_id item = k)) as [<- | Hne].
      * by rewrite !decide_False by done.
      * by rewrite app_nil_r.
Qed.

Lemma listedName_None (k : string) (itemList : list ItemListItem) :
  listedName k itemList = None <-> k ∉ item_id <$> itemList.
Proof.
  unfold listedName. rewrite fmap_None, last_None. split.
  - intros Hnil (item & -> & Hin)%list_elem_of_fmap.
    assert (item ∈ filter (fun i => item_id i = item_id item) itemList) as Hf
      by by apply list_elem_of_filter.
    rewrite Hnil in Hf. by apply elem_of_nil in Hf.
  - intros Hk. destruct (filter _ itemList) as [|item found] eqn:Hfound; [done |].
    assert (item ∈ filter (fun i => item_id i = k) itemList) as Hin
      by (rewrite Hfound; left).
    apply list_elem_of_filter in Hin as [<- Hin]. exfalso.
    apply Hk. by apply list_elem_of_fmap_2.
Qed.

Lemma fallbackName_None (item : string) : fallbackName item = None <-> item = "".
Proof. by destruct item. Qed.

Lemma nameMissing_spec (auctionItemIds : list string) (idsToNames : gmap string string) :
  match nameMissing auctionItemIds idsToNames with
  | Returned named =>
      (forall k, named !! k
                 = match idsToNames !! k with
                   | Some name => Some name
                   | None => if decide (k ∈ auctionItemIds) then fallbackName k else None
                   end)
      /\ forall k, k ∈ auctionItemIds -> idsToNames !! k = None ->
           is_Some (fallbackName k)
  | Threw => exists k, k ∈ auctionItemIds /\ idsToNames !! k = None
                       /\ fallbackName k = None
  end.
Proof.
  revert idsToNames.
  induction auctionItemIds as [|item rest IH]; intros idsToNames; cbn [nameMissing].
  - split.
    + intros k. destruct (idsToNames !! k); [done |].
      rewrite decide_False; [done | apply not_elem_of_nil].
    + by intros k ?%elem_of_nil.
  - destruct (idsToNames !! item) as [name|] eqn:Hitem.
    + specialize (IH idsToNames). destruct (nameMissing rest idsToNames) as [named|].
      * destruct IH as [Hlookup Hsome]. split.
        -- intros k. rewrite Hlookup. destruct (idsToNames !! k) eqn:Hk; [done |].
           destruct (decide (k = item)) as [-> | Hne]; [congruence |].
           destruct (decide (k ∈ rest)) as [Hin | Hin].
           ++ rewrite decide_True; [done | by right].
           ++ rewrite decide_False; [done |]. by intros [? | ?]%elem_of_cons.
        -- intros k [-> | Hin]%elem_of_cons Hk; [congruence | by apply Hsome].
      * destruct IH as (k & Hin & Hk & Hfb). exists k. split; [by right | done].
    + destruct (fallbackName item) as [name|] eqn:Hfb.
      * specialize (IH (<[item := name]> idsToNames)).
        destruct (nameMissing rest (<[item := name]> idsToNames)) as [named|].
        -- destruct IH as [Hlookup Hsome]. split.
           ++ intros k. rewrite Hlookup. destruct (decide (k = item)) as [-> | Hne].
              ** rewrite lookup_insert_eq, Hitem, decide_True; [done | left].
              ** rewrite lookup_insert_ne by done. destruct (idsToNames !! k); [done |].
                 destruct (decide (k ∈ rest)) as [Hin | Hin].
                 --- rewrite decide_True; [done | by right].
                 --- rewrite decide_False; [done |]. by intros [? | ?]%elem_of_cons.
           ++ intros k [-> | Hin]%elem_of_cons Hk; [by rewrite Hfb |].
              destruct (decide (k = item)) as [-> | Hne]; [by rewrite Hfb |].
              apply Hsome; [done |]. by rewrite lookup_insert_ne.
        -- destruct IH as (k & Hin & Hk & Hnone). exists k.
           split; [by right |]. split; [| done].
           destruct (decide (k = item)) as [-> | Hne]; [done |].
           by rewrite lookup_insert_ne in Hk.
      * exists item. split; [left | done].
Qed.

(** X25.  When [fetchAuctionItemsUncached] returns names, both promises it
    awaited were fulfilled, and it returns a name for every auctioned item id
    and for nothing else: the display name of the item of that id in the
    item list, the last one if the list has several, and otherwise the name
    made from the id. *)
Theorem auction_item_names (fetchItemsAuctionsIds : Promise (option (list string)))
    (fetchItemList : Promise (list ItemListItem)) (idsToNames : gmap string string) :
  fetchAuctionItemsUncached fetchItemsAuctionsIds fetchItemList
  = Fulfilled (Some idsToNames) ->
  exists auctionItemIds itemList,
    fetchItemsAuctionsIds = Fulfilled (Some auctionItemIds)
    /\ fetchItemList = Fulfilled itemList
    /\ forall k,
         (is_Some (idsToNames !! k) <-> k ∈ auctionItemIds)
         /\ (k ∈ auctionItemIds ->
             idsToNames !! k
             = match listedName k itemList with
               | Some name => Some name
               | None => fallbackName k
               end).
Proof.
  unfold fetchAuctionItemsUncached.
  destruct fetchItemsAuctionsIds as [[auctionItemIds|]| |]; try done.
  destruct fetchItemList as [itemList| |]; try done.
  pose proof (nameMissing_spec auctionItemIds (displayNames auctionItemIds itemList))
    as Hspec.
  destruct (nameMissing _ _) as [named|]; [| done].
  intros [= <-]. exists auctionItemIds, itemList. split; [done |]. split; [done |].
  intros k. destruct Hspec as [Hlookup Hsome].
  specialize (Hlookup k). specialize (Hsome k).
  rewrite displayNames_lookup in Hlookup, Hsome.
  destruct (decide (k ∈ auctionItemIds)) as [Hin | Hin].
  - rewrite Hlookup. split; [| done].
    destruct (listedName k itemList); [done |]. split; [done |]. intros _. by apply Hsome.
  - rewrite Hlookup. split; [| done]. split; [by intros [? ?] | done].
Qed.

Lemma auction_item_names_sample :
  let ids := ["HYPERION"; "ASPECT_OF_THE_END"] in
  let listed := [mkItemListItem "HYPERION" "Hyperion"; mkItemListItem "DIRT" "Dirt"] in
  let idsToNames : gmap string string :=
    {[ "HYPERION" := "Hyperion"; "ASPECT_OF_THE_END" := "Aspect of the end" ]} in
  exists auctionItemIds itemList,
    Fulfilled (Some ids) = Fulfilled (Some auctionItemIds)
    /\ Fulfilled listed = Fulfilled itemList
    /\ forall k,
         (is_Some (idsToNames !! k) <-> k ∈ auctionItemIds)
         /\ (k ∈ auctionItemIds ->
             idsToNames !! k
             = match listedName k itemList with
               | Some name => Some name
               | None => fallbackName k
               end).
Proof.
  intros ids listed idsToNames.
  refine (auction_item_names (Fulfilled (Some ids)) (Fulfilled listed) idsToNames _).
  vm_compute. reflexivity.
Defined.

(** X26.  What becomes of [fetchAuctionItemsUncached], by what becomes of
    the two promises it awaits.  It returns [undefined] exactly when the
    store gives no ids.  It is rejected exactly when the ids are, or there
    are ids and the item list is rejected, or both are there, the empty
    string is among the ids and no listed item has it for id -- [item[0]] is
    then [undefined].  It never settles exactly when the ids never do, or
    there are ids and the item list never settles.  In every other case it
    returns names. *)
Theorem auction_item_names_outcomes
    (fetchItemsAuctionsIds : Promise (option (list string)))
    (fetchItemList : Promise (list ItemListItem)) :
  let outcome := fetchAuctionItemsUncached fetchItemsAuctionsIds fetchItemList in
  (outcome = Fulfilled None <-> fetchItemsAuctionsIds = Fulfilled None)
  /\ (outcome = Rejected
      <-> fetchItemsAuctionsIds = Rejected
          \/ exists ids,
               fetchItemsAuctionsIds = Fulfilled (Some ids)
               /\ (fetchItemList = Rejected
                   \/ exists itemList,
                        fetchItemList = Fulfilled itemList
                        /\ "" ∈ ids /\ "" ∉ item_id <$> itemList))
  /\ (outcome = Pending
      <-> fetchItemsAuctionsIds = Pending
          \/ exists ids,
               fetchItemsAuctionsIds = Fulfilled (Some ids) /\ fetchItemList = Pending)
  /\ ((exists names, outcome = Fulfilled (Some names))
      <-> exists ids itemList,
            fetchItemsAuctionsIds = Fulfilled (Some ids)
            /\ fetchItemList = Fulfilled itemList
            /\ ("" ∈ ids -> "" ∈ item_id <$> itemList)).
Proof.
  unfold fetchAuctionItemsUncached.
  destruct fetchItemsAuctionsIds as [[ids|]| |].
  2: { split; [done |]. split; [| split].
       - split; [done |]. by intros [? | (ids & ? & _)].
       - split; [done |]. by intros [? | (ids & ? & _)].
       - split; [by intros [? ?] | by intros (ids & itemList & ? & _)]. }
  2: { split; [done |]. split; [| split].
       - split; [by left | done].
       - split; [done |]. by intros [? | (ids & ? & _)].
       - split; [by intros [? ?] | by intros (ids & itemList & ? & _)]. }
  2: { split; [done |]. split; [| split].
       - split; [done |]. by intros [? | (ids & ? & _)].
       - split; [by left | done].
       - split; [by intros [? ?] | by intros (ids & itemList & ? & _)]. }
  destruct fetchItemList as [itemList| |].
  - pose proof (nameMissing_spec ids (displayNames ids itemList)) as Hspec.
    assert (forall k, k ∈ ids -> displayNames ids itemList !! k = None
                      <-> k ∉ item_id <$> itemList) as Hnone.
    { intros k Hk. rewrite displayNames_lookup, decide_True by done.
      apply listedName_None. }
    destruct (nameMissing _ _) as [named|].
    + destruct Hspec as [_ Hsome].
      assert ("" ∈ ids -> "" ∈ item_id <$> itemList) as Hlisted.
      { intros Hin. destruct (decide ("" ∈ item_id <$> itemList)) as [? | Hout]; [done |].
        apply (Hnone "" Hin) in Hout. by destruct (Hsome "" Hin Hout). }
      split; [done |]. split; [| split].
      * split; [done |].
        intros [? | (ids' & [= <-] & [? | (l & [= <-] & Hin & Hout)])]; try done.
        by destruct Hout; apply Hlisted.
      * split; [done |]. by intros [? | (ids' & _ & ?)].
      * split; [intros _; by exists ids, itemList | intros _; by exists named].
    + destruct Hspec as (k & Hin & Hk & ->%fallbackName_None).
      apply (Hnone "" Hin) in Hk.
      split; [done |]. split; [| split].
      * split; [| done]. intros _. right. exists ids. split; [done |].
        right. by exists itemList.
      * split; [done |]. by intros [? | (ids' & _ & ?)].
      * split; [by intros [? ?] |].
        intros (ids' & l & [= <-] & [= <-] & Hlisted). by destruct Hk; apply Hlisted.
  - split; [done |]. split; [| split].
    + split; [| done]. intros _. right. exists ids. split; [done | by left].
    + split; [done |]. by intros [? | (ids' & _ & ?)].
    + split; [by intros [? ?] | by intros (ids' & l & _ & ? & _)].
  - split; [done |]. split; [| split].
    + split; [done |].
      intros [? | (ids' & _ & [? | (l & ? & _)])]; done.
    + split; [| done]. intros _. right. by exists ids.
    + split; [by intros [? ?] | by intros (ids' & l & _ & ? & _)].
Qed.

End AuctionItemFacts.
